(** * Breakout engine: state transition, collision detection, collision
      resolution

    A shallow embedding of [globals.js] (src/unnamed/part_000), of [state.js]
    and [randomPowerup] (both in src/gameplay.js), of
    [collision-detectors.js], of [collision-handlers.js]
    (src/unnamed/part_001) and of the frame loop of [main.js]
    (src/unnamed/part_002).

    Conventions of the embedding.
    - A JavaScript [number] is a real number ([R]): arithmetic is exact and
      there is neither NaN nor an infinity.  [Math.sin], [Math.cos],
      [Math.asin] and [Math.PI] are the functions and the constant of the
      Standard Library's reals.
    - An object that the code reaches through more than one reference (a
      powerup, held by the powerup array and by a collision record) carries
      its identity in a field [ref]; [indexOf] and the mutation through a
      collision record go by that identity.
    - [structuredClone] copies the whole state, so a state is a value and the
      old state is never changed by a frame.
    - The input collector is a [Set] of key names: a [gset string], returned
      by the transition because [updatePause] deletes from it. *)

From stdpp Require Import gmap strings list.
From Stdlib Require Import Reals Lra.

#[local] Open Scope R_scope.

(** ** Deciding the comparisons of the code *)

#[global] Instance Rlt_decision : RelDecision Rlt := Rlt_dec.
#[global] Instance Rle_decision : RelDecision Rle := Rle_dec.
#[global] Instance Rgt_decision : RelDecision Rgt := Rgt_dec.
#[global] Instance Rge_decision : RelDecision Rge := Rge_dec.
#[global] Instance R_eq_decision : EqDecision R := Req_dec_T.

(** ** globals.js *)

Definition BALL_RADIUS : R := 7.5.
Definition BALL_SPEED : R := 5.
Definition PADDLE_WIDTH : R := 80.
Definition PADDLE_HEIGHT : R := 15.
Definition PADDLE_SPEED : R := 2.
Definition PADDLE_OFFSET_Y : R := 20.
Definition BRICK_WIDTH : R := 50.
Definition BRICK_HEIGHT : R := 25.
Definition BRICK_COLS : nat := 8.
Definition BRICK_ROWS : nat := 4.
Definition POWERUP_DROP_SPEED : R := 2.

(** ** The data model (the typedefs of state.js) *)

Module Pos.
Record t : Type := mk { x : R; y : R }.
Definition with_x (p : t) (v : R) : t := mk v (y p).
Definition with_y (p : t) (v : R) : t := mk (x p) v.
End Pos.

Module Boundaries.
Record t : Type := mk { xMin : R; xMax : R; yMin : R; yMax : R }.
End Boundaries.

Module Ball.
Record t : Type := mk { pos : Pos.t; speed : R; angle : R }.
Definition with_pos (b : t) (p : Pos.t) : t := mk p (speed b) (angle b).
Definition with_speed (b : t) (v : R) : t := mk (pos b) v (angle b).
Definition with_angle (b : t) (v : R) : t := mk (pos b) (speed b) v.
End Ball.

Module Paddle.
Record t : Type := mk { pos : Pos.t; width : R; desiredWidth : R }.
Definition with_pos (p : t) (v : Pos.t) : t := mk v (width p) (desiredWidth p).
Definition with_width (p : t) (v : R) : t := mk (pos p) v (desiredWidth p).
Definition with_desiredWidth (p : t) (v : R) : t := mk (pos p) (width p) v.
End Paddle.

(** The only powerup type of the typedef is ["expander"]. *)
Inductive PowerupType : Type := expander.

Module Powerup.
Record t : Type := mk {
    ref : nat;
    type : PowerupType;
    active : bool;
    pos : option Pos.t;
    timer : R
  }.
Definition with_active (p : t) (v : bool) : t :=
    mk (ref p) (type p) v (pos p) (timer p).
Definition with_pos (p : t) (v : option Pos.t) : t :=
    mk (ref p) (type p) (active p) v (timer p).
Definition with_timer (p : t) (v : R) : t :=
    mk (ref p) (type p) (active p) (pos p) v.
End Powerup.

Module Brick.
Record t : Type := mk { pos : Pos.t; powerup : option Powerup.t }.
End Brick.

Module State.
Record t : Type := mk {
    isPaused : bool;
    isServing : bool;
    boundaries : Boundaries.t;
    ball : Ball.t;
    paddle : Paddle.t;
    bricks : list Brick.t;
    score : R * R;
    powerups : list Powerup.t
  }.
Definition with_isPaused (s : t) (v : bool) : t :=
    mk v (isServing s) (boundaries s) (ball s) (paddle s) (bricks s) (score s)
       (powerups s).
Definition with_isServing (s : t) (v : bool) : t :=
    mk (isPaused s) v (boundaries s) (ball s) (paddle s) (bricks s) (score s)
       (powerups s).
Definition with_ball (s : t) (v : Ball.t) : t :=
    mk (isPaused s) (isServing s) (boundaries s) v (paddle s) (bricks s)
       (score s) (powerups s).
Definition with_paddle (s : t) (v : Paddle.t) : t :=
    mk (isPaused s) (isServing s) (boundaries s) (ball s) v (bricks s)
       (score s) (powerups s).
Definition with_bricks (s : t) (v : list Brick.t) : t :=
    mk (isPaused s) (isServing s) (boundaries s) (ball s) (paddle s) v
       (score s) (powerups s).
Definition with_powerups (s : t) (v : list Powerup.t) : t :=
    mk (isPaused s) (isServing s) (boundaries s) (ball s) (paddle s)
       (bricks s) (score s) v.
End State.

(** The input collector: the set of the keys that are held. *)
Abbreviation Inputs := (gset string).

Definition has (inputs : Inputs) (key : string) : bool :=
  bool_decide (key ∈ inputs).

(** The canvas, as far as [createState] reads it. *)
Module Canvas.
Record t : Type := mk { width : R; height : R }.
End Canvas.

(** ** state.js: the initial state *)

(** [randomPowerup], with the sample [p] of [Math.random()] and the identity
    of the object it allocates as arguments. *)
Definition randomPowerup (ref : nat) (p : R) : option Powerup.t :=
  if bool_decide (p > 0.1875) then None
  else Some (Powerup.mk ref expander false None (30 * 60)).

(** [createState]: [random k] is the sample drawn for the [k]-th brick
    pushed. *)
Definition createState (canvas : Canvas.t) (random : nat -> R) : State.t :=
  let bricks : list Brick.t :=
    row ← seq 0 BRICK_ROWS;
    let y := 40 + INR row * (BRICK_HEIGHT + 10) in
    col ← seq 0 BRICK_COLS;
    let x := 40 + INR col * (BRICK_WIDTH + 10) in
    let k := (row * BRICK_COLS + col)%nat in
    [Brick.mk (Pos.mk x y) (randomPowerup k (random k))] in
  {| State.isPaused := false;
     State.isServing := true;
     State.score := (0, 0);
     State.boundaries :=
       Boundaries.mk 0 (Canvas.width canvas) 0 (Canvas.height canvas);
     State.ball :=
       {| Ball.pos := Pos.mk (Canvas.width canvas / 2)
                             (PADDLE_OFFSET_Y + PADDLE_HEIGHT / 2);
          Ball.angle := PI / 3;
          Ball.speed := 3 |};
     State.paddle :=
       {| Paddle.pos := Pos.mk (Canvas.width canvas / 2)
                               (Canvas.height canvas - PADDLE_OFFSET_Y);
          Paddle.width := PADDLE_WIDTH;
          Paddle.desiredWidth := PADDLE_WIDTH |};
     State.bricks := bricks;
     State.powerups := [] |}.

(** ** state.js: the transition *)

(** [updatePause]: the toggle, and the deletion of the key from the input
    collector. *)
Definition updatePause (state : State.t) (inputs : Inputs)
  : State.t * Inputs :=
  if has inputs "p" then
    (State.with_isPaused state (negb (State.isPaused state)),
     inputs ∖ {["p"]})
  else (state, inputs).

(** [updatePaddle]: the bounds and the position read are those of the old
    state's paddle; the width is animated on the new state. *)
Definition updatePaddle (state oldState : State.t) (inputs : Inputs)
  : State.t :=
  let paddle := State.paddle oldState in
  let boundaries := State.boundaries oldState in
  let xMin := Boundaries.xMin boundaries + Paddle.width paddle / 2 in
  let xMax := Boundaries.xMax boundaries - Paddle.width paddle / 2 in
  let set_x (state : State.t) (v : R) : State.t :=
    State.with_paddle state
      (Paddle.with_pos (State.paddle state)
         (Pos.with_x (Paddle.pos (State.paddle state)) v)) in
  let state :=
    if has inputs "ArrowLeft" then
      set_x state (Rmax xMin (Pos.x (Paddle.pos paddle) - PADDLE_SPEED))
    else state in
  let state :=
    if has inputs "ArrowRight" then
      set_x state (Rmin xMax (Pos.x (Paddle.pos paddle) + PADDLE_SPEED))
    else state in
  let width := Paddle.width (State.paddle state) in
  let desiredWidth := Paddle.desiredWidth (State.paddle state) in
  if bool_decide (width < desiredWidth) then
    State.with_paddle state
      (Paddle.with_width (State.paddle state) (Rmin desiredWidth (width + 1)))
  else if bool_decide (width > desiredWidth) then
    State.with_paddle state
      (Paddle.with_width (State.paddle state) (Rmax desiredWidth (width - 1)))
  else state.

(** [Array.prototype.indexOf] on the powerup array: the first index that
    holds the object [powerup] ([None] for -1). *)
Fixpoint indexOf (l : list Powerup.t) (powerup : Powerup.t) : option nat :=
  match l with
  | [] => None
  | q :: l' =>
      if bool_decide (Powerup.ref q = Powerup.ref powerup) then Some 0%nat
      else S <$> indexOf l' powerup
  end.

(** [splice(index, 1)] with the result of [indexOf]: -1 counts from the
    end of the array. *)
Definition splice1 (index : option nat) (l : list Powerup.t)
  : list Powerup.t :=
  match index with
  | Some k => delete k l
  | None => removelast l
  end.

(** The [for (const powerup of state.powerups)] loop of [updatePowerups].
    The array iterator keeps an index, reads the array at it and stops when
    the index has reached the current length; [i] is that index.  An
    iteration never lengthens the array, so [length (powerups state)]
    iterations are enough ([fuel]). *)
Fixpoint updatePowerups_from (fuel i : nat) (state : State.t) : State.t :=
  match fuel with
  | O => state
  | S fuel =>
      match State.powerups state !! i with
      | None => state
      | Some powerup =>
          match Powerup.pos powerup with
          | Some pos =>
              let powerup :=
                Powerup.with_pos powerup
                  (Some (Pos.with_y pos (Pos.y pos + POWERUP_DROP_SPEED))) in
              updatePowerups_from fuel (S i)
                (State.with_powerups state
                   (<[i := powerup]> (State.powerups state)))
          | None =>
              let powerup :=
                Powerup.with_timer powerup (Powerup.timer powerup - 1) in
              let state :=
                State.with_powerups state
                  (<[i := powerup]> (State.powerups state)) in
              if bool_decide (Powerup.timer powerup <= 0) then
                let state :=
                  match Powerup.type powerup with
                  | expander =>
                      State.with_paddle state
                        (Paddle.with_desiredWidth (State.paddle state)
                           (Paddle.desiredWidth (State.paddle state) - 10))
                  end in
                let index := indexOf (State.powerups state) powerup in
                updatePowerups_from fuel (S i)
                  (State.with_powerups state
                     (splice1 index (State.powerups state)))
              else updatePowerups_from fuel (S i) state
          end
      end
  end.

Definition updatePowerups (state : State.t) : State.t :=
  updatePowerups_from (length (State.powerups state)) 0 state.

(** [updateServingPaddle] *)
Definition updateServingPaddle (state oldState : State.t) (inputs : Inputs)
  : State.t :=
  if State.isServing oldState && has inputs " " then
    State.with_isServing state false
  else state.

(** [updateBall] *)
Definition updateBall (state oldState : State.t) : State.t :=
  let oldBall := State.ball oldState in
  if State.isServing state then
    let y := Pos.y (Paddle.pos (State.paddle state)) in
    let offset := PADDLE_HEIGHT / 2 + BALL_RADIUS + 1 in
    let y := y - offset in
    State.with_ball state
      {| Ball.pos := Pos.mk (Pos.x (Paddle.pos (State.paddle state))) y;
         Ball.angle := 0;
         Ball.speed := 0 |}
  else
    let angle := Ball.angle oldBall in
    let speed := Ball.speed oldBall in
    let '(angle, speed, state) :=
      if bool_decide (speed = 0) then
        let speed := BALL_SPEED in
        let angle := - PI / 2 in
        (angle, speed,
         State.with_ball state
           (Ball.with_speed (Ball.with_angle (State.ball state) angle) speed))
      else (angle, speed, state) in
    State.with_ball state
      (Ball.with_pos (State.ball state)
         (Pos.mk (Pos.x (Ball.pos oldBall) + speed * cos angle)
                 (Pos.y (Ball.pos oldBall) + speed * sin angle))).

(** [updateState]: the new state and the input collector as the call
    leaves it. *)
Definition updateState (oldState : State.t) (inputs : Inputs)
  : State.t * Inputs :=
  let state := oldState in
  let '(state, inputs) := updatePause state inputs in
  if negb (State.isPaused state) then
    let state := updateServingPaddle state oldState inputs in
    let state := updatePowerups state in
    let state := updatePaddle state oldState inputs in
    let state := updateBall state oldState in
    (state, inputs)
  else (state, inputs).

(** ** collision-detectors.js *)

Inductive Wall : Type := Top | Left | Right | Bottom.

(** The collision records.  A ["powerup.paddle"] record holds a reference to
    the powerup object of the new state: the value seen at detection, whose
    [ref] names the object. *)
Inductive Collision : Type :=
| BallPaddle
| BallWall (wall : Wall)
| BallBrick (brick : nat) (side : Wall)
| PowerupPaddle (powerup : Powerup.t).

(** Every record added to the collision [Set] is a fresh object, so nothing
    is ever merged, and a [Set] iterates in insertion order: the set is the
    list of the records in the order of their insertion. *)
Abbreviation Collisions := (list Collision).

(** Each detector returns the records it adds, in order. *)
Definition detectBallWallCollision (state oldState : State.t) : Collisions :=
  let ball := State.ball state in
  let boundaries := State.boundaries state in
  (if bool_decide (Pos.x (Ball.pos ball) - BALL_RADIUS
                   < Boundaries.xMin boundaries)
   then [BallWall Left] else []) ++
  (if bool_decide (Pos.x (Ball.pos ball) + BALL_RADIUS
                   > Boundaries.xMax boundaries)
   then [BallWall Right] else []) ++
  (if bool_decide (Pos.y (Ball.pos ball) + BALL_RADIUS
                   < Boundaries.yMin boundaries)
   then [BallWall Top] else []) ++
  (if bool_decide (Pos.y (Ball.pos ball) - BALL_RADIUS
                   > Boundaries.yMax boundaries)
   then [BallWall Bottom] else []).

(** The body of the loop of [detectBallBrickCollision] for the brick at
    [index]. *)
Definition detectBallBrick_at (ball oldBall : Ball.t) (index : nat)
    (brick : Brick.t) : Collisions :=
  let ballTop := Pos.y (Ball.pos ball) - BALL_RADIUS in
  let ballBottom := Pos.y (Ball.pos ball) + BALL_RADIUS in
  let ballLeft := Pos.x (Ball.pos ball) - BALL_RADIUS in
  let ballRight := Pos.x (Ball.pos ball) + BALL_RADIUS in
  let brickTop := Pos.y (Brick.pos brick) - BRICK_HEIGHT / 2 in
  let brickBottom := Pos.y (Brick.pos brick) + BRICK_HEIGHT / 2 in
  let brickLeft := Pos.x (Brick.pos brick) - BRICK_WIDTH / 2 in
  let brickRight := Pos.x (Brick.pos brick) + BRICK_WIDTH / 2 in
  if bool_decide (ballRight > brickLeft) &&
     bool_decide (ballLeft < brickRight) &&
     bool_decide (ballBottom > brickTop) &&
     bool_decide (ballTop < brickBottom)
  then
    let side :=
      if bool_decide (Pos.y (Ball.pos oldBall) - BALL_RADIUS >= brickBottom)
      then Bottom
      else if bool_decide (Pos.y (Ball.pos oldBall) + BALL_RADIUS <= brickTop)
      then Top
      else if bool_decide (Pos.x (Ball.pos oldBall) - BALL_RADIUS >= brickRight)
      then Right
      else Left in
    [BallBrick index side]
  else [].

(** The loop itself, [index] counting the bricks visited. *)
Fixpoint detectBallBrick_loop (ball oldBall : Ball.t) (index : nat)
    (bricks : list Brick.t) : Collisions :=
  match bricks with
  | [] => []
  | brick :: bricks =>
      detectBallBrick_at ball oldBall index brick ++
      detectBallBrick_loop ball oldBall (S index) bricks
  end.

Definition detectBallBrickCollision (state oldState : State.t) : Collisions :=
  detectBallBrick_loop (State.ball state) (State.ball oldState) 0
    (State.bricks state).

Definition detectBallPaddleCollision (state oldState : State.t)
  : Collisions :=
  let ball := State.ball state in
  let paddle := State.paddle state in
  if bool_decide (Pos.x (Ball.pos ball)
             > Pos.x (Paddle.pos paddle) - Paddle.width paddle / 2) &&
     bool_decide (Pos.x (Ball.pos ball)
             < Pos.x (Paddle.pos paddle) + Paddle.width paddle / 2) &&
     bool_decide (Pos.y (Ball.pos ball)
             > Pos.y (Paddle.pos paddle) - PADDLE_HEIGHT / 2) &&
     bool_decide (Pos.y (Ball.pos ball)
             < Pos.y (Paddle.pos paddle) + PADDLE_HEIGHT / 2)
  then [BallPaddle] else [].

Definition detectPowerupPaddle_at (paddle : Paddle.t) (powerup : Powerup.t)
  : Collisions :=
  match Powerup.pos powerup with
  | None => []
  | Some pos =>
      if bool_decide (Pos.x pos
                 > Pos.x (Paddle.pos paddle) - Paddle.width paddle / 2) &&
         bool_decide (Pos.x pos
                 < Pos.x (Paddle.pos paddle) + Paddle.width paddle / 2) &&
         bool_decide (Pos.y pos
                 > Pos.y (Paddle.pos paddle) - PADDLE_HEIGHT / 2) &&
         bool_decide (Pos.y pos
                 < Pos.y (Paddle.pos paddle) + PADDLE_HEIGHT / 2)
      then [PowerupPaddle powerup] else []
  end.

Definition detectPowerupPaddleCollision (state oldState : State.t)
  : Collisions :=
  p ← State.powerups state; detectPowerupPaddle_at (State.paddle state) p.

Definition COLLISION_DETECTORS : list (State.t -> State.t -> Collisions) :=
  [ detectBallWallCollision;
    detectBallBrickCollision;
    detectBallPaddleCollision;
    detectPowerupPaddleCollision ].

Definition detectCollisions (state oldState : State.t) : Collisions :=
  detector ← COLLISION_DETECTORS; detector state oldState.

(** ** collision-handlers.js *)

(** A handler returns the state it leaves, or throws: destructuring
    [undefined] is a [TypeError]. *)
Inductive result (A : Type) : Type :=
| Ok (a : A)
| TypeError.
Arguments Ok {A} a.
Arguments TypeError {A}.

Definition bind {A B : Type} (m : result A) (k : A -> result B) : result B :=
  match m with
  | Ok a => k a
  | TypeError => TypeError
  end.

(** The reflection off a vertical edge: the angle from the old ball, [x]
    recomputed from the old position. *)
Definition reflectHorizontally (state : State.t) (oldBall : Ball.t)
  : State.t :=
  let angle := PI - Ball.angle oldBall in
  let ball := Ball.with_angle (State.ball state) angle in
  State.with_ball state
    (Ball.with_pos ball
       (Pos.with_x (Ball.pos ball)
          (Pos.x (Ball.pos oldBall) + Ball.speed oldBall * cos angle))).

(** The reflection off a horizontal edge: the angle from the new state's
    ball, [y] recomputed from the old position. *)
Definition reflectVertically (state : State.t) (oldBall : Ball.t)
  : State.t :=
  let angle := - Ball.angle (State.ball state) in
  let ball := Ball.with_angle (State.ball state) angle in
  State.with_ball state
    (Ball.with_pos ball
       (Pos.with_y (Ball.pos ball)
          (Pos.y (Ball.pos oldBall) + Ball.speed oldBall * sin angle))).

Definition handleBallWallCollision (wall : Wall) (state oldState : State.t)
  : State.t :=
  match wall with
  | Bottom => State.with_isServing state true
  | Left | Right => reflectHorizontally state (State.ball oldState)
  | Top => reflectVertically state (State.ball oldState)
  end.

(** [handleBallBrickCollision]: [splice] past the end removes nothing and
    returns an empty array, whose first element is [undefined]. *)
Definition handleBallBrickCollision (brickIndex : nat) (side : Wall)
    (state oldState : State.t) : result State.t :=
  let state :=
    match side with
    | Left | Right => reflectHorizontally state (State.ball oldState)
    | Top | Bottom => reflectVertically state (State.ball oldState)
    end in
  match State.bricks state !! brickIndex with
  | None => TypeError
  | Some brick =>
      let state :=
        State.with_bricks state (delete brickIndex (State.bricks state)) in
      match Brick.powerup brick with
      | Some powerup =>
          Ok (State.with_powerups state
                (State.powerups state ++
                 [Powerup.with_pos powerup (Some (Brick.pos brick))]))
      | None => Ok state
      end
  end.

Definition handleBallPaddleCollision (state oldState : State.t) : State.t :=
  let oldBall := State.ball oldState in
  let paddle := State.paddle oldState in
  let tilt :=
    PI * ((Pos.x (Ball.pos (State.ball state)) - Pos.x (Paddle.pos paddle))
          / (Paddle.width paddle + 20)) in
  let angle :=
    if bool_decide (asin (sin (Ball.angle oldBall)) > 0) then - PI / 2 + tilt
    else PI / 2 - tilt in
  let ball := Ball.with_angle (State.ball state) angle in
  State.with_ball state
    (Ball.with_pos ball
       (Pos.with_y (Ball.pos ball)
          (Pos.y (Ball.pos oldBall) + Ball.speed oldBall * sin angle))).

(** [handlePowerupPaddleCollision]: the writes go to the object the record
    refers to, which is an element of the new state's powerup array. *)
Definition handlePowerupPaddleCollision (powerup : Powerup.t)
    (state : State.t) : State.t :=
  let capture (q : Powerup.t) : Powerup.t :=
    if bool_decide (Powerup.ref q = Powerup.ref powerup)
    then Powerup.with_active (Powerup.with_pos q None) true
    else q in
  let state := State.with_powerups state (capture <$> State.powerups state) in
  match Powerup.type powerup with
  | expander =>
      State.with_paddle state
        (Paddle.with_desiredWidth (State.paddle state)
           (Paddle.desiredWidth (State.paddle state) + 10))
  end.

(** The body of the loop of [handleCollisions]. *)
Definition handleCollision (collision : Collision) (state oldState : State.t)
  : result State.t :=
  match collision with
  | BallBrick brick side => handleBallBrickCollision brick side state oldState
  | BallWall wall => Ok (handleBallWallCollision wall state oldState)
  | BallPaddle => Ok (handleBallPaddleCollision state oldState)
  | PowerupPaddle powerup => Ok (handlePowerupPaddleCollision powerup state)
  end.

Fixpoint handleCollisions (collisions : Collisions) (state oldState : State.t)
  : result State.t :=
  match collisions with
  | [] => Ok state
  | collision :: collisions =>
      bind (handleCollision collision state oldState)
           (fun state => handleCollisions collisions state oldState)
  end.

(** ** main.js: one turn of the frame loop *)

(** [updateState], [detectCollisions], [handleCollisions]: the state that
    becomes the old state of the next frame (or the exception that ends the
    loop) and the input collector. *)
Definition frame (oldState : State.t) (inputs : Inputs)
  : result State.t * Inputs :=
  let '(state, inputs) := updateState oldState inputs in
  let collisions := detectCollisions state oldState in
  (handleCollisions collisions state oldState, inputs).

(** The loop of [main], as far as the state goes, for the frames for which
    [collected] gives the keys: its elements are, frame by frame, what the
    input collector holds when the frame begins (key events change it
    between two frames).  An exception in a frame ends the loop. *)
Fixpoint frames (collected : list Inputs) (oldState : State.t)
  : result State.t :=
  match collected with
  | [] => Ok oldState
  | inputs :: collected =>
      bind (frame oldState inputs).1 (fun state => frames collected state)
  end.

(** [main]: the state of [createState] is the old state of the first
    frame. *)
Definition main (canvas : Canvas.t) (random : nat -> R)
    (collected : list Inputs) : result State.t :=
  frames collected (createState canvas random).

(** * Definitions for the statements *)

(** ** Parts of the transition and of the resolution *)

(** The steps of [updateState] after the pause toggle. *)
Definition running_steps (state oldState : State.t) (inputs : Inputs)
  : State.t :=
  updateBall
    (updatePaddle (updatePowerups (updateServingPaddle state oldState inputs))
       oldState inputs)
    oldState.

(** One step of the ball at its speed and angle. *)
Definition step (ball : Ball.t) : Ball.t :=
  Ball.with_pos ball
    (Pos.mk (Pos.x (Ball.pos ball) + Ball.speed ball * cos (Ball.angle ball))
            (Pos.y (Ball.pos ball) + Ball.speed ball * sin (Ball.angle ball))).

(** What the powerup tick leaves alone. *)
Record same_but_powerups (s s' : State.t) : Prop := {
  sbp_isPaused : State.isPaused s' = State.isPaused s;
  sbp_isServing : State.isServing s' = State.isServing s;
  sbp_boundaries : State.boundaries s' = State.boundaries s;
  sbp_ball : State.ball s' = State.ball s;
  sbp_bricks : State.bricks s' = State.bricks s;
  sbp_score : State.score s' = State.score s;
  sbp_pos : Paddle.pos (State.paddle s') = Paddle.pos (State.paddle s);
  sbp_width : Paddle.width (State.paddle s') = Paddle.width (State.paddle s)
}.

(** What one visit of the loop of [updatePowerups] does to a powerup that
    stays in the array: a falling one drops, a dormant one counts down. *)
Definition tick (powerup : Powerup.t) : Powerup.t :=
  match Powerup.pos powerup with
  | Some pos =>
      Powerup.with_pos powerup
        (Some (Pos.with_y pos (Pos.y pos + POWERUP_DROP_SPEED)))
  | None => Powerup.with_timer powerup (Powerup.timer powerup - 1)
  end.

(** A powerup that the visit of this frame does not remove... *)
Definition kept (powerup : Powerup.t) : Prop :=
  Powerup.pos powerup <> None \/ Powerup.timer powerup - 1 > 0.

(** ... and one that it removes. *)
Definition expires (powerup : Powerup.t) : Prop :=
  Powerup.pos powerup = None /\ Powerup.timer powerup - 1 <= 0.

(** The objects of a powerup array. *)
Definition refs (l : list Powerup.t) : list nat := Powerup.ref <$> l.

(** The powerup objects that the bricks hold. *)
Definition brick_refs (bricks : list Brick.t) : list nat :=
  brick ← bricks;
  match Brick.powerup brick with
  | Some powerup => [Powerup.ref powerup]
  | None => []
  end.

(** No object is in the powerup array twice or in the array and in a brick,
    and no two bricks hold the same object: [randomPowerup] makes a new
    object for each brick and a brick hands its object over once. *)
Definition distinct_objects (state : State.t) : Prop :=
  NoDup (refs (State.powerups state) ++ brick_refs (State.bricks state)).

(** A powerup after [handlePowerupPaddleCollision]. *)
Definition captured (q : Powerup.t) : Powerup.t :=
  Powerup.with_active (Powerup.with_pos q None) true.

(** The effect of one collision record on one powerup object... *)
Definition resolve_one (c : Collision) (q : Powerup.t) : Powerup.t :=
  match c with
  | PowerupPaddle powerup =>
      if bool_decide (Powerup.ref q = Powerup.ref powerup) then captured q
      else q
  | _ => q
  end.

(** ... and of the records of a frame, in order. *)
Definition resolve (cs : Collisions) (q : Powerup.t) : Powerup.t :=
  foldl (fun q c => resolve_one c q) q cs.

(** ** The bricks of the initial state *)

(** The brick that [createState] pushes [k]-th: the rows are filled one
    after the other, [BRICK_COLS] bricks each. *)
Definition brick_at (random : nat -> R) (k : nat) : Brick.t :=
  Brick.mk
    (Pos.mk (40 + INR (k mod BRICK_COLS) * (BRICK_WIDTH + 10))
            (40 + INR (k / BRICK_COLS) * (BRICK_HEIGHT + 10)))
    (randomPowerup k (random k)).

(** ** The records of a collision set *)

(** The index of a ["ball.brick"] record... *)
Definition brick_index (c : Collision) : option nat :=
  match c with
  | BallBrick index _ => Some index
  | _ => None
  end.

(** ... and the indices of the brick records of a collision set, in the
    order of the set. *)
Definition brick_indices (cs : Collisions) : list nat := omap brick_index cs.

(** The objects that the ["powerup.paddle"] records of a collision set refer
    to. *)
Definition pending (cs : Collisions) : list nat :=
  omap (fun c => match c with
                 | PowerupPaddle powerup => Some (Powerup.ref powerup)
                 | _ => None
                 end) cs.

(** ** The powerups of the array *)

(** [n] runs of [updatePowerups], one for each frame of a running game... *)
Definition ticks (n : nat) (state : State.t) : State.t :=
  Nat.iter n updatePowerups state.

(** ... and what they do to a powerup that stays. *)
Definition countdown (n : nat) (p : Powerup.t) : Powerup.t :=
  Nat.iter n tick p.

(** A powerup that has been caught has no position. *)
Definition dormant (powerup : Powerup.t) : bool :=
  match Powerup.pos powerup with
  | None => true
  | Some _ => false
  end.

(** The powerups of the array that have been caught and have not expired. *)
Definition count_dormant (l : list Powerup.t) : nat :=
  length (List.filter dormant l).

(** The desired width is the initial width and 10 for each caught powerup
    of the array. *)
Definition width_accounted (state : State.t) : Prop :=
  Paddle.desiredWidth (State.paddle state)
  = PADDLE_WIDTH + 10 * INR (count_dormant (State.powerups state)).

(** A powerup of the array: its timer has not run out; it is active when it
    has been caught, and its timer has not started while it falls. *)
Definition well_formed (powerup : Powerup.t) : Prop :=
  0 < Powerup.timer powerup <= 30 * 60 /\
  match Powerup.pos powerup with
  | None => Powerup.active powerup = true
  | Some _ =>
      Powerup.active powerup = false /\ Powerup.timer powerup = 30 * 60
  end.

(** A powerup that is still in its brick. *)
Definition unreleased (brick : Brick.t) : Prop :=
  match Brick.powerup brick with
  | Some powerup =>
      Powerup.active powerup = false /\ Powerup.timer powerup = 30 * 60
  | None => True
  end.

(** ** The side cascade in the words of the specification *)

(** "Bottom if the old ball's bottom edge was at or above the brick's bottom
    edge; else top if the old ball's top edge was at or below the brick's top
    edge; else right if the old ball's left edge was at or beyond the brick's
    right edge; else left."  [y] grows downwards: the bottom edge of the
    ball is [y + BALL_RADIUS], and above is smaller. *)
Definition side_as_specified (oldBall : Ball.t) (brick : Brick.t) : Wall :=
  let brickTop := Pos.y (Brick.pos brick) - BRICK_HEIGHT / 2 in
  let brickBottom := Pos.y (Brick.pos brick) + BRICK_HEIGHT / 2 in
  let brickRight := Pos.x (Brick.pos brick) + BRICK_WIDTH / 2 in
  if bool_decide (Pos.y (Ball.pos oldBall) + BALL_RADIUS <= brickBottom)
  then Bottom
  else if bool_decide (Pos.y (Ball.pos oldBall) - BALL_RADIUS >= brickTop)
  then Top
  else if bool_decide (Pos.x (Ball.pos oldBall) - BALL_RADIUS >= brickRight)
  then Right
  else Left.

(** ** Concrete states *)

(** The initial state of a 500 by 400 canvas, with samples of
    [Math.random()] that give no brick a powerup. *)
Definition canvas : Canvas.t := Canvas.mk 500 400.

Definition no_powerup : nat -> R := fun _ => 1.

Definition initial : State.t := createState canvas no_powerup.

(** The initial state after its first transition, no key held: the ball is
    on the paddle. *)
Definition served : State.t :=
  State.with_ball initial (Ball.mk (Pos.mk 250 364) 0 0).

(** A running game in the same arena, the ball in flight. *)
Definition flying (ball : Ball.t) (paddle : Paddle.t)
    (bricks : list Brick.t) (powerups : list Powerup.t) : State.t :=
  {| State.isPaused := false;
     State.isServing := false;
     State.boundaries := Boundaries.mk 0 500 0 400;
     State.ball := ball;
     State.paddle := paddle;
     State.bricks := bricks;
     State.score := (0, 0);
     State.powerups := powerups |}.

(** The paddle where [createState] puts it. *)
Definition centred : Paddle.t := Paddle.mk (Pos.mk 250 380) 80 80.

(** The ball falls straight down past the side of the paddle, 10 above the
    bottom boundary... *)
Definition falling : State.t :=
  flying (Ball.mk (Pos.mk 100 390) 5 (PI / 2)) centred [] [].

Definition falling_moved : State.t :=
  flying (Ball.mk (Pos.mk 100 395) 5 (PI / 2)) centred [] [].

(** ... and three frames later, below it. *)
Definition fallen : State.t :=
  flying (Ball.mk (Pos.mk 100 405) 5 (PI / 2)) centred [] [].

Definition fallen_moved : State.t :=
  flying (Ball.mk (Pos.mk 100 410) 5 (PI / 2)) centred [] [].

(** The paddle has caught a powerup at the left wall: it is 80 wide, on its
    way to 90. *)
Definition widening : State.t :=
  flying (Ball.mk (Pos.mk 250 200) 5 (PI / 2))
    (Paddle.mk (Pos.mk 40 380) 80 90) []
    [Powerup.mk 0 expander true None 1800].

(** A brick spanning [x] from 75 to 125 and [y] from 80 to 105... *)
Definition brick : Brick.t := Brick.mk (Pos.mk 100 92.5) None.

(** ... a ball that rises straight up towards it from below... *)
Definition rising : State.t :=
  flying (Ball.mk (Pos.mk 100 114) 5 (- (PI / 2))) centred [brick] [].

Definition rising_moved : State.t :=
  flying (Ball.mk (Pos.mk 100 109) 5 (- (PI / 2))) centred [brick] [].

(** ... and the example scenario of the specification: the ball at
    (100, 100) rises straight up at speed 5; it overlaps the brick
    already. *)
Definition scenario : State.t :=
  flying (Ball.mk (Pos.mk 100 100) 5 (- (PI / 2))) centred [brick] [].

Definition scenario_moved : State.t :=
  flying (Ball.mk (Pos.mk 100 95) 5 (- (PI / 2))) centred [brick] [].

(** Three neighbours of a brick row as [createState] lays it out (centres 60
    apart, 50 wide, so with gaps of 10), and a ball that rises straight up
    into the gap between the first two, 39 frames after a launch from
    [x = 70]. *)
Definition brick0 : Brick.t := Brick.mk (Pos.mk 40 145) None.
Definition brick1 : Brick.t := Brick.mk (Pos.mk 100 145) None.
Definition brick2 : Brick.t := Brick.mk (Pos.mk 160 145) None.

Definition between : State.t :=
  flying (Ball.mk (Pos.mk 70 169) 5 (- (PI / 2)))
    (Paddle.mk (Pos.mk 70 380) 80 80) [brick0; brick1; brick2] [].

Definition between_moved : State.t :=
  flying (Ball.mk (Pos.mk 70 164) 5 (- (PI / 2)))
    (Paddle.mk (Pos.mk 70 380) 80 80) [brick0; brick1; brick2] [].

(** The ball falls straight down beside the paddle's left edge (at 210),
    level with the paddle... *)
Definition beside : State.t :=
  flying (Ball.mk (Pos.mk 209 380) 5 (PI / 2)) centred [] [].

(** ... the paddle moves left, over it: the tilt of the bounce, from a paddle
    centred at [x]... *)
Definition tilt_from (x : R) : R := PI * ((209 - x) / (80 + 20)).

(** ... the state at the end of that frame, in which the ball is still
    inside the paddle's box and goes up and to the left... *)
Definition caught : State.t :=
  flying (Ball.mk (Pos.mk 209 (380 + 5 * sin (- PI / 2 + tilt_from 250)))
            5 (- PI / 2 + tilt_from 250))
    (Paddle.mk (Pos.mk 248 380) 80 80) [] [].

(** ... and the state at the end of the next frame, on which the pause key
    is pressed: the game is paused, the ball is inside the paddle's box
    and goes down and to the left. *)
Definition caught_paused : State.t :=
  State.with_isPaused
    (flying (Ball.mk (Pos.mk 209
                        (380 + 5 * sin (- PI / 2 + tilt_from 250)
                         + 5 * sin (PI / 2 - tilt_from 248)))
               5 (PI / 2 - tilt_from 248))
       (Paddle.mk (Pos.mk 248 380) 80 80) [] [])
    true.

(** Two captured powerups whose timers are both 1, at indices 0 and 1, and
    the states after one and after two frames. *)
Definition expiring : State.t :=
  flying (Ball.mk (Pos.mk 250 200) 5 (PI / 2))
    (Paddle.mk (Pos.mk 250 380) 100 100) []
    [ Powerup.mk 0 expander true None 1;
      Powerup.mk 1 expander true None 1 ].

Definition expiring_next : State.t :=
  flying (Ball.mk (Pos.mk 250 205) 5 (PI / 2))
    (Paddle.mk (Pos.mk 250 380) 99 90) []
    [Powerup.mk 1 expander true None 1].

Definition expiring_last : State.t :=
  flying (Ball.mk (Pos.mk 250 210) 5 (PI / 2))
    (Paddle.mk (Pos.mk 250 380) 98 80) [] [].

(** Three captured powerups: the first has two frames left, the two behind
    it one frame each; and the states after one, two and three frames. *)
Definition delayed : State.t :=
  flying (Ball.mk (Pos.mk 250 200) 5 (PI / 2))
    (Paddle.mk (Pos.mk 250 380) 110 110) []
    [ Powerup.mk 0 expander true None 2;
      Powerup.mk 1 expander true None 1;
      Powerup.mk 2 expander true None 1 ].

Definition delayed_1 : State.t :=
  flying (Ball.mk (Pos.mk 250 205) 5 (PI / 2))
    (Paddle.mk (Pos.mk 250 380) 109 100) []
    [ Powerup.mk 0 expander true None 1;
      Powerup.mk 2 expander true None 1 ].

Definition delayed_2 : State.t :=
  flying (Ball.mk (Pos.mk 250 210) 5 (PI / 2))
    (Paddle.mk (Pos.mk 250 380) 108 90) []
    [Powerup.mk 2 expander true None 1].

Definition delayed_3 : State.t :=
  flying (Ball.mk (Pos.mk 250 215) 5 (PI / 2))
    (Paddle.mk (Pos.mk 250 380) 107 80) [] [].

(** The initial state when every brick holds a powerup... *)
Definition all_powerups : nat -> R := fun _ => 0.

Definition loaded : State.t := createState canvas all_powerups.

(** ... the state after the transition of its first frame, the space bar
    held: the ball has left its initial place among the bricks of the top
    row... *)
Definition loaded_moved : State.t :=
  State.with_ball (State.with_isServing loaded false)
    (Ball.mk (Pos.mk (500 / 2 + 3 * cos (PI / 3))
                     (PADDLE_OFFSET_Y + PADDLE_HEIGHT / 2 + 3 * sin (PI / 3)))
       3 (PI / 3)).

(** ... and the state at the end of that frame: the ball overlapped the
    bricks 3 and 4 of the top row; the bricks 3 and 5 are gone and their
    powerups fall. *)
Definition opened : State.t :=
  {| State.isPaused := false;
     State.isServing := false;
     State.boundaries := Boundaries.mk 0 500 0 400;
     State.ball :=
       Ball.mk (Pos.mk (500 / 2 + 3 * cos (PI - PI / 3))
                  (PADDLE_OFFSET_Y + PADDLE_HEIGHT / 2 + 3 * sin (PI / 3)))
         3 (PI - PI / 3);
     State.paddle := Paddle.mk (Pos.mk (500 / 2) (400 - PADDLE_OFFSET_Y))
                       PADDLE_WIDTH PADDLE_WIDTH;
     State.bricks := delete 4%nat (delete 3%nat (State.bricks loaded));
     State.score := (0, 0);
     State.powerups :=
       [ Powerup.mk 3 expander false
           (Some (Brick.pos (brick_at all_powerups 3))) (30 * 60);
         Powerup.mk 5 expander false
           (Some (Brick.pos (brick_at all_powerups 5))) (30 * 60) ] |}.

(** A powerup falls, far from the paddle, and the state after one frame. *)
Definition dropping : State.t :=
  flying (Ball.mk (Pos.mk 250 200) 5 (PI / 2)) centred []
    [Powerup.mk 0 expander false (Some (Pos.mk 100 100)) (30 * 60)].

Definition dropping_next : State.t :=
  flying (Ball.mk (Pos.mk 250 205) 5 (PI / 2)) centred []
    [Powerup.mk 0 expander false (Some (Pos.mk 100 102)) (30 * 60)].

(** The ball flies to the left, 10 from the left wall. *)
Definition leftward : State.t :=
  flying (Ball.mk (Pos.mk 10 200) 5 PI) centred [] [].

Definition leftward_moved : State.t :=
  flying (step (Ball.mk (Pos.mk 10 200) 5 PI)) centred [] [].

(** The end of the frame of [between]: both reflections are done. *)
Definition between_through : State.t :=
  flying (Ball.mk (Pos.mk 70 (169 + 5 * sin (- - - (PI / 2)))) 5
            (- - - (PI / 2)))
    (Paddle.mk (Pos.mk 70 380) 80 80) [brick1] [].

(** * Tactics for running the model *)

#[local] Arguments IZR _ : simpl never.
#[local] Arguments INR _ : simpl never.

(** Settles every comparison of the goal whose operands are closed. *)
Ltac rcompare :=
  repeat match goal with
  | |- context [bool_decide ?P] =>
      first
        [ rewrite (bool_decide_eq_true_2 P) by (simpl; first [lra | lia])
        | rewrite (bool_decide_eq_false_2 P) by (simpl; first [lra | lia]) ]
  end.

(** Membership of a key in a closed input set, computed. *)
Ltac keys :=
  repeat match goal with
  | |- context [has ?s ?k] =>
      let b := eval vm_compute in (has s k) in
      change (has s k) with b
  end.

(** Runs the model on closed data: inlines the local definitions, computes
    the key tests, projects the records and settles the comparisons. *)
Ltac evaluate := repeat (progress (cbv zeta; keys; cbn; rcompare)).

(** Settles the equation of two states of a ball that moves straight up or
    down. *)
Ltac straight :=
  unfold flying, step, Ball.with_pos; simpl;
  rewrite ?cos_neg, ?sin_neg, ?cos_PI2, ?sin_PI2;
  repeat f_equal; lra.

(** * Properties *)

(** ** Detection: which detector reports what *)

Lemma detectBallBrick_at_elem ball oldBall index brick c :
  c ∈ detectBallBrick_at ball oldBall index brick ->
  exists side, c = BallBrick index side.
Proof.
  unfold detectBallBrick_at.
  destruct (_ && _); [|by intros ?%elem_of_nil].
  intros ->%list_elem_of_singleton. eauto.
Qed.

Lemma detectBallBrick_loop_elem ball oldBall bricks index c :
  c ∈ detectBallBrick_loop ball oldBall index bricks <->
  exists k brick,
    bricks !! k = Some brick /\
    c ∈ detectBallBrick_at ball oldBall (index + k) brick.
Proof.
  revert index. induction bricks as [|b bricks IH]; intros index; simpl.
  - split; [by intros ?%elem_of_nil | by intros (k & brick & ? & _)].
  - rewrite elem_of_app, IH. split.
    + intros [H | (k & brick & Hk & H)].
      * exists 0%nat, b. by rewrite Nat.add_0_r.
      * exists (S k), brick. by rewrite Nat.add_succ_r.
    + intros ([|k] & brick & Hk & H); simpl in Hk.
      * left. injection Hk as ->. by rewrite Nat.add_0_r in H.
      * right. exists k, brick. by rewrite Nat.add_succ_r in H.
Qed.

Lemma detectBallBrickCollision_wall state oldState wall :
  BallWall wall ∉ detectBallBrickCollision state oldState.
Proof.
  unfold detectBallBrickCollision.
  intros (k & brick & _ & H)%detectBallBrick_loop_elem.
  by apply detectBallBrick_at_elem in H as [side ?].
Qed.

Lemma detectBallPaddleCollision_elem state oldState c :
  c ∈ detectBallPaddleCollision state oldState -> c = BallPaddle.
Proof.
  unfold detectBallPaddleCollision.
  destruct (_ && _); [|by intros ?%elem_of_nil].
  by intros ->%list_elem_of_singleton.
Qed.

Lemma detectPowerupPaddleCollision_elem state oldState c :
  c ∈ detectPowerupPaddleCollision state oldState ->
  exists powerup, powerup ∈ State.powerups state /\ c = PowerupPaddle powerup.
Proof.
  unfold detectPowerupPaddleCollision.
  intros (p & Hc & Hp)%list_elem_of_bind. exists p. split; [done|].
  unfold detectPowerupPaddle_at in Hc.
  destruct (Powerup.pos p); [|by apply elem_of_nil in Hc].
  destruct (_ && _); [|by apply elem_of_nil in Hc].
  by apply list_elem_of_singleton in Hc.
Qed.

Lemma detectCollisions_unfold state oldState :
  detectCollisions state oldState =
  detectBallWallCollision state oldState ++
  detectBallBrickCollision state oldState ++
  detectBallPaddleCollision state oldState ++
  detectPowerupPaddleCollision state oldState.
Proof.
  unfold detectCollisions, COLLISION_DETECTORS. simpl.
  by rewrite app_nil_r.
Qed.

(** A wall record of the collision set comes from the wall detector. *)
Lemma detectCollisions_wall state oldState wall :
  BallWall wall ∈ detectCollisions state oldState <->
  BallWall wall ∈ detectBallWallCollision state oldState.
Proof.
  rewrite detectCollisions_unfold, !elem_of_app. split; [|tauto].
  intros [H | [H | [H | H]]]; [done | | |].
  - by apply detectBallBrickCollision_wall in H.
  - by apply detectBallPaddleCollision_elem in H.
  - by apply detectPowerupPaddleCollision_elem in H as (p & _ & ?).
Qed.

(** The four tests of the wall detector, one by one. *)
Lemma detectBallWallCollision_elem state oldState wall :
  BallWall wall ∈ detectBallWallCollision state oldState <->
  let ball := State.ball state in
  let boundaries := State.boundaries state in
  match wall with
  | Left => Pos.x (Ball.pos ball) - BALL_RADIUS < Boundaries.xMin boundaries
  | Right => Pos.x (Ball.pos ball) + BALL_RADIUS > Boundaries.xMax boundaries
  | Top => Pos.y (Ball.pos ball) + BALL_RADIUS < Boundaries.yMin boundaries
  | Bottom => Pos.y (Ball.pos ball) - BALL_RADIUS > Boundaries.yMax boundaries
  end.
Proof.
  unfold detectBallWallCollision. cbv zeta.
  rewrite !elem_of_app.
  repeat case_bool_decide;
    rewrite ?list_elem_of_singleton, ?elem_of_nil;
    destruct wall; split; intros; try tauto; try congruence;
    repeat match goal with H : _ \/ _ |- _ => destruct H end;
    try congruence; try tauto.
Qed.

(** ** The ball in free flight *)

(** The transition of a running game with no key held, no powerup and a
    paddle of the desired width: the ball makes its step. *)
Lemma updateState_flying ball paddle bricks :
  Ball.speed ball <> 0 ->
  Paddle.width paddle = Paddle.desiredWidth paddle ->
  updateState (flying ball paddle bricks []) ∅
  = (flying (step ball) paddle bricks [], ∅).
Proof.
  intros Hspeed Hwidth.
  unfold updateState, updatePause, updateServingPaddle. keys. cbn.
  unfold updatePaddle. cbv zeta. keys. cbn.
  rewrite !bool_decide_eq_false_2 by lra.
  unfold updateBall. cbn. by rewrite bool_decide_eq_false_2.
Qed.

Lemma updateState_falling : updateState falling ∅ = (falling_moved, ∅).
Proof.
  unfold falling, falling_moved.
  rewrite updateState_flying by (simpl; lra). straight.
Qed.

(** ** C1: wall events *)

(** C1, as amended.  The collision set holds a left-wall record exactly when
    the ball's left edge is beyond the left boundary
    ([x - BALL_RADIUS < xMin]), a right-wall record exactly when its right
    edge is beyond the right boundary ([x + BALL_RADIUS > xMax]), and a
    bottom-wall record exactly when the whole ball has passed the bottom
    boundary, that is when its top edge is below it
    ([y - BALL_RADIUS > yMax]); the three tests are independent. *)
Theorem wall_events_reported (state oldState : State.t) :
  let ball := State.ball state in
  let boundaries := State.boundaries state in
  (BallWall Left ∈ detectCollisions state oldState <->
   Pos.x (Ball.pos ball) - BALL_RADIUS < Boundaries.xMin boundaries) /\
  (BallWall Right ∈ detectCollisions state oldState <->
   Pos.x (Ball.pos ball) + BALL_RADIUS > Boundaries.xMax boundaries) /\
  (BallWall Bottom ∈ detectCollisions state oldState <->
   Pos.y (Ball.pos ball) - BALL_RADIUS > Boundaries.yMax boundaries).
Proof.
  cbv zeta. rewrite !detectCollisions_wall.
  repeat split; intros H;
    first [ by apply detectBallWallCollision_elem in H
          | by apply detectBallWallCollision_elem ].
Qed.

(** C1 fails as stated: after the transition of [falling] the ball's bottom
    edge is at 402.5, below the bottom boundary 400, and no bottom-wall
    record is reported, because the ball's top edge (387.5) is still above
    the boundary. *)
Lemma bottom_edge_crossing_not_reported :
  let state := (updateState falling ∅).1 in
  Pos.y (Ball.pos (State.ball state)) + BALL_RADIUS
    > Boundaries.yMax (State.boundaries state) /\
  BallWall Bottom ∉ detectCollisions state falling.
Proof.
  cbv zeta. rewrite updateState_falling. split.
  - unfold BALL_RADIUS. cbn. lra.
  - rewrite detectCollisions_wall, detectBallWallCollision_elem.
    unfold BALL_RADIUS. cbn. lra.
Qed.

(** ** The transition, step by step *)

Lemma updateState_paused oldState inputs :
  State.isPaused (updatePause oldState inputs).1 = true ->
  updateState oldState inputs = updatePause oldState inputs.
Proof.
  unfold updateState. destruct (updatePause oldState inputs) as [s i].
  simpl. by intros ->.
Qed.

Lemma updateState_running oldState inputs :
  State.isPaused (updatePause oldState inputs).1 = false ->
  updateState oldState inputs =
  let '(state, inputs) := updatePause oldState inputs in
  (updateBall
     (updatePaddle
        (updatePowerups (updateServingPaddle state oldState inputs))
        oldState inputs)
     oldState,
   inputs).
Proof.
  unfold updateState. destruct (updatePause oldState inputs) as [s i].
  simpl. by intros ->.
Qed.

Lemma same_but_powerups_refl s : same_but_powerups s s.
Proof. by split. Qed.

Lemma same_but_powerups_trans s1 s2 s3 :
  same_but_powerups s1 s2 -> same_but_powerups s2 s3 ->
  same_but_powerups s1 s3.
Proof. intros [] []. split; congruence. Qed.

Lemma updatePowerups_from_same fuel i s :
  same_but_powerups s (updatePowerups_from fuel i s).
Proof.
  revert i s. induction fuel as [|fuel IH]; intros i s; simpl.
  { apply same_but_powerups_refl. }
  destruct (State.powerups s !! i) as [p|]; [|apply same_but_powerups_refl].
  destruct (Powerup.pos p).
  - eapply same_but_powerups_trans; [|apply IH]. by split.
  - case_bool_decide.
    + eapply same_but_powerups_trans; [|apply IH].
      destruct (Powerup.type _). by split.
    + eapply same_but_powerups_trans; [|apply IH]. by split.
Qed.

Lemma updatePowerups_same s : same_but_powerups s (updatePowerups s).
Proof. apply updatePowerups_from_same. Qed.

Lemma updateBall_isServing state oldState :
  State.isServing (updateBall state oldState) = State.isServing state.
Proof.
  unfold updateBall. destruct (State.isServing state) eqn:E; [done|].
  by case_bool_decide.
Qed.

Lemma updateBall_isPaused state oldState :
  State.isPaused (updateBall state oldState) = State.isPaused state.
Proof.
  unfold updateBall. destruct (State.isServing state); [done|].
  by case_bool_decide.
Qed.

Lemma updateBall_paddle state oldState :
  State.paddle (updateBall state oldState) = State.paddle state.
Proof.
  unfold updateBall. destruct (State.isServing state); [done|].
  by case_bool_decide.
Qed.

Lemma updateBall_boundaries state oldState :
  State.boundaries (updateBall state oldState) = State.boundaries state.
Proof.
  unfold updateBall. destruct (State.isServing state); [done|].
  by case_bool_decide.
Qed.

Lemma updatePaddle_isServing state oldState inputs :
  State.isServing (updatePaddle state oldState inputs)
  = State.isServing state.
Proof.
  unfold updatePaddle. cbv zeta.
  repeat case_bool_decide; by repeat destruct (has _ _).
Qed.

Lemma updatePaddle_isPaused state oldState inputs :
  State.isPaused (updatePaddle state oldState inputs) = State.isPaused state.
Proof.
  unfold updatePaddle. cbv zeta.
  repeat case_bool_decide; by repeat destruct (has _ _).
Qed.

Lemma updatePaddle_boundaries state oldState inputs :
  State.boundaries (updatePaddle state oldState inputs)
  = State.boundaries state.
Proof.
  unfold updatePaddle. cbv zeta.
  repeat case_bool_decide; by repeat destruct (has _ _).
Qed.

Lemma updatePaddle_ball state oldState inputs :
  State.ball (updatePaddle state oldState inputs) = State.ball state.
Proof.
  unfold updatePaddle. cbv zeta.
  repeat case_bool_decide; by repeat destruct (has _ _).
Qed.

(** The paddle's [x] after [updatePaddle]: the right key wins over the left
    one, and both read the old paddle. *)
Lemma updatePaddle_x state oldState inputs :
  Pos.x (Paddle.pos (State.paddle (updatePaddle state oldState inputs))) =
  let paddle := State.paddle oldState in
  let boundaries := State.boundaries oldState in
  if has inputs "ArrowRight" then
    Rmin (Boundaries.xMax boundaries - Paddle.width paddle / 2)
         (Pos.x (Paddle.pos paddle) + PADDLE_SPEED)
  else if has inputs "ArrowLeft" then
    Rmax (Boundaries.xMin boundaries + Paddle.width paddle / 2)
         (Pos.x (Paddle.pos paddle) - PADDLE_SPEED)
  else Pos.x (Paddle.pos (State.paddle state)).
Proof.
  unfold updatePaddle. cbv zeta.
  repeat case_bool_decide; by repeat destruct (has _ _).
Qed.

(** The paddle's width after [updatePaddle]: one unit towards the desired
    width. *)
Lemma updatePaddle_width state oldState inputs :
  Paddle.width (State.paddle (updatePaddle state oldState inputs)) =
  let width := Paddle.width (State.paddle state) in
  let desiredWidth := Paddle.desiredWidth (State.paddle state) in
  if bool_decide (width < desiredWidth) then Rmin desiredWidth (width + 1)
  else if bool_decide (width > desiredWidth) then Rmax desiredWidth (width - 1)
  else width.
Proof.
  unfold updatePaddle. cbv zeta.
  repeat destruct (has _ _); simpl; by repeat case_bool_decide.
Qed.

Lemma updatePause_fields oldState inputs :
  let state := (updatePause oldState inputs).1 in
  State.isServing state = State.isServing oldState /\
  State.boundaries state = State.boundaries oldState /\
  State.ball state = State.ball oldState /\
  State.paddle state = State.paddle oldState /\
  State.bricks state = State.bricks oldState /\
  State.powerups state = State.powerups oldState.
Proof. unfold updatePause. by destruct (has _ _). Qed.

Lemma updateServingPaddle_fields state oldState inputs :
  let state' := updateServingPaddle state oldState inputs in
  State.isPaused state' = State.isPaused state /\
  State.boundaries state' = State.boundaries state /\
  State.ball state' = State.ball state /\
  State.paddle state' = State.paddle state /\
  State.bricks state' = State.bricks state /\
  State.powerups state' = State.powerups state.
Proof. unfold updateServingPaddle. by destruct (_ && _). Qed.

(** ** The initial state of a 500 by 400 canvas *)

Lemma updateState_initial : updateState initial ∅ = (served, ∅).
Proof.
  rewrite updateState_running by done.
  unfold updatePause. keys. cbv iota beta.
  unfold updateServingPaddle. keys. rewrite andb_false_r.
  change (updatePowerups initial) with initial.
  unfold updatePaddle. cbv zeta. keys.
  rewrite !bool_decide_eq_false_2 by (simpl; lra).
  unfold updateBall, served, State.with_ball. simpl.
  unfold PADDLE_HEIGHT, BALL_RADIUS, PADDLE_OFFSET_Y.
  repeat f_equal; lra.
Qed.

(** ** C2: the ball while serving *)

(** C2, as amended.  In the state that a transition returns, when the game is
    not paused and [isServing] is true, the ball's speed is exactly 0 and the
    ball's position is exactly the paddle's centre offset by
    [(0, -(PADDLE_HEIGHT / 2 + BALL_RADIUS + 1))], the paddle being the one
    of that state. *)
Theorem serving_ball_after_transition (oldState : State.t)
    (inputs : Inputs) :
  let state := (updateState oldState inputs).1 in
  State.isPaused state = false ->
  State.isServing state = true ->
  Ball.speed (State.ball state) = 0 /\
  Ball.pos (State.ball state) =
    Pos.mk (Pos.x (Paddle.pos (State.paddle state)))
           (Pos.y (Paddle.pos (State.paddle state))
            - (PADDLE_HEIGHT / 2 + BALL_RADIUS + 1)).
Proof.
  cbv zeta.
  destruct (State.isPaused (updatePause oldState inputs).1) eqn:Hp.
  { rewrite updateState_paused by done. congruence. }
  rewrite updateState_running by done.
  destruct (updatePause oldState inputs) as [s1 i1]. simpl.
  intros _. rewrite updateBall_isServing, updateBall_paddle.
  intros Hs. unfold updateBall. by rewrite Hs.
Qed.

Lemma serving_ball_after_transition_witness :
  Ball.speed (State.ball (updateState initial ∅).1) = 0.
Proof.
  refine (proj1 (serving_ball_after_transition initial ∅ _ _)).
  - rewrite updateState_initial. reflexivity.
  - rewrite updateState_initial. reflexivity.
Defined.

(** C2 fails as stated: the state made by [createState] is serving and its
    ball has speed 3. *)
Lemma initial_state_serving_with_speed :
  State.isServing initial = true /\ Ball.speed (State.ball initial) <> 0.
Proof. split; [reflexivity|]. simpl. lra. Qed.

(** ** C3: the paddle and the side walls *)

(** The paddle of the state a transition returns. *)
Lemma updateState_paddle_x oldState inputs :
  let state := (updateState oldState inputs).1 in
  let paddle := State.paddle oldState in
  let boundaries := State.boundaries oldState in
  Pos.x (Paddle.pos (State.paddle state)) =
  if State.isPaused (updatePause oldState inputs).1 then
    Pos.x (Paddle.pos paddle)
  else if has (updatePause oldState inputs).2 "ArrowRight" then
    Rmin (Boundaries.xMax boundaries - Paddle.width paddle / 2)
         (Pos.x (Paddle.pos paddle) + PADDLE_SPEED)
  else if has (updatePause oldState inputs).2 "ArrowLeft" then
    Rmax (Boundaries.xMin boundaries + Paddle.width paddle / 2)
         (Pos.x (Paddle.pos paddle) - PADDLE_SPEED)
  else Pos.x (Paddle.pos paddle).
Proof.
  cbv zeta.
  pose proof (updatePause_fields oldState inputs) as (_ & _ & _ & Hpad & _).
  destruct (State.isPaused (updatePause oldState inputs).1) eqn:Hp.
  { rewrite updateState_paused by done. by rewrite Hpad. }
  rewrite updateState_running by done.
  destruct (updatePause oldState inputs) as [s1 i1]. simpl in *.
  rewrite updateBall_paddle, updatePaddle_x. cbv zeta.
  repeat destruct (has i1 _); try done.
  rewrite (sbp_pos _ _ (updatePowerups_same _)).
  pose proof (updateServingPaddle_fields s1 oldState i1)
    as (_ & _ & _ & -> & _).
  by rewrite Hpad.
Qed.





(** ** C7: the launch frame *)

(** C7, as amended.  On a frame in which [isServing] goes from true to false,
    if the ball of the old state is at rest (speed 0, as the serving branch
    of a transition leaves it), then the ball after the transition has the
    launch speed [BALL_SPEED], the launch angle [-PI/2], and the position
    one step of that speed and angle away from the old one, the old position
    plus [BALL_SPEED * (cos (-PI/2), sin (-PI/2))]: the same [x], and [y]
    smaller by [BALL_SPEED]. *)
Theorem launch_frame (oldState : State.t) (inputs : Inputs) :
  let state := (updateState oldState inputs).1 in
  let oldBall := State.ball oldState in
  State.isServing oldState = true ->
  State.isServing state = false ->
  Ball.speed oldBall = 0 ->
  Ball.speed (State.ball state) = BALL_SPEED /\
  Ball.angle (State.ball state) = - PI / 2 /\
  Ball.pos (State.ball state) =
    Pos.mk (Pos.x (Ball.pos oldBall) + BALL_SPEED * cos (- PI / 2))
           (Pos.y (Ball.pos oldBall) + BALL_SPEED * sin (- PI / 2)) /\
  Pos.x (Ball.pos (State.ball state)) = Pos.x (Ball.pos oldBall) /\
  Pos.y (Ball.pos (State.ball state))
  = Pos.y (Ball.pos oldBall) - BALL_SPEED.
Proof.
  cbv zeta. intros Hold Hnew Hspeed.
  pose proof (updatePause_fields oldState inputs) as (Hs & _).
  destruct (State.isPaused (updatePause oldState inputs).1) eqn:Hp.
  { rewrite updateState_paused in Hnew by done. congruence. }
  rewrite updateState_running in * by done.
  destruct (updatePause oldState inputs) as [s1 i1]. simpl in *.
  rewrite updateBall_isServing in Hnew.
  unfold updateBall in *. rewrite Hnew, Hspeed.
  rewrite bool_decide_eq_true_2 by done. simpl.
  replace (- PI / 2) with (- (PI / 2)) by lra.
  rewrite cos_neg, sin_neg, cos_PI2, sin_PI2.
  repeat split; lra.
Qed.

Lemma launch_frame_witness :
  Ball.speed (State.ball (updateState served {[" "]}).1) = BALL_SPEED.
Proof.
  refine (proj1 (launch_frame served {[" "]} _ _ _)).
  - reflexivity.
  - rewrite updateState_running by done.
    unfold updatePause. keys. cbv iota beta. cbn [fst snd].
    rewrite updateBall_isServing, updatePaddle_isServing.
    rewrite (sbp_isServing _ _ (updatePowerups_same _)).
    reflexivity.
  - reflexivity.
Defined.

(** C7 fails as stated: the space bar is held on the first frame; the
    initial state is serving, the state after the transition is not, and its
    ball has the speed 3 and the angle [PI/3] of the initial state. *)
Lemma launch_from_initial_state :
  let state := (updateState initial {[" "]}).1 in
  State.isServing initial = true /\
  State.isServing state = false /\
  Ball.speed (State.ball state) = 3 /\
  Ball.speed (State.ball state) <> BALL_SPEED /\
  Ball.angle (State.ball state) = PI / 3.
Proof.
  cbv zeta. rewrite updateState_running by done.
  unfold updatePause. keys. cbv iota beta. cbn [fst snd].
  unfold updateServingPaddle. keys.
  change (State.isServing initial && true) with true. cbv iota.
  change (updatePowerups (State.with_isServing initial false))
    with (State.with_isServing initial false).
  rewrite updateBall_isServing, updatePaddle_isServing.
  unfold updateBall. rewrite updatePaddle_isServing, updatePaddle_ball.
  simpl. rcompare.
  simpl. rewrite updatePaddle_ball. simpl.
  unfold BALL_SPEED. repeat split; lra.
Qed.

(** ** C4: the side of a brick hit *)

Lemma detectBallWallCollision_wall state oldState c :
  c ∈ detectBallWallCollision state oldState ->
  exists wall, c = BallWall wall.
Proof.
  unfold detectBallWallCollision. rewrite !elem_of_app.
  repeat case_bool_decide;
    rewrite ?list_elem_of_singleton, ?elem_of_nil;
    intros Hc;
    repeat match goal with H : _ \/ _ |- _ => destruct H end;
    subst; eauto; done.
Qed.

Lemma detectCollisions_brick state oldState index side :
  BallBrick index side ∈ detectCollisions state oldState <->
  exists brick,
    State.bricks state !! index = Some brick /\
    BallBrick index side
    ∈ detectBallBrick_at (State.ball state) (State.ball oldState) index brick.
Proof.
  rewrite detectCollisions_unfold, !elem_of_app.
  unfold detectBallBrickCollision. rewrite detectBallBrick_loop_elem.
  split.
  - intros [H | [(k & brick & Hk & H) | [H | H]]].
    + by apply detectBallWallCollision_wall in H as [wall ?].
    + simpl in H. pose proof H as [s Hs]%detectBallBrick_at_elem.
      injection Hs as -> ->. eauto.
    + by apply detectBallPaddleCollision_elem in H.
    + by apply detectPowerupPaddleCollision_elem in H as (p & _ & ?).
  - intros (brick & Hk & H). right. left. by exists index, brick.
Qed.

(** C4, as amended.  The brick at [index] gets a record exactly when its box
    overlaps the box of the new ball, and the side of the record is decided
    by the old ball: bottom if the old ball's top edge was at or below the
    brick's bottom edge; else top if the old ball's bottom edge was at or
    above the brick's top edge; else right if the old ball's left edge was at
    or beyond the brick's right edge; else left. *)
Theorem brick_side_cascade (state oldState : State.t) (index : nat)
    (brick : Brick.t) (side : Wall) :
  let ball := State.ball state in
  let oldBall := State.ball oldState in
  let brickTop := Pos.y (Brick.pos brick) - BRICK_HEIGHT / 2 in
  let brickBottom := Pos.y (Brick.pos brick) + BRICK_HEIGHT / 2 in
  let brickLeft := Pos.x (Brick.pos brick) - BRICK_WIDTH / 2 in
  let brickRight := Pos.x (Brick.pos brick) + BRICK_WIDTH / 2 in
  let oldTop := Pos.y (Ball.pos oldBall) - BALL_RADIUS in
  let oldBottom := Pos.y (Ball.pos oldBall) + BALL_RADIUS in
  let oldLeft := Pos.x (Ball.pos oldBall) - BALL_RADIUS in
  State.bricks state !! index = Some brick ->
  BallBrick index side ∈ detectCollisions state oldState <->
  (Pos.x (Ball.pos ball) + BALL_RADIUS > brickLeft /\
   Pos.x (Ball.pos ball) - BALL_RADIUS < brickRight /\
   Pos.y (Ball.pos ball) + BALL_RADIUS > brickTop /\
   Pos.y (Ball.pos ball) - BALL_RADIUS < brickBottom) /\
  (side = Bottom /\ oldTop >= brickBottom \/
   side = Top /\ ~ oldTop >= brickBottom /\ oldBottom <= brickTop \/
   side = Right /\ ~ oldTop >= brickBottom /\ ~ oldBottom <= brickTop /\
     oldLeft >= brickRight \/
   side = Left /\ ~ oldTop >= brickBottom /\ ~ oldBottom <= brickTop /\
     ~ oldLeft >= brickRight).
Proof.
  cbv zeta. intros Hbrick. rewrite detectCollisions_brick. split.
  - intros (b & Hb & H). assert (b = brick) as -> by congruence.
    unfold detectBallBrick_at in H. cbv zeta in H.
    destruct (_ && _) eqn:Hover; [|by apply elem_of_nil in H].
    rewrite !andb_true_iff, !bool_decide_eq_true in Hover.
    split; [tauto|].
    apply list_elem_of_singleton in H.
    repeat case_bool_decide; injection H as ->; tauto.
  - intros (Hover & Hside). exists brick. split; [done|].
    unfold detectBallBrick_at. cbv zeta.
    destruct Hover as (? & ? & ? & ?).
    rewrite !(bool_decide_eq_true_2 (_ > _)) by done.
    rewrite !(bool_decide_eq_true_2 (_ < _)) by done.
    simpl. apply list_elem_of_singleton.
    destruct Hside
      as [[-> ?] | [(-> & ? & ?) | [(-> & ? & ? & ?) | (-> & ? & ? & ?)]]];
      repeat case_bool_decide; done || tauto.
Qed.

Lemma updateState_rising : updateState rising ∅ = (rising_moved, ∅).
Proof.
  unfold rising, rising_moved.
  rewrite updateState_flying by (simpl; lra). straight.
Qed.

Lemma brick_side_cascade_witness :
  BallBrick 0 Bottom ∈ detectCollisions (updateState rising ∅).1 rising.
Proof.
  rewrite updateState_rising.
  refine (proj2 (brick_side_cascade _ rising 0 brick Bottom _) _).
  - reflexivity.
  - unfold BALL_RADIUS, BRICK_HEIGHT, BRICK_WIDTH. simpl.
    split; [|left]; repeat split; lra.
Defined.

(** C4 fails as stated: the ball of [rising] comes from below the brick (its
    top edge at 106.5, the brick's bottom edge at 105) and overlaps it after
    the transition; the record says bottom, the cascade of the claim says
    top. *)
Lemma specified_side_differs :
  detectCollisions (updateState rising ∅).1 rising = [BallBrick 0 Bottom] /\
  side_as_specified (State.ball rising) brick = Top.
Proof.
  rewrite updateState_rising. split.
  - rewrite detectCollisions_unfold.
    unfold detectBallWallCollision, detectBallBrickCollision,
      detectBallPaddleCollision, detectPowerupPaddleCollision,
      detectBallBrick_loop, detectBallBrick_at.
    unfold BALL_RADIUS, BRICK_HEIGHT, BRICK_WIDTH, PADDLE_HEIGHT.
    evaluate. done.
  - unfold side_as_specified, BALL_RADIUS, BRICK_HEIGHT, BRICK_WIDTH.
    evaluate. done.
Qed.

(** ** C5: removing the bricks that were hit *)

Lemma updateState_between : updateState between ∅ = (between_moved, ∅).
Proof.
  unfold between, between_moved.
  rewrite updateState_flying by (simpl; lra). straight.
Qed.

Lemma detectCollisions_between :
  detectCollisions between_moved between =
  [BallBrick 0 Bottom; BallBrick 1 Bottom].
Proof.
  rewrite detectCollisions_unfold.
  unfold detectBallWallCollision, detectBallBrickCollision,
    detectBallPaddleCollision, detectPowerupPaddleCollision,
    detectBallBrick_loop, detectBallBrick_at.
  unfold BALL_RADIUS, BRICK_HEIGHT, BRICK_WIDTH, PADDLE_HEIGHT.
  evaluate. done.
Qed.

(** One record: the brick at its index goes, or the index is past the end
    and the handler throws. *)
Lemma handleBallBrickCollision_bricks brickIndex side state oldState :
  match handleBallBrickCollision brickIndex side state oldState with
  | Ok state' =>
      (brickIndex < length (State.bricks state))%nat /\
      State.bricks state' = delete brickIndex (State.bricks state)
  | TypeError => (length (State.bricks state) <= brickIndex)%nat
  end.
Proof.
  unfold handleBallBrickCollision.
  set (s := match side with
            | Left | Right => reflectHorizontally state (State.ball oldState)
            | Top | Bottom => reflectVertically state (State.ball oldState)
            end).
  assert (State.bricks s = State.bricks state) as Hs
    by (subst s; by destruct side).
  rewrite Hs.
  destruct (State.bricks state !! brickIndex) as [brick|] eqn:Hb.
  - apply lookup_lt_Some in Hb. by destruct (Brick.powerup brick).
  - by apply lookup_ge_None in Hb.
Qed.

(** Two records with neighbouring indices, the smaller one first, as the
    detector's loop adds them: the second [splice] meets the shortened
    array, so the brick two places after the first goes and the neighbour
    stays. *)
Lemma handleCollisions_neighbours index side side' b b' b'' before after
    state oldState state' :
  State.bricks state = before ++ b :: b' :: b'' :: after ->
  length before = index ->
  handleCollisions [BallBrick index side; BallBrick (S index) side']
    state oldState = Ok state' ->
  State.bricks state' = before ++ b' :: after.
Proof.
  intros Hbricks Hlen. simpl. unfold bind.
  pose proof (handleBallBrickCollision_bricks index side state oldState)
    as H1.
  destruct (handleBallBrickCollision index side state oldState)
    as [s1|]; [|done].
  pose proof (handleBallBrickCollision_bricks (S index) side' s1 oldState)
    as H2.
  destruct (handleBallBrickCollision (S index) side' s1 oldState)
    as [s2|]; [|done].
  intros [= <-]. destruct H1 as [_ H1], H2 as [_ H2].
  rewrite H2, H1, Hbricks. subst index.
  rewrite delete_middle.
  change (before ++ b' :: b'' :: after)
    with (before ++ [b'] ++ b'' :: after).
  rewrite app_assoc.
  replace (S (length before)) with (length (before ++ [b']))
    by (rewrite length_app; simpl; lia).
  rewrite delete_middle. by rewrite <- app_assoc.
Qed.

(** When the neighbour is the last brick, the second [splice] returns an
    empty array and the handler throws. *)
Lemma handleCollisions_neighbours_throw index side side' b b' before
    state oldState :
  State.bricks state = before ++ [b; b'] ->
  length before = index ->
  handleCollisions [BallBrick index side; BallBrick (S index) side']
    state oldState = TypeError.
Proof.
  intros Hbricks Hlen. simpl. unfold bind.
  pose proof (handleBallBrickCollision_bricks index side state oldState)
    as H1.
  destruct (handleBallBrickCollision index side state oldState)
    as [s1|]; [|done].
  pose proof (handleBallBrickCollision_bricks (S index) side' s1 oldState)
    as H2.
  destruct (handleBallBrickCollision (S index) side' s1 oldState)
    as [s2|]; [|done].
  destruct H1 as [_ H1], H2 as [H2 _].
  rewrite H1, Hbricks in H2. subst index.
  rewrite delete_middle, length_app in H2. simpl in H2. lia.
Qed.

(** C5, on the code.  The ball of [between] overlaps the first two bricks
    after the transition, and both are reported; the frame ends with the
    second brick, which was hit, still in the array and the third, which was
    not hit, removed. *)
Theorem stale_brick_index_removes_neighbour :
  detectCollisions (updateState between ∅).1 between =
    [BallBrick 0 Bottom; BallBrick 1 Bottom] /\
  exists state,
    (frame between ∅).1 = Ok state /\ State.bricks state = [brick1].
Proof.
  unfold frame. rewrite updateState_between. cbn [fst snd].
  rewrite detectCollisions_between. split; [done|].
  destruct (handleCollisions _ between_moved between) as [state|] eqn:H.
  - exists state. split; [done|].
    by apply (handleCollisions_neighbours 0 Bottom Bottom
                brick0 brick1 brick2 [] [] between_moved between state
                eq_refl eq_refl) in H.
  - simpl in H. discriminate H.
Qed.

(** ** C6: the bounce off the paddle *)

(** The test [Math.asin(Math.sin(a)) > 0] is the test [sin a > 0]. *)
Lemma asin_sin_positive (a : R) : asin (sin a) > 0 <-> sin a > 0.
Proof.
  pose proof (SIN_bound a) as Hb.
  pose proof (asin_bound (sin a)) as Ha.
  pose proof (sin_asin (sin a) Hb) as Hs.
  pose proof PI_RGT_0 as Hpi.
  split; intros H.
  - rewrite <- Hs. apply sin_gt_0; lra.
  - destruct (Rlt_le_dec 0 (asin (sin a))) as [|Hle]; [lra|].
    destruct (Req_dec (asin (sin a)) 0) as [E|E].
    + rewrite E, sin_0 in Hs. lra.
    + assert (sin (asin (sin a)) < 0) by (apply sin_lt_0_var; lra). lra.
Qed.

(** The tilt is at most a quarter turn when the ball is no further from the
    paddle's centre than half of [width + 20]. *)
Lemma tilt_bound (dx w : R) :
  0 < w + 20 -> - ((w + 20) / 2) <= dx <= (w + 20) / 2 ->
  - (PI / 2) <= PI * (dx / (w + 20)) <= PI / 2.
Proof.
  intros Hw Hdx. pose proof PI_RGT_0 as Hpi.
  assert (- (1 / 2) <= dx / (w + 20) <= 1 / 2) as Hq.
  { split.
    - apply Rmult_le_reg_r with (w + 20); [lra|]. field_simplify; lra.
    - apply Rmult_le_reg_r with (w + 20); [lra|]. field_simplify; lra. }
  split; nra.
Qed.

(** C6, as amended.  The new angle is [-PI/2 + tilt] when the sine of the old
    ball's angle is positive and [PI/2 - tilt] otherwise, with
    [tilt = PI * (newBallX - oldPaddleX) / (oldPaddleWidth + 20)]; the
    ball's [y] is recomputed from the old position, the old speed and the
    new angle, and its [x] is kept.  When the new ball is no further from
    the old paddle's centre than half of [oldPaddleWidth + 20], the first
    angle has a non-positive sine (the ball goes up) and the second a
    non-negative one (the ball goes down). *)
Theorem paddle_bounce (state oldState : State.t) :
  let oldBall := State.ball oldState in
  let paddle := State.paddle oldState in
  let dx := Pos.x (Ball.pos (State.ball state)) - Pos.x (Paddle.pos paddle) in
  let tilt := PI * (dx / (Paddle.width paddle + 20)) in
  let ball := State.ball (handleBallPaddleCollision state oldState) in
  (sin (Ball.angle oldBall) > 0 -> Ball.angle ball = - PI / 2 + tilt) /\
  (sin (Ball.angle oldBall) <= 0 -> Ball.angle ball = PI / 2 - tilt) /\
  Pos.y (Ball.pos ball)
  = Pos.y (Ball.pos oldBall) + Ball.speed oldBall * sin (Ball.angle ball) /\
  Pos.x (Ball.pos ball) = Pos.x (Ball.pos (State.ball state)) /\
  (0 < Paddle.width paddle + 20 ->
   - ((Paddle.width paddle + 20) / 2) <= dx
     <= (Paddle.width paddle + 20) / 2 ->
   (sin (Ball.angle oldBall) > 0 -> sin (Ball.angle ball) <= 0) /\
   (sin (Ball.angle oldBall) <= 0 -> sin (Ball.angle ball) >= 0)).
Proof.
  cbv zeta. unfold handleBallPaddleCollision. cbv zeta. simpl.
  assert (forall t, - (PI / 2) <= t <= PI / 2 ->
                    sin (- PI / 2 + t) <= 0 /\ sin (PI / 2 - t) >= 0)
    as Hsin.
  { intros t Ht. replace (- PI / 2 + t) with (- (PI / 2 - t)) by lra.
    rewrite sin_neg, sin_shift.
    pose proof (cos_ge_0 t (proj1 Ht) (proj2 Ht)). lra. }
  case_bool_decide as Hup; rewrite asin_sin_positive in Hup;
    (repeat split; try done; try lra; intros _; by apply Hsin, tilt_bound).
Qed.

(** *** A ball caught by the side of the paddle *)

Lemma tilt_from_250 : - (PI / 2) < tilt_from 250 < 0.
Proof. unfold tilt_from. pose proof PI_RGT_0. split; lra. Qed.

Lemma tilt_from_248 : - (PI / 2) < tilt_from 248 < 0.
Proof. unfold tilt_from. pose proof PI_RGT_0. split; lra. Qed.

Lemma sin_first_bounce : -1 <= sin (- PI / 2 + tilt_from 250) < 0.
Proof.
  pose proof tilt_from_250. pose proof PI_RGT_0.
  split; [apply SIN_bound|]. apply sin_lt_0_var; lra.
Qed.

Lemma sin_second_bounce : 0 < sin (PI / 2 - tilt_from 248) <= 1.
Proof.
  pose proof tilt_from_248. pose proof PI_RGT_0.
  split; [|apply SIN_bound]. apply sin_gt_0; lra.
Qed.

(** The left key is held: the paddle moves over the falling ball, the
    collision is resolved upwards, and the ball is still inside the paddle's
    box. *)
Lemma frame_beside :
  frame beside {["ArrowLeft"]} = (Ok caught, {["ArrowLeft"]}).
Proof.
  unfold frame.
  assert (updateState beside {["ArrowLeft"]} =
          (flying (Ball.mk (Pos.mk 209 385) 5 (PI / 2))
             (Paddle.mk (Pos.mk 248 380) 80 80) [] [],
           {["ArrowLeft"]})) as ->.
  { unfold updateState, updatePause, updateServingPaddle. keys. cbn.
    unfold updatePaddle. cbv zeta. keys. cbn. rcompare.
    unfold updateBall. cbn. rcompare. rewrite cos_PI2, sin_PI2.
    unfold flying, State.with_ball, Ball.with_pos, State.with_paddle,
      Paddle.with_pos, Pos.with_x, PADDLE_SPEED, Rmax.
    simpl. destruct (Rle_dec _ _); repeat f_equal; lra. }
  assert (detectCollisions
            (flying (Ball.mk (Pos.mk 209 385) 5 (PI / 2))
               (Paddle.mk (Pos.mk 248 380) 80 80) [] [])
            beside = [BallPaddle]) as ->.
  { rewrite detectCollisions_unfold.
    unfold detectBallWallCollision, detectBallBrickCollision,
      detectBallPaddleCollision, detectPowerupPaddleCollision.
    unfold BALL_RADIUS, PADDLE_HEIGHT. evaluate. done. }
  simpl. unfold handleBallPaddleCollision. cbv zeta.
  rewrite bool_decide_eq_true_2.
  - reflexivity.
  - apply asin_sin_positive. simpl. rewrite sin_PI2. lra.
Qed.

Lemma updateState_caught :
  updateState caught {["p"]} = (State.with_isPaused caught true, ∅).
Proof. unfold updateState, updatePause. keys. cbn. f_equal. Qed.

Lemma detectCollisions_caught :
  detectCollisions (State.with_isPaused caught true) caught = [BallPaddle].
Proof.
  pose proof sin_first_bounce as H1.
  rewrite detectCollisions_unfold.
  unfold detectBallWallCollision, detectBallBrickCollision,
    detectBallPaddleCollision, detectPowerupPaddleCollision.
  unfold BALL_RADIUS, PADDLE_HEIGHT. evaluate. done.
Qed.

(** The pause key is pressed on the next frame: the game is paused, and the
    collision of that frame is resolved downwards. *)
Lemma frame_caught : frame caught {["p"]} = (Ok caught_paused, ∅).
Proof.
  pose proof sin_first_bounce as H1.
  unfold frame. rewrite updateState_caught, detectCollisions_caught.
  simpl. unfold handleBallPaddleCollision. cbv zeta.
  rewrite bool_decide_eq_false_2.
  - reflexivity.
  - rewrite asin_sin_positive. simpl. lra.
Qed.

Lemma detectCollisions_caught_paused :
  detectCollisions caught_paused caught_paused = [BallPaddle].
Proof.
  pose proof sin_first_bounce as H1. pose proof sin_second_bounce as H2.
  rewrite detectCollisions_unfold.
  unfold detectBallWallCollision, detectBallBrickCollision,
    detectBallPaddleCollision, detectPowerupPaddleCollision.
  unfold BALL_RADIUS, PADDLE_HEIGHT. evaluate. done.
Qed.

Lemma paddle_bounce_witness :
  sin (Ball.angle
         (State.ball
            (handleBallPaddleCollision (State.with_isPaused caught true)
               caught)))
  >= 0.
Proof.
  pose proof sin_first_bounce as H1.
  refine (proj2 (proj2 (proj2 (proj2 (proj2
            (paddle_bounce (State.with_isPaused caught true) caught))))
            _ _) _); simpl.
  - lra.
  - lra.
  - lra.
Defined.

(** C6 fails as stated: the ball of [caught], the state in which the frame of
    [beside] ends, goes up (the sine of its angle is negative) and is inside
    the paddle's box; on the next frame the collision is reported, and the
    angle after its resolution has a positive sine: the ball is sent
    down. *)
Lemma paddle_bounce_downwards :
  let state := (updateState caught {["p"]}).1 in
  frame beside {["ArrowLeft"]} = (Ok caught, {["ArrowLeft"]}) /\
  BallPaddle ∈ detectCollisions state caught /\
  sin (Ball.angle (State.ball caught)) < 0 /\
  sin (Ball.angle (State.ball (handleBallPaddleCollision state caught))) > 0.
Proof.
  pose proof sin_first_bounce as H1. pose proof sin_second_bounce as H2.
  cbv zeta. rewrite updateState_caught. cbn [fst].
  rewrite detectCollisions_caught.
  split; [apply frame_beside|].
  split; [by apply list_elem_of_singleton|].
  split; [simpl; lra|].
  unfold handleBallPaddleCollision. cbv zeta.
  rewrite bool_decide_eq_false_2.
  - unfold tilt_from in *. simpl. lra.
  - rewrite asin_sin_positive. simpl. lra.
Qed.

(** ** C9: the pause key *)

Lemma has_true inputs key : has inputs key = true <-> key ∈ inputs.
Proof. unfold has. apply bool_decide_eq_true. Qed.

Lemma has_false inputs key : has inputs key = false <-> key ∉ inputs.
Proof. unfold has. apply bool_decide_eq_false. Qed.

Lemma updatePause_pressed oldState inputs :
  "p" ∈ inputs ->
  updatePause oldState inputs =
  (State.with_isPaused oldState (negb (State.isPaused oldState)),
   inputs ∖ {["p"]}).
Proof. intros H%has_true. unfold updatePause. by rewrite H. Qed.

Lemma updatePause_released oldState inputs :
  "p" ∉ inputs -> updatePause oldState inputs = (oldState, inputs).
Proof. intros H%has_false. unfold updatePause. by rewrite H. Qed.

Lemma running_steps_isPaused state oldState inputs :
  State.isPaused (running_steps state oldState inputs)
  = State.isPaused state.
Proof.
  unfold running_steps.
  rewrite updateBall_isPaused, updatePaddle_isPaused.
  rewrite (sbp_isPaused _ _ (updatePowerups_same _)).
  by destruct (updateServingPaddle_fields state oldState inputs) as [-> _].
Qed.

(** C9.  When the pause key is among the inputs, the transition flips
    [isPaused], whether the old state is paused or not, and the key is gone
    from the input collector; the toggle comes first: a paused game is
    unpaused and the other steps run on the unpaused state with the inputs
    without the key, a running game is paused and the other steps are
    skipped. *)
Theorem pause_toggle (oldState : State.t) (inputs : Inputs) :
  "p" ∈ inputs ->
  let state := (updateState oldState inputs).1 in
  let inputs' := (updateState oldState inputs).2 in
  State.isPaused state = negb (State.isPaused oldState) /\
  inputs' = inputs ∖ {["p"]} /\
  ("p" ∉ inputs') /\
  state =
    (if State.isPaused oldState then
       running_steps (State.with_isPaused oldState false) oldState
         (inputs ∖ {["p"]})
     else State.with_isPaused oldState true).
Proof.
  intros Hp. cbv zeta. unfold updateState.
  rewrite updatePause_pressed by done.
  assert ("p" ∉ inputs ∖ {["p"]}) as Hgone.
  { intros [_ Hn]%elem_of_difference. apply Hn. by apply elem_of_singleton. }
  destruct (State.isPaused oldState) eqn:E; simpl.
  - fold (running_steps (State.with_isPaused oldState false) oldState
            (inputs ∖ {["p"]})).
    by rewrite running_steps_isPaused.
  - done.
Qed.

Lemma pause_toggle_witness :
  State.isPaused (updateState initial {["p"]}).1 = true.
Proof.
  refine (proj1 (pause_toggle initial {["p"]} _)).
  apply has_true. reflexivity.
Defined.

(** ** C8: a frame of a paused game *)

Lemma updateState_paused_released oldState inputs :
  State.isPaused oldState = true -> "p" ∉ inputs ->
  updateState oldState inputs = (oldState, inputs).
Proof.
  intros Hpaused Hp. unfold updateState.
  rewrite updatePause_released by done. simpl. by rewrite Hpaused.
Qed.

(** C8, as amended.  When the old state is paused and the pause key is not
    among the inputs, the transition returns the old state and leaves the
    inputs as they are; detection and resolution still run, on the old state
    against itself, and when nothing is detected the frame ends in the old
    state, equal in every field. *)
Theorem paused_frame (oldState : State.t) (inputs : Inputs) :
  State.isPaused oldState = true ->
  "p" ∉ inputs ->
  updateState oldState inputs = (oldState, inputs) /\
  frame oldState inputs =
    (handleCollisions (detectCollisions oldState oldState) oldState oldState,
     inputs) /\
  (detectCollisions oldState oldState = [] ->
   frame oldState inputs = (Ok oldState, inputs)).
Proof.
  intros Hpaused Hp. unfold frame.
  rewrite updateState_paused_released by done.
  repeat split. by intros ->.
Qed.

Lemma paused_frame_witness :
  updateState caught_paused ∅ = (caught_paused, ∅).
Proof.
  refine (proj1 (paused_frame caught_paused ∅ _ _)).
  - reflexivity.
  - apply has_false. reflexivity.
Defined.

(** C8 fails as stated: [caught_paused], the state in which the frames of
    [beside] and [caught] end, is paused, and no key is held; the collision
    of its ball with the paddle is detected and resolved all the same, and
    the frame ends with another ball angle. *)
Lemma paused_frame_changes_the_ball :
  frame beside {["ArrowLeft"]} = (Ok caught, {["ArrowLeft"]}) /\
  frame caught {["p"]} = (Ok caught_paused, ∅) /\
  State.isPaused caught_paused = true /\
  ("p" ∉ (∅ : Inputs)) /\
  exists state,
    frame caught_paused ∅ = (Ok state, ∅) /\
    Ball.angle (State.ball state) = - PI / 2 + tilt_from 248 /\
    Ball.angle (State.ball state) <> Ball.angle (State.ball caught_paused).
Proof.
  pose proof sin_second_bounce as H2. pose proof tilt_from_248 as H3.
  split; [apply frame_beside|]. split; [apply frame_caught|].
  split; [reflexivity|]. split; [apply has_false; reflexivity|].
  unfold frame. rewrite updateState_paused_released;
    [|reflexivity|apply has_false; reflexivity].
  rewrite detectCollisions_caught_paused.
  eexists. split; [reflexivity|].
  unfold handleBallPaddleCollision. cbv zeta.
  rewrite bool_decide_eq_true_2.
  - simpl. split; [reflexivity|]. pose proof PI_RGT_0. lra.
  - apply asin_sin_positive. simpl. lra.
Qed.

(** ** C10: the powerup tick *)

Lemma tick_ref powerup : Powerup.ref (tick powerup) = Powerup.ref powerup.
Proof. unfold tick. by destruct (Powerup.pos powerup). Qed.

Lemma refs_insert l i p p' :
  l !! i = Some p -> Powerup.ref p' = Powerup.ref p ->
  refs (<[i := p']> l) = refs l.
Proof.
  intros Hi Hr. unfold refs. rewrite list_fmap_insert, Hr.
  apply list_insert_id. by rewrite list_lookup_fmap, Hi.
Qed.

(** In an array of distinct objects, [indexOf] of the object at [i] is
    [i]. *)
Lemma indexOf_lookup l i p :
  NoDup (refs l) -> l !! i = Some p -> indexOf l p = Some i.
Proof.
  revert i. induction l as [|q l IH]; intros i Hnd Hi; [done|].
  simpl. apply NoDup_cons in Hnd as [Hq Hnd].
  destruct i as [|i]; simpl in Hi.
  - injection Hi as ->. by rewrite bool_decide_eq_true_2.
  - rewrite bool_decide_eq_false_2.
    + by rewrite (IH i).
    + intros E. apply Hq. unfold refs. rewrite E.
      apply list_elem_of_fmap_2. by eapply list_elem_of_lookup_2.
Qed.

Lemma refs_splice1 index l : refs (splice1 index l) `sublist_of` refs l.
Proof.
  unfold refs. apply fmap_sublist. destruct index as [k|]; simpl.
  - apply sublist_delete.
  - induction l as [|a [|b l] IH]; simpl; [done|by constructor|].
    by apply sublist_skip.
Qed.

Lemma delete_insert_same {A : Type} (l : list A) (i : nat) (a : A) :
  delete i (<[i := a]> l) = delete i l.
Proof.
  rewrite !delete_take_drop.
  rewrite take_insert_ge by lia. by rewrite drop_insert_lt by lia.
Qed.

(** The visit of a powerup that stays. *)
Lemma updatePowerups_from_kept fuel i state powerup :
  State.powerups state !! i = Some powerup -> kept powerup ->
  updatePowerups_from (S fuel) i state =
  updatePowerups_from fuel (S i)
    (State.with_powerups state (<[i := tick powerup]> (State.powerups state))).
Proof.
  intros Hi Hkept. simpl. rewrite Hi. unfold tick.
  destruct (Powerup.pos powerup) as [pos|] eqn:Hpos; [done|].
  destruct Hkept as [?|Hkept]; [done|].
  by rewrite bool_decide_eq_false_2 by (simpl; lra).
Qed.

(** The visit of a dormant powerup whose timer runs out, in an array of
    distinct objects: the paddle's desired width goes down by 10 and the
    element at the iterator's index is removed. *)
Lemma updatePowerups_from_expires fuel i state powerup :
  NoDup (refs (State.powerups state)) ->
  State.powerups state !! i = Some powerup -> expires powerup ->
  updatePowerups_from (S fuel) i state =
  updatePowerups_from fuel (S i)
    (State.with_powerups
       (State.with_paddle state
          (Paddle.with_desiredWidth (State.paddle state)
             (Paddle.desiredWidth (State.paddle state) - 10)))
       (delete i (State.powerups state))).
Proof.
  intros Hnd Hi [Hpos Htimer]. simpl. rewrite Hi, Hpos.
  rewrite bool_decide_eq_true_2 by done.
  destruct (Powerup.type _). simpl.
  rewrite (indexOf_lookup _ i).
  - simpl. by rewrite delete_insert_same.
  - by erewrite refs_insert.
  - apply list_lookup_insert_eq. by eapply lookup_lt_Some.
Qed.

Lemma kept_or_expires powerup : kept powerup \/ expires powerup.
Proof.
  unfold kept, expires. destruct (Powerup.pos powerup); [by left; left|].
  destruct (Rle_dec (Powerup.timer powerup - 1) 0); [by right|left; right].
  lra.
Qed.

(** The loop never adds an object and never makes two of one. *)
Lemma updatePowerups_from_refs fuel i state :
  refs (State.powerups (updatePowerups_from fuel i state))
  `sublist_of` refs (State.powerups state).
Proof.
  revert i state. induction fuel as [|fuel IH]; intros i state; [done|].
  simpl. destruct (State.powerups state !! i) as [p|] eqn:Hi; [|done].
  destruct (Powerup.pos p) as [pos|].
  - etrans; [apply IH|]. simpl. by erewrite refs_insert.
  - case_bool_decide.
    + etrans; [apply IH|]. destruct (Powerup.type _). simpl.
      etrans; [apply refs_splice1|]. by erewrite refs_insert.
    + etrans; [apply IH|]. simpl. by erewrite refs_insert.
Qed.

Lemma take_S_eq {A : Type} (l1 l2 : list A) (i : nat) :
  take (S i) l1 = take (S i) l2 -> take i l1 = take i l2.
Proof.
  intros H. rewrite <- (Nat.min_l i (S i)) by lia.
  by rewrite <- !take_take, H.
Qed.

(** The loop at index [i] leaves the elements before [i] alone. *)
Lemma updatePowerups_from_prefix fuel i state :
  NoDup (refs (State.powerups state)) ->
  take i (State.powerups (updatePowerups_from fuel i state))
  = take i (State.powerups state).
Proof.
  revert i state. induction fuel as [|fuel IH]; intros i state Hnd; [done|].
  destruct (State.powerups state !! i) as [p|] eqn:Hi;
    [|by simpl; rewrite Hi].
  destruct (kept_or_expires p) as [Hp|Hp].
  - rewrite (updatePowerups_from_kept _ _ _ p) by done.
    erewrite take_S_eq; [|apply IH].
    + simpl. by rewrite take_insert_ge by lia.
    + simpl. erewrite refs_insert; [done..|]. apply tick_ref.
  - rewrite (updatePowerups_from_expires _ _ _ p) by done.
    erewrite take_S_eq; [|apply IH].
    + simpl. rewrite delete_take_drop.
      pose proof (lookup_lt_Some _ _ _ Hi).
      rewrite take_app_le by (rewrite length_take; lia).
      rewrite take_take. f_equal. lia.
    + simpl. apply (sublist_NoDup _ (refs (State.powerups state))); [done|].
      unfold refs. apply fmap_sublist, sublist_delete.
Qed.

(** The loop ends because the iterator has passed the end of the array:
    more iterations than the array is long change nothing. *)
Lemma updatePowerups_from_enough fuel extra i state :
  (length (State.powerups state) <= i + fuel)%nat ->
  updatePowerups_from (fuel + extra) i state
  = updatePowerups_from fuel i state.
Proof.
  revert i state. induction fuel as [|fuel IH]; intros i state Hlen.
  - destruct extra as [|extra]; [done|]. simpl.
    by rewrite lookup_ge_None_2 by lia.
  - simpl. destruct (State.powerups state !! i) as [p|] eqn:Hi; [|done].
    destruct (Powerup.pos p) as [pos|].
    + apply IH. simpl. rewrite length_insert. lia.
    + case_bool_decide.
      * apply IH. destruct (Powerup.type _). simpl.
        match goal with
        | |- (length (splice1 ?k ?l) <= _)%nat =>
            pose proof (sublist_length _ _ (refs_splice1 k l)) as Hsub
        end.
        unfold refs in Hsub. rewrite !length_fmap, length_insert in Hsub.
        lia.
      * apply IH. simpl. rewrite length_insert. lia.
Qed.

Lemma with_powerups_id state :
  State.with_powerups state (State.powerups state) = state.
Proof. by destruct state. Qed.

(** The loop over a run of powerups that all stay: each is ticked. *)
Lemma updatePowerups_from_kept_run pre :
  forall before rest state fuel,
    State.powerups state = before ++ pre ++ rest ->
    Forall kept pre ->
    updatePowerups_from (length pre + fuel) (length before) state =
    updatePowerups_from fuel (length before + length pre)
      (State.with_powerups state (before ++ (tick <$> pre) ++ rest)).
Proof.
  induction pre as [|p pre IH]; intros before rest state fuel Hl Hkept.
  - simpl in *. by rewrite Nat.add_0_r, <- Hl, with_powerups_id.
  - apply Forall_cons in Hkept as [Hp Hpre].
    change (length (p :: pre) + fuel)%nat with (S (length pre + fuel)).
    rewrite (updatePowerups_from_kept _ _ _ p);
      [|by rewrite Hl; apply list_lookup_middle|done].
    rewrite Hl.
    replace (<[length before:=tick p]> (before ++ (p :: pre) ++ rest))
      with ((before ++ [tick p]) ++ pre ++ rest).
    2:{ rewrite <- (Nat.add_0_r (length before)), insert_app_r.
        by rewrite <- app_assoc. }
    replace (S (length before)) with (length (before ++ [tick p]))
      by (rewrite length_app; simpl; lia).
    rewrite (IH (before ++ [tick p]) rest); [|done..].
    rewrite length_app. simpl. f_equal; [lia|].
    unfold State.with_powerups. simpl. by rewrite <- !app_assoc.
Qed.

Lemma refs_tick l : refs (tick <$> l) = refs l.
Proof.
  unfold refs. rewrite <- list_fmap_compose. apply list_fmap_ext.
  intros _ p _. apply tick_ref.
Qed.

(** The tick of an array [pre ++ p :: rest] of distinct objects in which
    the powerups of [pre] stay and [p] expires: what the loop is left to do
    and where. *)
Lemma updatePowerups_expiry state pre p rest :
  State.powerups state = pre ++ p :: rest ->
  NoDup (refs (State.powerups state)) ->
  Forall kept pre -> expires p ->
  updatePowerups state =
  updatePowerups_from (length rest) (S (length pre))
    (State.with_powerups
       (State.with_paddle state
          (Paddle.with_desiredWidth (State.paddle state)
             (Paddle.desiredWidth (State.paddle state) - 10)))
       ((tick <$> pre) ++ rest)).
Proof.
  intros Hl Hnd Hkept Hp. unfold updatePowerups.
  rewrite Hl at 1. rewrite length_app. cbn [length].
  change 0%nat with (length (@nil Powerup.t)) at 1.
  rewrite (updatePowerups_from_kept_run pre [] (p :: rest) state
             (S (length rest))); [|done..].
  cbn [length app Nat.add].
  rewrite (updatePowerups_from_expires _ _ _ p).
  - simpl. f_equal. f_equal.
    rewrite <- (length_fmap tick pre). apply delete_middle.
  - simpl. unfold refs in *.
    rewrite fmap_app, fmap_cons. fold (refs (tick <$> pre)).
    rewrite refs_tick. unfold refs.
    by rewrite Hl, fmap_app, fmap_cons in Hnd.
  - simpl. rewrite <- (length_fmap tick pre). apply list_lookup_middle.
    done.
  - done.
Qed.

(** After that tick the powerups of [pre] are ticked, the object [p] is
    gone, and the element that followed [p] sits at [p]'s index as it was:
    the loop has not visited it. *)
Lemma updatePowerups_skips state pre p q post :
  State.powerups state = pre ++ p :: q :: post ->
  NoDup (refs (State.powerups state)) ->
  Forall kept pre -> expires p ->
  (exists post',
     State.powerups (updatePowerups state) = (tick <$> pre) ++ q :: post') /\
  (Powerup.ref p ∉ refs (State.powerups (updatePowerups state))) /\
  NoDup (refs (State.powerups (updatePowerups state))).
Proof.
  intros Hl Hnd Hkept Hp.
  assert (NoDup (refs ((tick <$> pre) ++ q :: post)) /\
          Powerup.ref p ∉ refs ((tick <$> pre) ++ q :: post)) as [Hnd' Hp'].
  { unfold refs in *. rewrite fmap_app. fold (refs (tick <$> pre)).
    rewrite refs_tick. unfold refs.
    rewrite Hl, fmap_app, fmap_cons in Hnd.
    apply NoDup_app in Hnd as (Hpre & Hdisj & Hrest).
    apply NoDup_cons in Hrest as [Hprest Hrest].
    split.
    - apply NoDup_app. split; [done|]. split; [|done].
      intros r Hr Hin. apply (Hdisj r Hr). by right.
    - intros [Hin|Hin]%elem_of_app; [|done].
      apply (Hdisj _ Hin). by left. }
  rewrite (updatePowerups_expiry state pre p (q :: post)) by done.
  set (state' := State.with_powerups _ _).
  pose proof (updatePowerups_from_prefix (length (q :: post))
                (S (length pre)) state' Hnd') as Hpre.
  pose proof (updatePowerups_from_refs (length (q :: post))
                (S (length pre)) state') as Hsub.
  set (result := State.powerups (updatePowerups_from _ _ state')) in *.
  split; [|split].
  - exists (drop (S (length pre)) result).
    rewrite <- (take_drop (S (length pre)) result) at 1.
    rewrite Hpre. simpl.
    rewrite <- (length_fmap tick pre).
    replace (S (length (tick <$> pre)))
      with (length ((tick <$> pre) ++ [q]))
      by (rewrite length_app; simpl; lia).
    replace ((tick <$> pre) ++ q :: post)
      with (((tick <$> pre) ++ [q]) ++ post) by by rewrite <- app_assoc.
    rewrite take_app_length. by rewrite <- app_assoc.
  - intros Hin. apply Hp'. by eapply elem_of_sublist.
  - by eapply sublist_NoDup.
Qed.

(** The same without a follower: the object that expires is gone. *)
Lemma updatePowerups_removes state pre p rest :
  State.powerups state = pre ++ p :: rest ->
  NoDup (refs (State.powerups state)) ->
  Forall kept pre -> expires p ->
  Powerup.ref p ∉ refs (State.powerups (updatePowerups state)).
Proof.
  intros Hl Hnd Hkept Hp.
  rewrite (updatePowerups_expiry state pre p rest) by done.
  intros Hin.
  eapply elem_of_sublist in Hin; [|apply updatePowerups_from_refs].
  simpl in Hin. unfold refs in *. rewrite fmap_app in Hin.
  fold (refs (tick <$> pre)) in Hin. rewrite refs_tick in Hin.
  unfold refs in Hin.
  rewrite Hl, fmap_app, fmap_cons in Hnd.
  apply NoDup_app in Hnd as (Hpre & Hdisj & Hrest).
  apply NoDup_cons in Hrest as [Hprest Hrest].
  apply elem_of_app in Hin as [Hin|Hin]; [|done].
  apply (Hdisj _ Hin). by left.
Qed.

(** The loop reads nothing of the state but the powerup array. *)
Lemma updatePowerups_from_powerups fuel i state state' :
  State.powerups state = State.powerups state' ->
  State.powerups (updatePowerups_from fuel i state)
  = State.powerups (updatePowerups_from fuel i state').
Proof.
  revert i state state'.
  induction fuel as [|fuel IH]; intros i state state' Heq; [done|].
  simpl. rewrite <- Heq.
  destruct (State.powerups state !! i) as [p|]; [|done].
  destruct (Powerup.pos p); [by apply IH|].
  case_bool_decide; [|by apply IH].
  apply IH. by destruct (Powerup.type _).
Qed.

Lemma updatePaddle_powerups state oldState inputs :
  State.powerups (updatePaddle state oldState inputs) = State.powerups state.
Proof.
  unfold updatePaddle. cbv zeta.
  repeat case_bool_decide; by repeat destruct (has _ _).
Qed.

Lemma updatePaddle_bricks state oldState inputs :
  State.bricks (updatePaddle state oldState inputs) = State.bricks state.
Proof.
  unfold updatePaddle. cbv zeta.
  repeat case_bool_decide; by repeat destruct (has _ _).
Qed.

Lemma updateBall_powerups state oldState :
  State.powerups (updateBall state oldState) = State.powerups state.
Proof.
  unfold updateBall. destruct (State.isServing state); [done|].
  by case_bool_decide.
Qed.

Lemma updateBall_bricks state oldState :
  State.bricks (updateBall state oldState) = State.bricks state.
Proof.
  unfold updateBall. destruct (State.isServing state); [done|].
  by case_bool_decide.
Qed.

(** The powerups and the bricks after the transition of a game that is
    running and stays so. *)
Lemma updateState_running_released oldState inputs :
  State.isPaused oldState = false -> "p" ∉ inputs ->
  updateState oldState inputs
  = (running_steps oldState oldState inputs, inputs).
Proof.
  intros Hrun Hp. unfold updateState.
  rewrite updatePause_released by done. simpl. by rewrite Hrun.
Qed.

Lemma running_steps_powerups state oldState inputs :
  State.powerups (running_steps state oldState inputs)
  = State.powerups (updatePowerups state).
Proof.
  unfold running_steps.
  rewrite updateBall_powerups, updatePaddle_powerups.
  pose proof (updateServingPaddle_fields state oldState inputs)
    as (_ & _ & _ & _ & _ & Hpow).
  unfold updatePowerups. rewrite Hpow.
  by apply updatePowerups_from_powerups.
Qed.

Lemma running_steps_bricks state oldState inputs :
  State.bricks (running_steps state oldState inputs) = State.bricks state.
Proof.
  unfold running_steps.
  rewrite updateBall_bricks, updatePaddle_bricks.
  rewrite (sbp_bricks _ _ (updatePowerups_same _)).
  by destruct (updateServingPaddle_fields state oldState inputs)
    as (_ & _ & _ & _ & -> & _).
Qed.

(** *** What the resolution does to the powerup array *)

Lemma handleCollision_powerups c state oldState state' :
  handleCollision c state oldState = Ok state' ->
  (exists added,
     State.powerups state'
     = (resolve_one c <$> State.powerups state) ++ added) /\
  refs (State.powerups state') ++ brick_refs (State.bricks state')
    ≡ₚ refs (State.powerups state) ++ brick_refs (State.bricks state) /\
  State.isPaused state' = State.isPaused state.
Proof.
  destruct c as [|wall|index side|powerup]; simpl.
  - intros [= <-]. split; [|done]. exists [].
    by rewrite app_nil_r, list_fmap_id.
  - intros [= <-]. split; [|by destruct wall]. exists [].
    rewrite app_nil_r, list_fmap_id. by destruct wall.
  - unfold handleBallBrickCollision.
    set (s := match side with
              | Left | Right =>
                  reflectHorizontally state (State.ball oldState)
              | Top | Bottom => reflectVertically state (State.ball oldState)
              end).
    assert (State.bricks s = State.bricks state /\
            State.powerups s = State.powerups state /\
            State.isPaused s = State.isPaused state) as (Hb & Hp & Hpa)
      by (subst s; by destruct side).
    destruct (State.bricks s !! index) as [brick|] eqn:Hi; [|done].
    rewrite Hb in Hi.
    rewrite list_fmap_id.
    pose proof (take_drop_middle _ _ _ Hi) as Hsplit.
    assert (brick_refs (State.bricks state) =
            brick_refs (take index (State.bricks state)) ++
            match Brick.powerup brick with
            | Some powerup => [Powerup.ref powerup]
            | None => []
            end ++
            brick_refs (drop (S index) (State.bricks state))) as Hrefs.
    { rewrite <- Hsplit at 1. unfold brick_refs.
      by rewrite bind_app, bind_cons. }
    assert (brick_refs (delete index (State.bricks state)) =
            brick_refs (take index (State.bricks state)) ++
            brick_refs (drop (S index) (State.bricks state))) as Hdel.
    { rewrite delete_take_drop. unfold brick_refs. by rewrite bind_app. }
    destruct (Brick.powerup brick) as [pw|]; intros [= <-]; simpl;
      rewrite Hb, Hp, Hdel, Hrefs.
    + split; [by eexists|]. split; [|done].
      unfold refs. rewrite fmap_app, <- app_assoc. simpl.
      apply Permutation_app_head. apply Permutation_middle.
    + split; [exists []; by rewrite app_nil_r|]. done.
  - intros [= <-]. unfold handlePowerupPaddleCollision.
    destruct (Powerup.type powerup). simpl.
    split; [exists []; rewrite app_nil_r; reflexivity|]. split; [|done].
    apply Permutation_app_tail. unfold refs.
    rewrite <- list_fmap_compose.
    erewrite list_fmap_ext; [done|].
    intros _ q _. simpl. by case_bool_decide.
Qed.

Lemma handleCollisions_powerups cs state oldState state' :
  handleCollisions cs state oldState = Ok state' ->
  (exists added,
     State.powerups state' = (resolve cs <$> State.powerups state) ++ added)
  /\
  refs (State.powerups state') ++ brick_refs (State.bricks state')
    ≡ₚ refs (State.powerups state) ++ brick_refs (State.bricks state) /\
  State.isPaused state' = State.isPaused state.
Proof.
  revert state. induction cs as [|c cs IH]; intros state; simpl.
  - intros [= <-]. split; [|done]. exists [].
    by rewrite app_nil_r, list_fmap_id.
  - unfold bind.
    destruct (handleCollision c state oldState) as [s1|] eqn:H1; [|done].
    intros H. apply handleCollision_powerups in H1 as ([a1 E1] & P1 & Q1).
    apply IH in H as ([a2 E2] & P2 & Q2).
    split; [|split; [by etrans|congruence]].
    exists ((resolve cs <$> a1) ++ a2).
    rewrite E2, E1, fmap_app, <- list_fmap_compose, <- app_assoc.
    done.
Qed.

Lemma resolve_one_fields c q :
  Powerup.ref (resolve_one c q) = Powerup.ref q /\
  Powerup.timer (resolve_one c q) = Powerup.timer q.
Proof. destruct c; simpl; try done. by case_bool_decide. Qed.

Lemma resolve_fields cs q :
  Powerup.ref (resolve cs q) = Powerup.ref q /\
  Powerup.timer (resolve cs q) = Powerup.timer q.
Proof.
  revert q. induction cs as [|c cs IH]; intros q; [done|]. simpl.
  destruct (IH (resolve_one c q)) as [-> ->]. apply resolve_one_fields.
Qed.

(** A powerup that no record refers to is left as it is. *)
Lemma resolve_untouched cs q :
  (forall powerup,
     PowerupPaddle powerup ∈ cs -> Powerup.ref powerup <> Powerup.ref q) ->
  resolve cs q = q.
Proof.
  induction cs as [|c cs IH]; intros H; [done|]. simpl.
  assert (resolve_one c q = q) as ->.
  { destruct c as [| | |powerup]; simpl; try done.
    rewrite bool_decide_eq_false_2; [done|].
    intros E. eapply H; [|done]. by left. }
  apply IH. intros powerup Hin. apply H. by right.
Qed.

(** The records that refer to a powerup refer to a falling element of the
    new state's array. *)
Lemma detectCollisions_powerup state oldState powerup :
  PowerupPaddle powerup ∈ detectCollisions state oldState ->
  powerup ∈ State.powerups state /\ Powerup.pos powerup <> None.
Proof.
  rewrite detectCollisions_unfold, !elem_of_app.
  intros [H | [H | [H | H]]].
  - by apply detectBallWallCollision_wall in H as [wall ?].
  - unfold detectBallBrickCollision in H.
    apply detectBallBrick_loop_elem in H as (k & brick & _ & H).
    by apply detectBallBrick_at_elem in H as [side ?].
  - by apply detectBallPaddleCollision_elem in H.
  - unfold detectPowerupPaddleCollision in H.
    apply list_elem_of_bind in H as (p & Hc & Hp).
    unfold detectPowerupPaddle_at in Hc.
    destruct (Powerup.pos p) eqn:Hpos; [|by apply elem_of_nil in Hc].
    destruct (_ && _); [|by apply elem_of_nil in Hc].
    apply list_elem_of_singleton in Hc. injection Hc as ->.
    split; [done|]. by rewrite Hpos.
Qed.

Lemma refs_inj l p q :
  NoDup (refs l) -> p ∈ l -> q ∈ l ->
  Powerup.ref p = Powerup.ref q -> p = q.
Proof.
  intros Hnd [i Hi]%list_elem_of_lookup_1 [j Hj]%list_elem_of_lookup_1 E.
  assert (i = j) as ->; [|congruence].
  apply (NoDup_lookup (refs l) i j (Powerup.ref p)); [done|..]; unfold refs.
  - by rewrite list_lookup_fmap, Hi.
  - by rewrite list_lookup_fmap, Hj, E.
Qed.

Lemma tick_timer powerup :
  Powerup.timer powerup - 1 <= Powerup.timer (tick powerup).
Proof. unfold tick. destruct (Powerup.pos powerup); simpl; lra. Qed.

(** The objects stay distinct through a transition and through the
    resolution. *)
Lemma running_steps_distinct oldState inputs :
  distinct_objects oldState ->
  distinct_objects (running_steps oldState oldState inputs).
Proof.
  unfold distinct_objects. intros Hnd.
  rewrite running_steps_powerups, running_steps_bricks.
  eapply sublist_NoDup; [done|].
  apply sublist_app; [|done]. apply updatePowerups_from_refs.
Qed.

Lemma handleCollisions_distinct cs state oldState state' :
  handleCollisions cs state oldState = Ok state' ->
  distinct_objects state -> distinct_objects state'.
Proof.
  intros (_ & Hperm & _)%handleCollisions_powerups. unfold distinct_objects.
  by rewrite Hperm.
Qed.

(** A running game whose powerup array is [pre ++ p :: q :: post], of
    distinct objects, where the powerups of [pre] stay and the dormant [p]
    expires: after the transition [p] is gone and [q] is at [p]'s index as it
    was.  If the timer of [q] runs out too and the powerups of [pre] have
    more than two frames left, [q] is in the array at the end of the frame
    and is removed by the transition of the next frame. *)
Lemma two_expiries_two_frames (oldState : State.t)
    (inputs : Inputs) (pre : list Powerup.t) (p q : Powerup.t)
    (post : list Powerup.t) :
  State.isPaused oldState = false ->
  "p" ∉ inputs ->
  distinct_objects oldState ->
  State.powerups oldState = pre ++ p :: q :: post ->
  Forall kept pre ->
  expires p ->
  let state := (updateState oldState inputs).1 in
  State.powerups state !! length pre = Some q /\
  (exists post', State.powerups state = (tick <$> pre) ++ q :: post') /\
  (Powerup.ref p ∉ refs (State.powerups state)) /\
  (expires q ->
   Forall (fun powerup => Powerup.timer powerup > 2) pre ->
   forall state1 inputs1 inputs2,
     frame oldState inputs = (Ok state1, inputs1) ->
     "p" ∉ inputs2 ->
     Powerup.ref q ∈ refs (State.powerups state1) /\
     Powerup.ref q ∉ refs (State.powerups (updateState state1 inputs2).1)).
Proof.
  intros Hrun Hp Hdistinct Hl Hkept Hexp. cbv zeta.
  assert (NoDup (refs (State.powerups oldState))) as Hnd
    by by apply NoDup_app in Hdistinct as [? _].
  destruct (updatePowerups_skips oldState pre p q post Hl Hnd Hkept Hexp)
    as ([post' Hpost'] & Hgone & Hnd').
  unfold frame. rewrite updateState_running_released by done. cbn [fst snd].
  rewrite running_steps_powerups, Hpost'.
  split; [|split; [by exists post'|split; [by rewrite <- Hpost'|]]].
  { rewrite <- (length_fmap tick pre). by apply list_lookup_middle. }
  intros [Hqpos Hqtimer] Htimers state1 inputs1 inputs2 Hframe Hp2.
  injection Hframe as Hframe _.
  set (state := running_steps oldState oldState inputs) in *.
  set (cs := detectCollisions state oldState) in *.
  assert (State.powerups state = (tick <$> pre) ++ q :: post') as Hstate
    by (subst state; by rewrite running_steps_powerups).
  pose proof (handleCollisions_powerups _ _ _ _ Hframe)
    as ([added Hadded] & _ & Hpaused).
  pose proof (handleCollisions_distinct _ _ _ _ Hframe
                (running_steps_distinct oldState inputs Hdistinct))
    as Hdistinct1.
  assert (resolve cs q = q) as Hq.
  { apply resolve_untouched. intros pw [Hin Hpos]%detectCollisions_powerup E.
    apply Hpos. rewrite <- Hqpos. f_equal.
    apply (refs_inj (State.powerups state)); [|done| |done].
    - by rewrite Hstate, <- Hpost'.
    - rewrite Hstate. apply elem_of_app. right. by left. }
  rewrite Hstate, fmap_app, fmap_cons, Hq, <- app_assoc in Hadded.
  simpl in Hadded.
  split.
  { rewrite Hadded. unfold refs. rewrite fmap_app, fmap_cons.
    apply elem_of_app. right. by left. }
  rewrite updateState_running_released;
    [|by rewrite Hpaused; subst state; rewrite running_steps_isPaused|done].
  cbn [fst]. rewrite running_steps_powerups.
  eapply updatePowerups_removes; [exact Hadded| | |done].
  - by apply NoDup_app in Hdistinct1 as [? _].
  - rewrite <- list_fmap_compose. apply Forall_fmap.
    eapply Forall_impl; [exact Htimers|].
    intros x Hx. right. simpl.
    destruct (resolve_fields cs (tick x)) as [_ ->].
    pose proof (tick_timer x). lra.
Qed.

(** Any visit of the loop that removes the powerup at the iterator's index
    [i] leaves the one that followed it at index [i], as it was, until the
    loop ends. *)
Lemma updatePowerups_from_skips fuel i state p q :
  NoDup (refs (State.powerups state)) ->
  State.powerups state !! i = Some p -> expires p ->
  State.powerups state !! S i = Some q ->
  State.powerups (updatePowerups_from (S fuel) i state) !! i = Some q.
Proof.
  intros Hnd Hp Hexp Hq.
  rewrite (updatePowerups_from_expires _ _ _ p) by done.
  set (state' := State.with_powerups _ _).
  rewrite <- (lookup_take_lt _ (S i)) by lia.
  rewrite (updatePowerups_from_prefix fuel (S i) state').
  - rewrite lookup_take_lt by lia. subst state'. simpl.
    by rewrite list_lookup_delete_ge.
  - subst state'. simpl.
    apply (sublist_NoDup _ (refs (State.powerups state))); [done|].
    unfold refs. apply fmap_sublist, sublist_delete.
Qed.

(** Of two neighbours of the array the loop never removes both: once the
    iterator is past the first, the first stays; when it removes the first,
    the second is skipped. *)
Lemma updatePowerups_from_one_stays fuel :
  forall i j state p q,
    NoDup (refs (State.powerups state)) ->
    State.powerups state !! j = Some p ->
    State.powerups state !! S j = Some q ->
    (i <= S j)%nat ->
    Powerup.ref p ∈ refs (State.powerups (updatePowerups_from fuel i state))
    \/
    Powerup.ref q ∈ refs (State.powerups (updatePowerups_from fuel i state)).
Proof.
  assert (forall (l : list Powerup.t) k x,
            l !! k = Some x -> Powerup.ref x ∈ refs l) as Hin.
  { intros l k x Hk. unfold refs. apply list_elem_of_fmap_2.
    by eapply list_elem_of_lookup_2. }
  assert (forall fuel i state k x,
            NoDup (refs (State.powerups state)) ->
            (k < i)%nat -> State.powerups state !! k = Some x ->
            Powerup.ref x
            ∈ refs (State.powerups (updatePowerups_from fuel i state)))
    as Hpast.
  { intros fuel' i state k x Hnd Hk Hx. apply (Hin _ k).
    rewrite <- (lookup_take_lt _ i) by done.
    rewrite updatePowerups_from_prefix by done.
    by rewrite lookup_take_lt. }
  induction fuel as [|fuel IH]; intros i j state p q Hnd Hp Hq Hij.
  { left. by apply (Hin _ j). }
  destruct (decide (i = S j)) as [->|Hne].
  { left. apply (Hpast _ _ _ j); [done|lia|done]. }
  destruct (State.powerups state !! i) as [x|] eqn:Hx;
    [|left; simpl; rewrite Hx; by apply (Hin _ j)].
  destruct (kept_or_expires x) as [Hkept|Hexp].
  - rewrite (updatePowerups_from_kept _ _ _ x) by done.
    assert (NoDup (refs (<[i:=tick x]> (State.powerups state)))) as Hnd'
      by (erewrite refs_insert; [done..|]; apply tick_ref).
    destruct (decide (i = j)) as [->|Hlt].
    + left. rewrite <- (tick_ref p).
      apply (Hpast _ _ _ j); [done|lia|]. simpl.
      assert (x = p) as -> by congruence.
      apply list_lookup_insert_eq. by eapply lookup_lt_Some.
    + apply (IH (S i) j); [done| | |lia]; simpl.
      * by rewrite list_lookup_insert_ne.
      * by rewrite list_lookup_insert_ne by lia.
  - rewrite (updatePowerups_from_expires _ _ _ x) by done.
    assert (NoDup (refs (delete i (State.powerups state)))) as Hnd'.
    { apply (sublist_NoDup _ (refs (State.powerups state))); [done|].
      unfold refs. apply fmap_sublist, sublist_delete. }
    destruct (decide (i = j)) as [->|Hlt].
    + right. apply (Hpast _ _ _ j); [done|lia|]. simpl.
      by rewrite list_lookup_delete_ge.
    + destruct j as [|j]; [lia|].
      apply (IH (S i) j); [done| | |lia]; simpl.
      * by rewrite list_lookup_delete_ge by lia.
      * by rewrite list_lookup_delete_ge by lia.
Qed.

(** C10, as amended.  In the powerup tick on an array of distinct objects,
    every visit that removes the dormant powerup at the iterator's index [i]
    leaves the powerup that shifts from [i + 1] into [i] as it was (timer
    not decremented, position not advanced): the loop does not visit it.
    So the transition of a running game, the pause key not held, never
    removes two neighbours of the array.  Two dormant neighbours whose
    timers both run out go in two consecutive frames, the first in the
    transition of this frame and the second in the transition of the next,
    when every powerup before them in the array has a timer above 2; without
    that condition the second can be skipped again and stay longer. *)
Theorem expired_powerup_shields_its_successor :
  (forall (fuel i : nat) (state : State.t) (p q : Powerup.t),
     NoDup (refs (State.powerups state)) ->
     State.powerups state !! i = Some p ->
     expires p ->
     State.powerups state !! S i = Some q ->
     State.powerups (updatePowerups_from (S fuel) i state) !! i = Some q) /\
  (forall (oldState : State.t) (inputs : Inputs) (j : nat)
          (p q : Powerup.t),
     State.isPaused oldState = false ->
     "p" ∉ inputs ->
     distinct_objects oldState ->
     State.powerups oldState !! j = Some p ->
     State.powerups oldState !! S j = Some q ->
     let state := (updateState oldState inputs).1 in
     Powerup.ref p ∈ refs (State.powerups state) \/
     Powerup.ref q ∈ refs (State.powerups state)) /\
  (forall (oldState : State.t) (inputs : Inputs) (pre : list Powerup.t)
          (p q : Powerup.t) (post : list Powerup.t),
     State.isPaused oldState = false ->
     "p" ∉ inputs ->
     distinct_objects oldState ->
     State.powerups oldState = pre ++ p :: q :: post ->
     Forall (fun powerup => Powerup.timer powerup > 2) pre ->
     expires p ->
     expires q ->
     let state := (updateState oldState inputs).1 in
     State.powerups state !! length pre = Some q /\
     (Powerup.ref p ∉ refs (State.powerups state)) /\
     forall state1 inputs1 inputs2,
       frame oldState inputs = (Ok state1, inputs1) ->
       "p" ∉ inputs2 ->
       Powerup.ref q ∈ refs (State.powerups state1) /\
       Powerup.ref q ∉ refs (State.powerups (updateState state1 inputs2).1)).
Proof.
  split; [|split].
  - apply updatePowerups_from_skips.
  - intros oldState inputs j p q Hrun Hp Hdistinct Hj HSj. cbv zeta.
    rewrite updateState_running_released by done. cbn [fst].
    rewrite running_steps_powerups.
    apply (updatePowerups_from_one_stays _ 0 j); [|done|done|lia].
    by apply NoDup_app in Hdistinct as [? _].
  - intros oldState inputs pre p q post Hrun Hp Hdistinct Hl Htimers Hexp
      Hexpq.
    assert (Forall kept pre) as Hkept.
    { eapply Forall_impl; [exact Htimers|]. intros x Hx. right. lra. }
    destruct (two_expiries_two_frames oldState inputs pre p q post
                Hrun Hp Hdistinct Hl Hkept Hexp) as (H1 & _ & H2 & H3).
    split; [done|]. split; [done|]. by apply H3.
Qed.

Lemma expired_powerup_shields_its_successor_witness :
  State.powerups (updateState expiring ∅).1 !! 0%nat
  = Some (Powerup.mk 1 expander true None 1).
Proof.
  refine (proj1 (proj2 (proj2 expired_powerup_shields_its_successor)
                   expiring ∅ []
                   (Powerup.mk 0 expander true None 1)
                   (Powerup.mk 1 expander true None 1) [] _ _ _ _ _ _ _)).
  - reflexivity.
  - apply has_false. reflexivity.
  - unfold distinct_objects. simpl.
    apply NoDup_cons. split.
    + intros H%list_elem_of_singleton. discriminate H.
    + apply NoDup_singleton.
  - reflexivity.
  - apply Forall_nil_2.
  - split; [reflexivity|]. simpl. lra.
  - split; [reflexivity|]. simpl. lra.
Defined.

Lemma updatePowerups_expiring :
  updatePowerups expiring =
  State.with_powerups
    (State.with_paddle expiring (Paddle.mk (Pos.mk 250 380) 100 (100 - 10)))
    [Powerup.mk 1 expander true None 1].
Proof. unfold updatePowerups. cbn. rcompare. cbn. rcompare. done. Qed.

Lemma updatePowerups_expiring_next :
  updatePowerups expiring_next =
  State.with_powerups
    (State.with_paddle expiring_next
       (Paddle.mk (Pos.mk 250 380) 99 (90 - 10)))
    [].
Proof. unfold updatePowerups. cbn. rcompare. cbn. rcompare. done. Qed.

Lemma frame_expiring : frame expiring ∅ = (Ok expiring_next, ∅).
Proof.
  unfold frame. rewrite updateState_running_released;
    [|reflexivity|apply has_false; reflexivity].
  unfold running_steps.
  replace (updateServingPaddle expiring expiring ∅) with expiring
    by (unfold updateServingPaddle; keys; done).
  rewrite updatePowerups_expiring.
  match goal with
  | |- context [updateBall ?s ?o] =>
      assert (updateBall s o = expiring_next) as ->
  end.
  { unfold updatePaddle, updateBall. evaluate.
    rewrite cos_PI2, sin_PI2.
    unfold expiring_next, flying, State.with_ball, Ball.with_pos,
      State.with_paddle,
      Paddle.with_width, Rmax.
    simpl. destruct (Rle_dec _ _); repeat f_equal; lra. }
  rewrite detectCollisions_unfold.
  unfold detectBallWallCollision, detectBallBrickCollision,
    detectBallPaddleCollision, detectPowerupPaddleCollision.
  unfold BALL_RADIUS, PADDLE_HEIGHT. evaluate. done.
Qed.

Lemma frame_expiring_next : frame expiring_next ∅ = (Ok expiring_last, ∅).
Proof.
  unfold frame. rewrite updateState_running_released;
    [|reflexivity|apply has_false; reflexivity].
  unfold running_steps.
  replace (updateServingPaddle expiring_next expiring_next ∅)
    with expiring_next
    by (unfold updateServingPaddle; keys; done).
  rewrite updatePowerups_expiring_next.
  match goal with
  | |- context [updateBall ?s ?o] =>
      assert (updateBall s o = expiring_last) as ->
  end.
  { unfold updatePaddle, updateBall. evaluate.
    rewrite cos_PI2, sin_PI2.
    unfold expiring_last, flying, State.with_ball, Ball.with_pos,
      State.with_paddle,
      Paddle.with_width, Rmax.
    simpl. destruct (Rle_dec _ _); repeat f_equal; lra. }
  rewrite detectCollisions_unfold.
  unfold detectBallWallCollision, detectBallBrickCollision,
    detectBallPaddleCollision, detectPowerupPaddleCollision.
  unfold BALL_RADIUS, PADDLE_HEIGHT. evaluate. done.
Qed.

(** *** Skipped twice

    Without the condition on the powerups before the two neighbours, the
    second can wait longer than one frame. *)

Lemma updatePowerups_delayed :
  updatePowerups delayed =
  State.with_powerups
    (State.with_paddle delayed (Paddle.mk (Pos.mk 250 380) 110 (110 - 10)))
    [ Powerup.mk 0 expander true None (2 - 1);
      Powerup.mk 2 expander true None 1 ].
Proof. unfold updatePowerups. repeat (cbn; rcompare). done. Qed.

Lemma updatePowerups_delayed_1 :
  updatePowerups delayed_1 =
  State.with_powerups
    (State.with_paddle delayed_1 (Paddle.mk (Pos.mk 250 380) 109 (100 - 10)))
    [Powerup.mk 2 expander true None 1].
Proof. unfold updatePowerups. repeat (cbn; rcompare). done. Qed.

Lemma updatePowerups_delayed_2 :
  updatePowerups delayed_2 =
  State.with_powerups
    (State.with_paddle delayed_2 (Paddle.mk (Pos.mk 250 380) 108 (90 - 10)))
    [].
Proof. unfold updatePowerups. repeat (cbn; rcompare). done. Qed.

Lemma frame_delayed : frame delayed ∅ = (Ok delayed_1, ∅).
Proof.
  unfold frame. rewrite updateState_running_released;
    [|reflexivity|apply has_false; reflexivity].
  unfold running_steps.
  replace (updateServingPaddle delayed delayed ∅) with delayed
    by (unfold updateServingPaddle; keys; done).
  rewrite updatePowerups_delayed.
  match goal with
  | |- context [updateBall ?s ?o] =>
      assert (updateBall s o = delayed_1) as ->
  end.
  { unfold updatePaddle, updateBall. evaluate.
    rewrite cos_PI2, sin_PI2.
    unfold delayed_1, flying, State.with_ball, Ball.with_pos,
      State.with_paddle, Paddle.with_width, Rmax.
    simpl. destruct (Rle_dec _ _); repeat f_equal; lra. }
  rewrite detectCollisions_unfold.
  unfold detectBallWallCollision, detectBallBrickCollision,
    detectBallPaddleCollision, detectPowerupPaddleCollision.
  unfold BALL_RADIUS, PADDLE_HEIGHT. evaluate. done.
Qed.

Lemma frame_delayed_1 : frame delayed_1 ∅ = (Ok delayed_2, ∅).
Proof.
  unfold frame. rewrite updateState_running_released;
    [|reflexivity|apply has_false; reflexivity].
  unfold running_steps.
  replace (updateServingPaddle delayed_1 delayed_1 ∅) with delayed_1
    by (unfold updateServingPaddle; keys; done).
  rewrite updatePowerups_delayed_1.
  match goal with
  | |- context [updateBall ?s ?o] =>
      assert (updateBall s o = delayed_2) as ->
  end.
  { unfold updatePaddle, updateBall. evaluate.
    rewrite cos_PI2, sin_PI2.
    unfold delayed_2, flying, State.with_ball, Ball.with_pos,
      State.with_paddle, Paddle.with_width, Rmax.
    simpl. destruct (Rle_dec _ _); repeat f_equal; lra. }
  rewrite detectCollisions_unfold.
  unfold detectBallWallCollision, detectBallBrickCollision,
    detectBallPaddleCollision, detectPowerupPaddleCollision.
  unfold BALL_RADIUS, PADDLE_HEIGHT. evaluate. done.
Qed.

Lemma frame_delayed_2 : frame delayed_2 ∅ = (Ok delayed_3, ∅).
Proof.
  unfold frame. rewrite updateState_running_released;
    [|reflexivity|apply has_false; reflexivity].
  unfold running_steps.
  replace (updateServingPaddle delayed_2 delayed_2 ∅) with delayed_2
    by (unfold updateServingPaddle; keys; done).
  rewrite updatePowerups_delayed_2.
  match goal with
  | |- context [updateBall ?s ?o] =>
      assert (updateBall s o = delayed_3) as ->
  end.
  { unfold updatePaddle, updateBall. evaluate.
    rewrite cos_PI2, sin_PI2.
    unfold delayed_3, flying, State.with_ball, Ball.with_pos,
      State.with_paddle, Paddle.with_width, Rmax.
    simpl. destruct (Rle_dec _ _); repeat f_equal; lra. }
  rewrite detectCollisions_unfold.
  unfold detectBallWallCollision, detectBallBrickCollision,
    detectBallPaddleCollision, detectPowerupPaddleCollision.
  unfold BALL_RADIUS, PADDLE_HEIGHT. evaluate. done.
Qed.

(** C10 fails as stated: the powerups at the indices 1 and 2 of [delayed]
    are dormant neighbours whose timers both run out on the first frame,
    behind a powerup that has two frames left.  The first frame removes the
    one at index 1 and skips the other; the second frame removes the powerup
    at index 0, and the other is skipped again; it goes on the third frame.
    The two are not removed in two consecutive frames. *)
Lemma skipped_twice_expires_on_the_third_frame :
  State.powerups delayed !! 1%nat
  = Some (Powerup.mk 1 expander true None 1) /\
  State.powerups delayed !! 2%nat
  = Some (Powerup.mk 2 expander true None 1) /\
  expires (Powerup.mk 1 expander true None 1) /\
  expires (Powerup.mk 2 expander true None 1) /\
  distinct_objects delayed /\
  frame delayed ∅ = (Ok delayed_1, ∅) /\
  frame delayed_1 ∅ = (Ok delayed_2, ∅) /\
  frame delayed_2 ∅ = (Ok delayed_3, ∅) /\
  refs (State.powerups delayed_1) = [0; 2]%nat /\
  refs (State.powerups delayed_2) = [2]%nat /\
  refs (State.powerups delayed_3) = [].
Proof.
  split; [reflexivity|]. split; [reflexivity|].
  split; [split; [reflexivity|simpl; lra]|].
  split; [split; [reflexivity|simpl; lra]|].
  split.
  { unfold distinct_objects. simpl.
    repeat constructor; rewrite ?elem_of_cons, ?elem_of_nil; intros H;
      repeat destruct H as [H|H]; done. }
  split; [apply frame_delayed|]. split; [apply frame_delayed_1|].
  split; [apply frame_delayed_2|]. done.
Qed.

(** ** Further facts about the serving ball *)

Lemma updateState_fallen : updateState fallen ∅ = (fallen_moved, ∅).
Proof.
  unfold fallen, fallen_moved.
  rewrite updateState_flying by (simpl; lra). straight.
Qed.

Lemma detectCollisions_fallen :
  detectCollisions fallen_moved fallen = [BallWall Bottom].
Proof.
  rewrite detectCollisions_unfold.
  unfold detectBallWallCollision, detectBallBrickCollision,
    detectBallPaddleCollision, detectPowerupPaddleCollision.
  unfold BALL_RADIUS, PADDLE_HEIGHT. evaluate. done.
Qed.

(** The frame in which the bottom wall is met ends in a serving state whose
    ball still has its speed and is where it fell. *)
Lemma serving_after_bottom_wall :
  frame fallen ∅ = (Ok (State.with_isServing fallen_moved true), ∅) /\
  Ball.speed (State.ball (State.with_isServing fallen_moved true)) = 5.
Proof.
  unfold frame. rewrite updateState_fallen, detectCollisions_fallen. done.
Qed.

(** No handler writes the ball's speed. *)
Lemma handleCollision_speed c state oldState state' :
  handleCollision c state oldState = Ok state' ->
  Ball.speed (State.ball state') = Ball.speed (State.ball state).
Proof.
  destruct c as [|wall|index side|powerup]; simpl.
  - by intros [= <-].
  - intros [= <-]. by destruct wall.
  - unfold handleBallBrickCollision.
    set (s := match side with
              | Left | Right =>
                  reflectHorizontally state (State.ball oldState)
              | Top | Bottom => reflectVertically state (State.ball oldState)
              end).
    assert (Ball.speed (State.ball s) = Ball.speed (State.ball state)) as <-
      by (subst s; by destruct side).
    destruct (State.bricks s !! index) as [brick|]; [|done].
    by destruct (Brick.powerup brick); intros [= <-].
  - intros [= <-]. unfold handlePowerupPaddleCollision.
    by destruct (Powerup.type powerup).
Qed.

Lemma handleCollisions_speed cs state oldState state' :
  handleCollisions cs state oldState = Ok state' ->
  Ball.speed (State.ball state') = Ball.speed (State.ball state).
Proof.
  revert state. induction cs as [|c cs IH]; intros state; simpl.
  - by intros [= <-].
  - unfold bind.
    destruct (handleCollision c state oldState) as [s1|] eqn:H1; [|done].
    intros H. rewrite (IH _ H). by eapply handleCollision_speed.
Qed.

(** A frame whose transition leaves a running, serving game ends with the
    ball at rest, whatever is resolved: the old state of a launch frame
    that follows it has speed 0. *)
Lemma serving_frame_ball_at_rest oldState inputs state' inputs' :
  State.isPaused (updateState oldState inputs).1 = false ->
  State.isServing (updateState oldState inputs).1 = true ->
  frame oldState inputs = (Ok state', inputs') ->
  Ball.speed (State.ball state') = 0.
Proof.
  intros Hrun Hserving. unfold frame.
  destruct (updateState oldState inputs) as [state i] eqn:E.
  intros [= H _]. rewrite (handleCollisions_speed _ _ _ _ H).
  pose proof (updateState_running oldState inputs) as Hr.
  destruct (State.isPaused (updatePause oldState inputs).1) eqn:Hp.
  { rewrite updateState_paused in E by done. rewrite E in Hp.
    simpl in *. congruence. }
  rewrite Hr in E by done.
  destruct (updatePause oldState inputs) as [s1 i1].
  injection E as <- <-. simpl in Hserving.
  rewrite updateBall_isServing in Hserving.
  unfold updateBall. by rewrite Hserving.
Qed.

(** ** The example scenario of the specification *)

Lemma updateState_scenario : updateState scenario ∅ = (scenario_moved, ∅).
Proof.
  unfold scenario, scenario_moved.
  rewrite updateState_flying by (simpl; lra). straight.
Qed.

(** After one frame the ball's [y] is 95 and the record of the hit says
    left: the old ball's top edge (92.5) is above the brick's bottom edge
    (105), its bottom edge (107.5) below the brick's top edge (80), its left
    edge (92.5) left of the brick's right edge (125). *)
Lemma scenario_reports_left :
  detectCollisions scenario_moved scenario = [BallBrick 0 Left].
Proof.
  rewrite detectCollisions_unfold.
  unfold detectBallWallCollision, detectBallBrickCollision,
    detectBallPaddleCollision, detectPowerupPaddleCollision,
    detectBallBrick_loop, detectBallBrick_at.
  unfold BALL_RADIUS, BRICK_HEIGHT, BRICK_WIDTH, PADDLE_HEIGHT.
  evaluate. done.
Qed.

(** * Further properties of the engine *)

(** ** The transition and the frame, taken apart *)

(** A frame that ends without an exception is a transition followed by the
    resolution of what the detectors report. *)
Lemma frame_Ok oldState inputs state' inputs' :
  frame oldState inputs = (Ok state', inputs') ->
  exists state,
    updateState oldState inputs = (state, inputs') /\
    handleCollisions (detectCollisions state oldState) state oldState
    = Ok state'.
Proof.
  unfold frame. destruct (updateState oldState inputs) as [state i].
  intros [= H <-]. by exists state.
Qed.

(** The transition is the pause toggle alone, or the toggle and the
    steps of a running game. *)
Lemma updateState_cases oldState inputs :
  let toggled := updatePause oldState inputs in
  (State.isPaused toggled.1 = true /\
   updateState oldState inputs = toggled) \/
  (State.isPaused toggled.1 = false /\
   updateState oldState inputs
   = (running_steps toggled.1 oldState toggled.2, toggled.2)).
Proof.
  cbv zeta. destruct (State.isPaused (updatePause oldState inputs).1) eqn:E.
  - left. split; [done|]. by apply updateState_paused.
  - right. split; [done|]. rewrite updateState_running by done.
    by destruct (updatePause oldState inputs).
Qed.

(** The transition adds no powerup to the array... *)
Lemma updateState_powerups oldState inputs :
  refs (State.powerups (updateState oldState inputs).1)
  `sublist_of` refs (State.powerups oldState).
Proof.
  pose proof (updatePause_fields oldState inputs)
    as (_ & _ & _ & _ & _ & Hpow).
  destruct (updateState_cases oldState inputs) as [[_ ->] | [_ ->]].
  - by rewrite Hpow.
  - cbn [fst]. rewrite running_steps_powerups, <- Hpow.
    apply updatePowerups_from_refs.
Qed.

(** ... leaves the bricks alone... *)
Lemma updateState_bricks oldState inputs :
  State.bricks (updateState oldState inputs).1 = State.bricks oldState.
Proof.
  pose proof (updatePause_fields oldState inputs)
    as (_ & _ & _ & _ & Hbricks & _).
  destruct (updateState_cases oldState inputs) as [[_ ->] | [_ ->]].
  - done.
  - cbn [fst]. by rewrite running_steps_bricks.
Qed.

(** ... and keeps the objects distinct, as a whole frame does. *)
Lemma updateState_distinct oldState inputs :
  distinct_objects oldState ->
  distinct_objects (updateState oldState inputs).1.
Proof.
  unfold distinct_objects. intros Hnd. rewrite updateState_bricks.
  eapply sublist_NoDup; [done|].
  apply sublist_app; [|done]. apply updateState_powerups.
Qed.

Lemma frame_distinct oldState inputs state' inputs' :
  distinct_objects oldState ->
  frame oldState inputs = (Ok state', inputs') ->
  distinct_objects state'.
Proof.
  intros Hnd (state & Hstate & H)%frame_Ok.
  eapply handleCollisions_distinct; [done|].
  replace state with (updateState oldState inputs).1 by by rewrite Hstate.
  by apply updateState_distinct.
Qed.

(** *** What no frame changes *)

Lemma updateBall_score state oldState :
  State.score (updateBall state oldState) = State.score state.
Proof.
  unfold updateBall. destruct (State.isServing state); [done|].
  by case_bool_decide.
Qed.

Lemma updatePaddle_score state oldState inputs :
  State.score (updatePaddle state oldState inputs) = State.score state.
Proof.
  unfold updatePaddle. cbv zeta.
  repeat case_bool_decide; by repeat destruct (has _ _).
Qed.

Lemma updatePaddle_y state oldState inputs :
  Pos.y (Paddle.pos (State.paddle (updatePaddle state oldState inputs)))
  = Pos.y (Paddle.pos (State.paddle state)).
Proof.
  unfold updatePaddle. cbv zeta.
  repeat case_bool_decide; by repeat destruct (has _ _).
Qed.

Lemma updatePaddle_desiredWidth state oldState inputs :
  Paddle.desiredWidth (State.paddle (updatePaddle state oldState inputs))
  = Paddle.desiredWidth (State.paddle state).
Proof.
  unfold updatePaddle. cbv zeta.
  repeat case_bool_decide; by repeat destruct (has _ _).
Qed.

Lemma updatePause_score oldState inputs :
  State.score (updatePause oldState inputs).1 = State.score oldState.
Proof. unfold updatePause. by destruct (has _ _). Qed.

Lemma updateServingPaddle_score state oldState inputs :
  State.score (updateServingPaddle state oldState inputs) = State.score state.
Proof. unfold updateServingPaddle. by destruct (_ && _). Qed.

Lemma running_steps_constants state oldState inputs :
  let state' := running_steps state oldState inputs in
  State.score state' = State.score state /\
  State.boundaries state' = State.boundaries state /\
  Pos.y (Paddle.pos (State.paddle state'))
  = Pos.y (Paddle.pos (State.paddle state)).
Proof.
  cbv zeta. unfold running_steps.
  pose proof (updateServingPaddle_fields state oldState inputs)
    as (_ & Hb & _ & Hp & _ & _).
  pose proof (updatePowerups_same (updateServingPaddle state oldState inputs))
    as Hsame.
  rewrite updateBall_score, updatePaddle_score, (sbp_score _ _ Hsame),
    updateServingPaddle_score.
  rewrite updateBall_boundaries, updatePaddle_boundaries,
    (sbp_boundaries _ _ Hsame), Hb.
  rewrite updateBall_paddle, updatePaddle_y, (sbp_pos _ _ Hsame), Hp.
  done.
Qed.

Lemma handleCollision_constants c state oldState state' :
  handleCollision c state oldState = Ok state' ->
  State.score state' = State.score state /\
  State.boundaries state' = State.boundaries state /\
  Paddle.pos (State.paddle state') = Paddle.pos (State.paddle state) /\
  Paddle.width (State.paddle state') = Paddle.width (State.paddle state).
Proof.
  destruct c as [|wall|index side|powerup]; simpl.
  - by intros [= <-].
  - intros [= <-]. by destruct wall.
  - unfold handleBallBrickCollision.
    set (s := match side with
              | Left | Right =>
                  reflectHorizontally state (State.ball oldState)
              | Top | Bottom => reflectVertically state (State.ball oldState)
              end).
    assert (State.score s = State.score state /\
            State.boundaries s = State.boundaries state /\
            State.paddle s = State.paddle state) as (<- & <- & <-)
      by (subst s; by destruct side).
    destruct (State.bricks s !! index) as [brick|]; [|done].
    by destruct (Brick.powerup brick); intros [= <-].
  - intros [= <-]. unfold handlePowerupPaddleCollision.
    by destruct (Powerup.type powerup).
Qed.

Lemma handleCollisions_constants cs state oldState state' :
  handleCollisions cs state oldState = Ok state' ->
  State.score state' = State.score state /\
  State.boundaries state' = State.boundaries state /\
  Paddle.pos (State.paddle state') = Paddle.pos (State.paddle state) /\
  Paddle.width (State.paddle state') = Paddle.width (State.paddle state).
Proof.
  revert state. induction cs as [|c cs IH]; intros state; simpl.
  - by intros [= <-].
  - unfold bind.
    destruct (handleCollision c state oldState) as [s1|] eqn:H1; [|done].
    intros (-> & -> & -> & ->)%IH. by eapply handleCollision_constants.
Qed.

(** The score, the boundaries and the height at which the paddle stands
    are those of the old state. *)
Lemma frame_constants oldState inputs state' inputs' :
  frame oldState inputs = (Ok state', inputs') ->
  State.score state' = State.score oldState /\
  State.boundaries state' = State.boundaries oldState /\
  Pos.y (Paddle.pos (State.paddle state'))
  = Pos.y (Paddle.pos (State.paddle oldState)).
Proof.
  intros (state & Hstate & (-> & -> & -> & _)%handleCollisions_constants)
    %frame_Ok.
  pose proof (updatePause_fields oldState inputs)
    as (_ & Hb & _ & Hp & _ & _).
  pose proof (updatePause_score oldState inputs) as Hs.
  destruct (updateState_cases oldState inputs) as [[_ E] | [_ E]];
    rewrite E in Hstate.
  - destruct (updatePause oldState inputs) as [s i].
    injection Hstate as <- <-. simpl in *. by rewrite Hs, Hb, Hp.
  - injection Hstate as <- <-.
    destruct (running_steps_constants (updatePause oldState inputs).1
                oldState (updatePause oldState inputs).2) as (-> & -> & ->).
    by rewrite Hs, Hb, Hp.
Qed.

(** *** The speed of the ball *)

Lemma running_steps_speed state oldState inputs :
  State.ball state = State.ball oldState ->
  let speed := Ball.speed (State.ball (running_steps state oldState inputs)) in
  speed = Ball.speed (State.ball oldState) \/ speed = 0 \/ speed = BALL_SPEED.
Proof.
  intros Hball. cbv zeta. unfold running_steps.
  set (s := updatePaddle _ _ _).
  assert (State.ball s = State.ball oldState) as Hs.
  { subst s. rewrite updatePaddle_ball, (sbp_ball _ _ (updatePowerups_same _)).
    by destruct (updateServingPaddle_fields state oldState inputs)
      as (_ & _ & -> & _). }
  unfold updateBall. destruct (State.isServing s); [by right; left|].
  case_bool_decide; simpl; [by right; right|]. left. by rewrite Hs.
Qed.

(** A frame leaves the ball its speed, stops it (serving) or gives it
    [BALL_SPEED] (launch). *)
Lemma frame_speed oldState inputs state' inputs' :
  frame oldState inputs = (Ok state', inputs') ->
  Ball.speed (State.ball state') = Ball.speed (State.ball oldState) \/
  Ball.speed (State.ball state') = 0 \/
  Ball.speed (State.ball state') = BALL_SPEED.
Proof.
  intros (state & Hstate & ->%handleCollisions_speed)%frame_Ok.
  pose proof (updatePause_fields oldState inputs)
    as (_ & _ & Hball & _ & _ & _).
  destruct (updateState_cases oldState inputs) as [[_ E] | [_ E]];
    rewrite E in Hstate.
  - destruct (updatePause oldState inputs) as [s i].
    injection Hstate as <- <-. simpl in *. left. by rewrite Hball.
  - injection Hstate as <- <-. by apply running_steps_speed.
Qed.

(** ** The bricks of the initial state *)

(** The two loops of [createState] fill the array row by row. *)
Lemma createState_bricks canvas random :
  State.bricks (createState canvas random)
  = brick_at random <$> seq 0 (BRICK_ROWS * BRICK_COLS).
Proof. reflexivity. Qed.

Lemma createState_brick canvas random k b :
  State.bricks (createState canvas random) !! k = Some b ->
  (k < BRICK_ROWS * BRICK_COLS)%nat /\ b = brick_at random k.
Proof.
  rewrite createState_bricks, list_lookup_fmap.
  destruct (seq _ _ !! k) as [k'|] eqn:E; [|done].
  apply lookup_seq in E as [-> ?]. simpl. intros [= <-]. done.
Qed.

Lemma INR_apart (m n : nat) : (m < n)%nat -> INR m + 1 <= INR n.
Proof. intros H. rewrite <- S_INR. apply le_INR. lia. Qed.

(** X1.  No two bricks of the initial state touch: whatever the canvas and
    the samples of [Math.random()], two bricks at different indices of the
    array that [createState] builds are separated by a gap of at least 10,
    horizontally (bricks of one row) or vertically (bricks of two rows). *)
Theorem createState_bricks_apart canvas random i j b b' :
  i <> j ->
  State.bricks (createState canvas random) !! i = Some b ->
  State.bricks (createState canvas random) !! j = Some b' ->
  Pos.x (Brick.pos b) + BRICK_WIDTH / 2 + 10
    <= Pos.x (Brick.pos b') - BRICK_WIDTH / 2 \/
  Pos.x (Brick.pos b') + BRICK_WIDTH / 2 + 10
    <= Pos.x (Brick.pos b) - BRICK_WIDTH / 2 \/
  Pos.y (Brick.pos b) + BRICK_HEIGHT / 2 + 10
    <= Pos.y (Brick.pos b') - BRICK_HEIGHT / 2 \/
  Pos.y (Brick.pos b') + BRICK_HEIGHT / 2 + 10
    <= Pos.y (Brick.pos b) - BRICK_HEIGHT / 2.
Proof.
  intros Hij [Hi ->]%createState_brick [Hj ->]%createState_brick.
  unfold brick_at, BRICK_WIDTH, BRICK_HEIGHT.
  cbn [Brick.pos Pos.x Pos.y].
  assert (Hc : (BRICK_COLS <> 0)%nat) by (unfold BRICK_COLS; lia).
  pose proof (Nat.div_mod i BRICK_COLS Hc) as Ei.
  pose proof (Nat.div_mod j BRICK_COLS Hc) as Ej.
  destruct (lt_eq_lt_dec (i / BRICK_COLS) (j / BRICK_COLS)) as [[H|H]|H].
  - apply INR_apart in H. right; right; left. lra.
  - destruct (lt_eq_lt_dec (i mod BRICK_COLS) (j mod BRICK_COLS))
      as [[H'|H']|H'].
    + apply INR_apart in H'. left. lra.
    + exfalso. apply Hij. rewrite Ei, Ej. by rewrite H, H'.
    + apply INR_apart in H'. right; left. lra.
  - apply INR_apart in H. right; right; right. lra.
Qed.

Lemma createState_bricks_apart_witness :
  Pos.x (Brick.pos (brick_at no_powerup 0)) + BRICK_WIDTH / 2 + 10
    <= Pos.x (Brick.pos (brick_at no_powerup 1)) - BRICK_WIDTH / 2 \/
  Pos.x (Brick.pos (brick_at no_powerup 1)) + BRICK_WIDTH / 2 + 10
    <= Pos.x (Brick.pos (brick_at no_powerup 0)) - BRICK_WIDTH / 2 \/
  Pos.y (Brick.pos (brick_at no_powerup 0)) + BRICK_HEIGHT / 2 + 10
    <= Pos.y (Brick.pos (brick_at no_powerup 1)) - BRICK_HEIGHT / 2 \/
  Pos.y (Brick.pos (brick_at no_powerup 1)) + BRICK_HEIGHT / 2 + 10
    <= Pos.y (Brick.pos (brick_at no_powerup 0)) - BRICK_HEIGHT / 2.
Proof.
  apply (createState_bricks_apart canvas no_powerup 0 1).
  - lia.
  - reflexivity.
  - reflexivity.
Defined.

(** [randomPowerup] makes a new object at each call: the objects in the
    bricks are distinct. *)
Lemma brick_refs_fresh random l :
  brick_refs (brick_at random <$> l) `sublist_of` l.
Proof.
  induction l as [|k l IH]; [done|].
  unfold brick_refs in *. simpl. unfold randomPowerup at 1.
  case_bool_decide; simpl.
  - by apply sublist_cons.
  - by apply sublist_skip.
Qed.

Lemma createState_distinct canvas random :
  distinct_objects (createState canvas random).
Proof.
  unfold distinct_objects. rewrite createState_bricks.
  change (State.powerups (createState canvas random)) with (@nil Powerup.t).
  rewrite app_nil_l. eapply sublist_NoDup; [|apply brick_refs_fresh].
  apply NoDup_seq.
Qed.

(** ** The brick records of a frame *)

Lemma brick_indices_app cs cs' :
  brick_indices (cs ++ cs') = brick_indices cs ++ brick_indices cs'.
Proof. apply omap_app. Qed.

Lemma brick_indices_none cs :
  (forall c, c ∈ cs -> brick_index c = None) -> brick_indices cs = [].
Proof.
  induction cs as [|c cs IH]; intros H; [done|].
  unfold brick_indices in *. simpl. rewrite (H c) by apply list_elem_of_here.
  apply IH. intros c' Hc'. apply H. by apply list_elem_of_further.
Qed.

Lemma brick_indices_loop ball oldBall index bricks :
  brick_indices (detectBallBrick_loop ball oldBall index bricks)
  `sublist_of` seq index (length bricks).
Proof.
  revert index. induction bricks as [|b bricks IH]; intros index; [done|].
  simpl. rewrite brick_indices_app. unfold detectBallBrick_at.
  destruct (_ && _); simpl.
  - apply sublist_skip, IH.
  - apply sublist_cons, IH.
Qed.

Lemma brick_indices_detectCollisions state oldState :
  brick_indices (detectCollisions state oldState)
  = brick_indices (detectBallBrickCollision state oldState).
Proof.
  rewrite detectCollisions_unfold, !brick_indices_app.
  rewrite (brick_indices_none (detectBallWallCollision _ _)),
    (brick_indices_none (detectBallPaddleCollision _ _)),
    (brick_indices_none (detectPowerupPaddleCollision _ _)).
  - by rewrite app_nil_r.
  - by intros c (p & _ & ->)%detectPowerupPaddleCollision_elem.
  - by intros c ->%detectBallPaddleCollision_elem.
  - by intros c [wall ->]%detectBallWallCollision_wall.
Qed.

(** X2.  The brick records of a collision set name indices of the brick
    array of the state that was searched, in strictly increasing order: no
    index is out of range when the set is built and no brick is reported
    twice. *)
Theorem detected_bricks_in_order state oldState :
  brick_indices (detectCollisions state oldState)
  `sublist_of` seq 0 (length (State.bricks state)).
Proof.
  rewrite brick_indices_detectCollisions. apply brick_indices_loop.
Qed.

(** One record: a brick record removes the brick at its index, which is in
    range when the handler returns; the other records leave the bricks
    alone. *)
Lemma handleCollision_bricks c state oldState state' :
  handleCollision c state oldState = Ok state' ->
  match brick_index c with
  | Some index =>
      (index < length (State.bricks state))%nat /\
      State.bricks state' = delete index (State.bricks state)
  | None => State.bricks state' = State.bricks state
  end.
Proof.
  destruct c as [|wall|index side|powerup]; simpl.
  - by intros [= <-].
  - intros [= <-]. by destruct wall.
  - intros H.
    pose proof (handleBallBrickCollision_bricks index side state oldState)
      as Hb.
    by rewrite H in Hb.
  - intros [= <-]. unfold handlePowerupPaddleCollision.
    by destruct (Powerup.type powerup).
Qed.

Lemma handleCollisions_bricks cs state oldState state' :
  handleCollisions cs state oldState = Ok state' ->
  State.bricks state' `sublist_of` State.bricks state /\
  (length (State.bricks state') + length (brick_indices cs))%nat
  = length (State.bricks state).
Proof.
  revert state. induction cs as [|c cs IH]; intros state; simpl.
  - by intros [= <-].
  - unfold bind.
    destruct (handleCollision c state oldState) as [s1|] eqn:H1; [|done].
    intros [Hsub Hlen]%IH. apply handleCollision_bricks in H1.
    unfold brick_indices in *. simpl.
    destruct (brick_index c) as [index|].
    + destruct H1 as [Hi H1]. rewrite H1 in Hsub, Hlen. split.
      * etrans; [exact Hsub|]. apply sublist_delete.
      * rewrite length_delete in Hlen by by apply lookup_lt_is_Some.
        simpl. lia.
    + by rewrite H1 in Hsub, Hlen.
Qed.

(** No frame adds or moves a brick, and a frame that ends without an
    exception removes one brick for each brick record. *)
Lemma frame_bricks oldState inputs state' inputs' :
  frame oldState inputs = (Ok state', inputs') ->
  State.bricks state' `sublist_of` State.bricks oldState /\
  (length (State.bricks state')
   + length (brick_indices
               (detectCollisions (updateState oldState inputs).1 oldState)))%nat
  = length (State.bricks oldState).
Proof.
  intros (state & Hstate & H)%frame_Ok. rewrite Hstate. cbn [fst].
  apply handleCollisions_bricks in H.
  replace (State.bricks state) with (State.bricks oldState) in H; [done|].
  by rewrite <- (updateState_bricks oldState inputs), Hstate.
Qed.

(** The handlers other than the brick handler return. *)
Lemma handleCollision_other c state oldState :
  brick_index c = None ->
  exists state', handleCollision c state oldState = Ok state'.
Proof. destruct c; [by eexists..|done|by eexists]. Qed.

Lemma handleCollisions_no_brick cs state oldState :
  brick_indices cs = [] ->
  exists state',
    handleCollisions cs state oldState = Ok state' /\
    State.bricks state' = State.bricks state.
Proof.
  revert state. induction cs as [|c cs IH]; intros state; simpl.
  - by exists state.
  - unfold brick_indices. simpl.
    destruct (brick_index c) eqn:E; [done|]. intros Hcs.
    destruct (handleCollision_other c state oldState E) as [s1 H1].
    rewrite H1. simpl. destruct (IH s1 Hcs) as (state' & -> & Hb).
    exists state'. split; [done|]. rewrite Hb.
    apply handleCollision_bricks in H1. by rewrite E in H1.
Qed.

Lemma handleCollisions_one_brick cs state oldState index :
  brick_indices cs = [index] ->
  (index < length (State.bricks state))%nat ->
  exists state',
    handleCollisions cs state oldState = Ok state' /\
    State.bricks state' = delete index (State.bricks state).
Proof.
  revert state. induction cs as [|c cs IH]; intros state; [done|].
  unfold brick_indices. simpl.
  destruct (brick_index c) as [i|] eqn:E.
  - intros [= -> Hcs] Hi. destruct c; try done. injection E as ->.
    simpl.
    pose proof (handleBallBrickCollision_bricks index side state oldState)
      as Hb.
    destruct (handleBallBrickCollision index side state oldState)
      as [s1|]; [|lia].
    destruct Hb as [_ Hb]. simpl.
    destruct (handleCollisions_no_brick cs s1 oldState Hcs)
      as (state' & -> & Hb').
    exists state'. by rewrite Hb', Hb.
  - intros Hcs Hi.
    destruct (handleCollision_other c state oldState E) as [s1 H1].
    rewrite H1. simpl.
    apply handleCollision_bricks in H1. rewrite E in H1.
    destruct (IH s1 Hcs) as (state' & -> & Hb); [by rewrite H1|].
    exists state'. by rewrite Hb, H1.
Qed.

Lemma detectCollisions_rising :
  detectCollisions rising_moved rising = [BallBrick 0 Bottom].
Proof.
  rewrite detectCollisions_unfold.
  unfold detectBallWallCollision, detectBallBrickCollision,
    detectBallPaddleCollision, detectPowerupPaddleCollision,
    detectBallBrick_loop, detectBallBrick_at.
  unfold BALL_RADIUS, BRICK_HEIGHT, BRICK_WIDTH, PADDLE_HEIGHT.
  evaluate. done.
Qed.

(** X3.  A frame in which exactly one brick is reported ends without an
    exception, and its brick array is the old one without the brick at the
    reported index, whatever else is reported in that frame. *)
Theorem single_brick_hit oldState inputs index :
  brick_indices (detectCollisions (updateState oldState inputs).1 oldState)
  = [index] ->
  exists state',
    (frame oldState inputs).1 = Ok state' /\
    (index < length (State.bricks oldState))%nat /\
    State.bricks state' = delete index (State.bricks oldState).
Proof.
  intros Hone.
  pose proof (brick_indices_loop
                (State.ball (updateState oldState inputs).1)
                (State.ball oldState) 0
                (State.bricks (updateState oldState inputs).1)) as Hin.
  fold (detectBallBrickCollision (updateState oldState inputs).1 oldState)
    in Hin.
  rewrite <- brick_indices_detectCollisions, Hone, updateState_bricks in Hin.
  assert (index < length (State.bricks oldState))%nat as Hi.
  { assert (index ∈ seq 0 (length (State.bricks oldState))) as H.
    { by apply singleton_sublist_l. }
    apply elem_of_seq in H. lia. }
  unfold frame. destruct (updateState oldState inputs) as [state i] eqn:E.
  cbn [fst] in *.
  assert (State.bricks state = State.bricks oldState) as Hb
    by by rewrite <- (updateState_bricks oldState inputs), E.
  destruct (handleCollisions_one_brick _ state oldState index Hone)
    as (state' & H & Hd); [by rewrite Hb|].
  exists state'. cbv beta iota. cbn [fst]. by rewrite <- Hb at 2.
Qed.

Lemma single_brick_hit_witness :
  exists state',
    (frame rising ∅).1 = Ok state' /\
    (0 < length (State.bricks rising))%nat /\
    State.bricks state' = delete 0%nat (State.bricks rising).
Proof.
  apply (single_brick_hit rising ∅ 0).
  rewrite updateState_rising. cbn [fst].
  by rewrite detectCollisions_rising.
Defined.

Lemma detectCollisions_falling : detectCollisions falling_moved falling = [].
Proof.
  rewrite detectCollisions_unfold.
  unfold detectBallWallCollision, detectBallBrickCollision,
    detectBallPaddleCollision, detectPowerupPaddleCollision.
  unfold BALL_RADIUS, PADDLE_HEIGHT. evaluate. done.
Qed.

(** X4.  A frame in which no brick is reported ends without an exception
    and leaves the brick array as it was: only the brick handler can
    throw. *)
Theorem no_brick_hit oldState inputs :
  brick_indices (detectCollisions (updateState oldState inputs).1 oldState)
  = [] ->
  exists state',
    (frame oldState inputs).1 = Ok state' /\
    State.bricks state' = State.bricks oldState.
Proof.
  intros Hnone. unfold frame.
  destruct (updateState oldState inputs) as [state i] eqn:E. cbn [fst] in *.
  destruct (handleCollisions_no_brick _ state oldState Hnone)
    as (state' & H & Hb).
  exists state'. cbv beta iota. cbn [fst]. split; [done|].
  by rewrite Hb, <- (updateState_bricks oldState inputs), E.
Qed.

Lemma no_brick_hit_witness :
  exists state',
    (frame falling ∅).1 = Ok state' /\
    State.bricks state' = State.bricks falling.
Proof.
  apply (no_brick_hit falling ∅).
  rewrite updateState_falling. cbn [fst].
  by rewrite detectCollisions_falling.
Defined.

(** ** The frame loop *)

Lemma frame_fst oldState inputs state' :
  (frame oldState inputs).1 = Ok state' ->
  frame oldState inputs = (Ok state', (frame oldState inputs).2).
Proof. destruct (frame oldState inputs) as [r i]. simpl. by intros ->. Qed.

(** What holds of a state and is kept by every frame holds after the
    loop. *)
Lemma frames_invariant (P : State.t -> Prop) :
  (forall oldState inputs state' inputs',
     P oldState -> frame oldState inputs = (Ok state', inputs') ->
     P state') ->
  forall collected oldState state',
    P oldState -> frames collected oldState = Ok state' -> P state'.
Proof.
  intros Hframe. induction collected as [|inputs collected IH];
    intros oldState state' HP; simpl.
  - by intros [= <-].
  - unfold bind. destruct (frame oldState inputs).1 as [s1|] eqn:E; [|done].
    apply IH. eapply Hframe; [exact HP|]. by apply frame_fst.
Qed.

(** *** An opening frame

    Every brick holds a powerup and the space bar is held on the first
    frame: the ball leaves its initial place among the bricks of the top
    row, and overlaps two of them. *)

Lemma updateState_loaded :
  updateState loaded {[" "]} = (loaded_moved, {[" "]}).
Proof.
  rewrite updateState_running_released;
    [|reflexivity|apply has_false; reflexivity].
  f_equal. unfold running_steps.
  unfold updateServingPaddle. keys.
  change (State.isServing loaded && true) with true. cbv iota.
  change (updatePowerups (State.with_isServing loaded false))
    with (State.with_isServing loaded false).
  unfold updatePaddle. cbv zeta. keys.
  rewrite !bool_decide_eq_false_2 by (simpl; lra).
  unfold updateBall. cbn [State.isServing State.with_isServing].
  rewrite bool_decide_eq_false_2 by (simpl; lra).
  reflexivity.
Qed.

Lemma sqrt3_bounds : 0 < sqrt 3 < 2.
Proof.
  split; [apply sqrt_lt_R0; lra|].
  replace 2 with (sqrt 4).
  - apply sqrt_lt_1; lra.
  - replace 4 with (2 * 2) by lra. apply sqrt_square. lra.
Qed.

(** A ball whose bottom edge is above the second row hits no brick below
    the first row. *)
Lemma detectBallBrick_loop_above ball oldBall random l :
  forall index,
    Pos.y (Ball.pos ball) + BALL_RADIUS <= 62.5 ->
    Forall (fun k => (BRICK_COLS <= k)%nat) l ->
    detectBallBrick_loop ball oldBall index (brick_at random <$> l) = [].
Proof.
  induction l as [|k l IH]; intros index Hy Hl; [done|].
  apply Forall_cons in Hl as [Hk Hl]. simpl. rewrite IH by done.
  rewrite app_nil_r. unfold detectBallBrick_at. cbv zeta.
  rewrite (bool_decide_eq_false_2 (Pos.y _ + BALL_RADIUS > _)).
  - by rewrite andb_false_r.
  - unfold brick_at, BRICK_HEIGHT. cbn [Brick.pos Pos.y].
    assert (1 <= INR (k / BRICK_COLS)).
    { change 1 with (INR 1). apply le_INR.
      apply Nat.div_le_lower_bound; unfold BRICK_COLS in *; lia. }
    lra.
Qed.

Lemma detectCollisions_loaded :
  detectCollisions loaded_moved loaded = [BallBrick 3 Left; BallBrick 4 Left].
Proof.
  pose proof sqrt3_bounds as Hsqrt.
  rewrite detectCollisions_unfold.
  assert (detectBallWallCollision loaded_moved loaded = []) as ->.
  { unfold detectBallWallCollision. cbn.
    unfold BALL_RADIUS, PADDLE_OFFSET_Y, PADDLE_HEIGHT.
    rewrite cos_PI3, sin_PI3. rcompare. done. }
  assert (detectBallPaddleCollision loaded_moved loaded = []) as ->.
  { unfold detectBallPaddleCollision. cbn.
    unfold PADDLE_OFFSET_Y, PADDLE_HEIGHT. rewrite cos_PI3, sin_PI3.
    rcompare. by rewrite andb_false_r. }
  change (detectPowerupPaddleCollision loaded_moved loaded)
    with (@nil Collision).
  rewrite !app_nil_r, app_nil_l.
  unfold detectBallBrickCollision.
  change (State.bricks loaded_moved)
    with (brick_at all_powerups <$> (seq 0 8 ++ seq 8 24)).
  rewrite fmap_app.
  assert (forall l1 l2 i,
    detectBallBrick_loop (State.ball loaded_moved) (State.ball loaded) i
      (l1 ++ l2)
    = detectBallBrick_loop (State.ball loaded_moved) (State.ball loaded) i l1
      ++ detectBallBrick_loop (State.ball loaded_moved) (State.ball loaded)
           (i + length l1) l2) as Happ.
  { induction l1 as [|b l1 IH]; intros l2 i; simpl.
    - by rewrite Nat.add_0_r.
    - by rewrite IH, <- app_assoc, Nat.add_succ_r. }
  rewrite Happ, (detectBallBrick_loop_above _ _ all_powerups (seq 8 24)).
  - rewrite app_nil_r.
    unfold detectBallBrick_loop, detectBallBrick_at, brick_at.
    cbn.
    unfold BALL_RADIUS, BRICK_HEIGHT, BRICK_WIDTH, PADDLE_OFFSET_Y,
      PADDLE_HEIGHT.
    rewrite cos_PI3, sin_PI3.
    change (INR 0) with 0. change (INR 1) with 1.
    change (INR 2) with (1 + 1). change (INR 3) with (1 + 1 + 1).
    change (INR 4) with (1 + 1 + 1 + 1).
    change (INR 5) with (1 + 1 + 1 + 1 + 1).
    change (INR 6) with (1 + 1 + 1 + 1 + 1 + 1).
    change (INR 7) with (1 + 1 + 1 + 1 + 1 + 1 + 1).
    evaluate. done.
  - cbn. unfold BALL_RADIUS, PADDLE_OFFSET_Y, PADDLE_HEIGHT.
    rewrite sin_PI3. lra.
  - apply Forall_forall. intros k Hk%elem_of_seq. unfold BRICK_COLS. lia.
Qed.

(** A record of a hit on a brick that is in the array and holds a
    powerup. *)
Lemma handleBallBrickCollision_release index side state oldState brick
    powerup :
  State.bricks state !! index = Some brick ->
  Brick.powerup brick = Some powerup ->
  handleBallBrickCollision index side state oldState =
  let state :=
    match side with
    | Left | Right => reflectHorizontally state (State.ball oldState)
    | Top | Bottom => reflectVertically state (State.ball oldState)
    end in
  Ok (State.with_powerups
        (State.with_bricks state (delete index (State.bricks state)))
        (State.powerups state
         ++ [Powerup.with_pos powerup (Some (Brick.pos brick))])).
Proof.
  intros Hb Hp. unfold handleBallBrickCollision. cbv zeta.
  replace (State.bricks match side with
                        | Left | Right =>
                            reflectHorizontally state (State.ball oldState)
                        | Top | Bottom =>
                            reflectVertically state (State.ball oldState)
                        end) with (State.bricks state) by by destruct side.
  by rewrite Hb, Hp.
Qed.

Lemma loaded_brick k :
  (k < BRICK_ROWS * BRICK_COLS)%nat ->
  State.bricks loaded !! k
  = Some (Brick.mk (Brick.pos (brick_at all_powerups k))
            (Some (Powerup.mk k expander false None (30 * 60)))).
Proof.
  intros Hk. unfold loaded.
  rewrite createState_bricks, list_lookup_fmap, lookup_seq_lt by done.
  simpl. unfold brick_at, randomPowerup, all_powerups.
  by rewrite bool_decide_eq_false_2 by lra.
Qed.

Lemma handleCollisions_loaded :
  handleCollisions [BallBrick 3 Left; BallBrick 4 Left] loaded_moved loaded
  = Ok opened.
Proof.
  assert (H3 : (3 < BRICK_ROWS * BRICK_COLS)%nat)
    by (unfold BRICK_ROWS, BRICK_COLS; lia).
  assert (H5 : (5 < BRICK_ROWS * BRICK_COLS)%nat)
    by (unfold BRICK_ROWS, BRICK_COLS; lia).
  unfold handleCollisions, handleCollision.
  rewrite (handleBallBrickCollision_release 3 Left loaded_moved loaded _ _
             (loaded_brick 3 H3) eq_refl).
  cbv zeta. unfold bind.
  rewrite (handleBallBrickCollision_release 4 Left _ loaded
             (Brick.mk (Brick.pos (brick_at all_powerups 5))
                (Some (Powerup.mk 5 expander false None (30 * 60))))
             (Powerup.mk 5 expander false None (30 * 60)));
    [reflexivity| |reflexivity].
  change (State.bricks _) with (delete 3%nat (State.bricks loaded)).
  rewrite list_lookup_delete_ge by lia.
  apply (loaded_brick 5 H5).
Qed.

Lemma main_loaded : main canvas all_powerups [{[" "]}] = Ok opened.
Proof.
  unfold main, frames, frame. fold loaded. rewrite updateState_loaded.
  cbn [fst]. rewrite detectCollisions_loaded, handleCollisions_loaded.
  reflexivity.
Qed.

(** X5.  Invariants of the game.  In every state that the frame loop of
    [main] reaches from the state of [createState], whatever the canvas, the
    samples of [Math.random()] and the keys held frame by frame: the
    powerup objects of the array and of the bricks are pairwise distinct;
    the score is [(0, 0)]; the boundaries are those of the canvas; the
    paddle stands at [PADDLE_OFFSET_Y] above the bottom; the bricks are
    bricks of the initial state, in their initial order; and the speed of
    the ball is 0, 3 (the initial speed) or [BALL_SPEED]. *)
Theorem main_invariants canvas random collected state :
  main canvas random collected = Ok state ->
  distinct_objects state /\
  State.score state = (0, 0) /\
  State.boundaries state
  = Boundaries.mk 0 (Canvas.width canvas) 0 (Canvas.height canvas) /\
  Pos.y (Paddle.pos (State.paddle state))
  = Canvas.height canvas - PADDLE_OFFSET_Y /\
  State.bricks state `sublist_of` State.bricks (createState canvas random) /\
  (Ball.speed (State.ball state) = 0 \/
   Ball.speed (State.ball state) = 3 \/
   Ball.speed (State.ball state) = BALL_SPEED).
Proof.
  unfold main. intros Hmain.
  eapply (frames_invariant (fun state : State.t =>
    distinct_objects state /\
    State.score state = (0, 0) /\
    State.boundaries state
    = Boundaries.mk 0 (Canvas.width canvas) 0 (Canvas.height canvas) /\
    Pos.y (Paddle.pos (State.paddle state))
    = Canvas.height canvas - PADDLE_OFFSET_Y /\
    State.bricks state `sublist_of` State.bricks (createState canvas random)
    /\
    (Ball.speed (State.ball state) = 0 \/
     Ball.speed (State.ball state) = 3 \/
     Ball.speed (State.ball state) = BALL_SPEED))); [| |exact Hmain].
  - intros oldState inputs state' inputs' (Hd & Hs & Hb & Hy & Hsub & Hv) H.
    pose proof (frame_constants _ _ _ _ H) as (-> & -> & ->).
    pose proof (frame_bricks _ _ _ _ H) as [Hsub' _].
    pose proof (frame_speed _ _ _ _ H) as Hv'.
    repeat split; try done.
    + by eapply frame_distinct.
    + by etrans.
    + destruct Hv' as [-> | [-> | ->]]; tauto.
  - repeat split; try done.
    + apply createState_distinct.
    + right; left. done.
Qed.

Lemma main_invariants_witness :
  State.bricks opened `sublist_of` State.bricks loaded.
Proof.
  refine (proj1 (proj2 (proj2 (proj2 (proj2
            (main_invariants canvas all_powerups [{[" "]}] opened _)))))).
  apply main_loaded.
Defined.

(** ** The desired width of the paddle *)

Lemma count_dormant_app l l' :
  count_dormant (l ++ l') = (count_dormant l + count_dormant l')%nat.
Proof. unfold count_dormant. by rewrite List.filter_app, length_app. Qed.

Lemma count_dormant_insert l i x y :
  l !! i = Some x -> dormant y = dormant x ->
  count_dormant (<[i := y]> l) = count_dormant l.
Proof.
  intros Hi Hy. rewrite insert_take_drop by by eapply lookup_lt_Some.
  rewrite <- (take_drop_middle l i x) at 3 by done.
  rewrite !count_dormant_app. unfold count_dormant. simpl. rewrite Hy.
  by destruct (dormant x).
Qed.

Lemma count_dormant_delete l i x :
  l !! i = Some x ->
  count_dormant l
  = ((if dormant x then 1 else 0) + count_dormant (delete i l))%nat.
Proof.
  intros Hi. rewrite delete_take_drop.
  rewrite <- (take_drop_middle l i x) at 1 by done.
  rewrite !count_dormant_app. unfold count_dormant. simpl.
  destruct (dormant x); simpl; lia.
Qed.

Lemma dormant_tick powerup : dormant (tick powerup) = dormant powerup.
Proof. unfold dormant, tick. by destruct powerup as [? ? ? [pos|] ?]. Qed.

(** The loop of [updatePowerups] on an array of distinct objects: each
    caught powerup that leaves the array takes 10 off the desired width. *)
Lemma updatePowerups_from_accounted fuel i state :
  NoDup (refs (State.powerups state)) ->
  let state' := updatePowerups_from fuel i state in
  Paddle.desiredWidth (State.paddle state')
  + 10 * INR (count_dormant (State.powerups state))
  = Paddle.desiredWidth (State.paddle state)
    + 10 * INR (count_dormant (State.powerups state')).
Proof.
  cbv zeta. revert i state.
  induction fuel as [|fuel IH]; intros i state Hnd; [done|].
  destruct (State.powerups state !! i) as [x|] eqn:Hi;
    [|by simpl; rewrite Hi].
  destruct (kept_or_expires x) as [Hx | Hx].
  - rewrite (updatePowerups_from_kept _ _ _ x) by done.
    rewrite <- (count_dormant_insert (State.powerups state) i x (tick x))
      by (done || apply dormant_tick).
    apply (IH (S i) (State.with_powerups state _)).
    simpl. by erewrite refs_insert by (done || apply tick_ref).
  - rewrite (updatePowerups_from_expires _ _ _ x) by done.
    set (s1 := State.with_powerups _ _).
    assert (Hnd1 : NoDup (refs (State.powerups s1))).
    { simpl. unfold refs. eapply sublist_NoDup; [exact Hnd|].
      apply fmap_sublist, sublist_delete. }
    pose proof (IH (S i) s1 Hnd1) as H. simpl in H.
    rewrite (count_dormant_delete _ i x Hi).
    destruct Hx as [Hpos _]. unfold dormant at 1. rewrite Hpos.
    rewrite plus_INR. change (INR 1) with 1. lra.
Qed.

Lemma updatePowerups_from_desiredWidth fuel i state state' :
  State.powerups state = State.powerups state' ->
  State.paddle state = State.paddle state' ->
  State.paddle (updatePowerups_from fuel i state)
  = State.paddle (updatePowerups_from fuel i state').
Proof.
  revert i state state'.
  induction fuel as [|fuel IH]; intros i state state' Hpow Hpaddle; [done|].
  simpl. rewrite <- Hpow.
  destruct (State.powerups state !! i) as [p|]; [|done].
  destruct (Powerup.pos p); [by apply IH|].
  case_bool_decide; [|by apply IH].
  destruct (Powerup.type _). apply IH; simpl; by rewrite <- ?Hpaddle.
Qed.

Lemma running_steps_paddle state oldState inputs :
  Paddle.desiredWidth (State.paddle (running_steps state oldState inputs))
  = Paddle.desiredWidth (State.paddle (updatePowerups state)).
Proof.
  unfold running_steps.
  rewrite updateBall_paddle, updatePaddle_desiredWidth.
  pose proof (updateServingPaddle_fields state oldState inputs)
    as (_ & _ & _ & Hpaddle & _ & Hpow).
  unfold updatePowerups. rewrite Hpow.
  by rewrite (updatePowerups_from_desiredWidth _ _ _ state).
Qed.

Lemma updateState_accounted oldState inputs :
  NoDup (refs (State.powerups oldState)) ->
  width_accounted oldState ->
  width_accounted (updateState oldState inputs).1.
Proof.
  unfold width_accounted. intros Hnd Hw.
  pose proof (updatePause_fields oldState inputs)
    as (_ & _ & _ & Hpaddle & _ & Hpow).
  destruct (updateState_cases oldState inputs) as [[_ ->] | [_ ->]].
  - by rewrite Hpaddle, Hpow.
  - cbn [fst]. rewrite running_steps_paddle, running_steps_powerups.
    pose proof (updatePowerups_from_accounted
                  (length (State.powerups (updatePause oldState inputs).1)) 0
                  (updatePause oldState inputs).1) as H.
    cbv zeta in H. rewrite Hpow, Hpaddle in H.
    specialize (H Hnd). unfold updatePowerups. rewrite Hpow. lra.
Qed.

Lemma capture_others r l :
  r ∉ refs l ->
  (fun q => if bool_decide (Powerup.ref q = r) then captured q else q) <$> l
  = l.
Proof.
  induction l as [|h l IH]; [done|].
  change (refs (h :: l)) with (Powerup.ref h :: refs l).
  intros [Hh Hl]%not_elem_of_cons.
  rewrite fmap_cons, bool_decide_eq_false_2 by done. by rewrite IH.
Qed.

Lemma count_dormant_capture r l p :
  NoDup (refs l) -> p ∈ l -> Powerup.ref p = r -> Powerup.pos p <> None ->
  count_dormant
    ((fun q => if bool_decide (Powerup.ref q = r) then captured q else q)
       <$> l)
  = S (count_dormant l).
Proof.
  intros Hnd Hp Hr Hpos.
  induction l as [|h l IH]; [by apply elem_of_nil in Hp|].
  unfold refs in Hnd. simpl in Hnd. apply NoDup_cons in Hnd as [Hh Hnd].
  rewrite fmap_cons.
  change (?x :: ?l') with ([x] ++ l'). rewrite !count_dormant_app.
  apply elem_of_cons in Hp as [<- | Hp].
  - rewrite bool_decide_eq_true_2 by done.
    rewrite capture_others by by rewrite <- Hr.
    unfold count_dormant at 1 3. simpl. unfold dormant.
    by destruct (Powerup.pos p).
  - rewrite bool_decide_eq_false_2.
    + rewrite IH by done. lia.
    + intros E. apply Hh. rewrite E, <- Hr. by apply list_elem_of_fmap_2.
Qed.

Lemma handleCollision_accounted c state oldState state' :
  handleCollision c state oldState = Ok state' ->
  match c with
  | PowerupPaddle powerup =>
      Paddle.desiredWidth (State.paddle state')
      = Paddle.desiredWidth (State.paddle state) + 10 /\
      State.powerups state'
      = (fun q => if bool_decide (Powerup.ref q = Powerup.ref powerup)
                  then captured q else q) <$> State.powerups state
  | _ =>
      Paddle.desiredWidth (State.paddle state')
      = Paddle.desiredWidth (State.paddle state) /\
      exists added,
        State.powerups state' = State.powerups state ++ added /\
        count_dormant added = 0%nat
  end.
Proof.
  destruct c as [|wall|index side|powerup]; simpl.
  - intros [= <-]. split; [done|]. exists []. by rewrite app_nil_r.
  - intros [= <-]. split; [by destruct wall|]. exists [].
    rewrite app_nil_r. by destruct wall.
  - unfold handleBallBrickCollision.
    set (s := match side with
              | Left | Right =>
                  reflectHorizontally state (State.ball oldState)
              | Top | Bottom => reflectVertically state (State.ball oldState)
              end).
    assert (State.paddle s = State.paddle state /\
            State.powerups s = State.powerups state) as [<- <-]
      by (subst s; by destruct side).
    destruct (State.bricks s !! index) as [brick|]; [|done].
    destruct (Brick.powerup brick) as [p|]; intros [= <-].
    + split; [done|]. by eexists.
    + split; [done|]. exists []. by rewrite app_nil_r.
  - intros [= <-]. unfold handlePowerupPaddleCollision.
    by destruct (Powerup.type powerup).
Qed.

(** The resolution of a collision set whose powerup records refer to
    distinct objects that are falling powerups of the array. *)
Lemma handleCollisions_accounted cs oldState :
  forall state state',
    width_accounted state -> distinct_objects state ->
    NoDup (pending cs) ->
    (forall r, r ∈ pending cs ->
       exists p, p ∈ State.powerups state /\ Powerup.ref p = r /\
                 Powerup.pos p <> None) ->
    handleCollisions cs state oldState = Ok state' ->
    width_accounted state'.
Proof.
  induction cs as [|c cs IH]; intros state state' Hw Hd Hnd Hfalling; simpl.
  - by intros [= <-].
  - unfold bind.
    destruct (handleCollision c state oldState) as [s1|] eqn:H1; [|done].
    pose proof (handleCollision_accounted _ _ _ _ H1) as Hc.
    pose proof (handleCollision_powerups _ _ _ _ H1) as (_ & Hperm & _).
    assert (Hd1 : distinct_objects s1)
      by (unfold distinct_objects; by rewrite Hperm).
    unfold width_accounted in *. unfold pending in Hnd, Hfalling.
    destruct c as [|wall|index side|powerup]; simpl in Hnd, Hfalling.
    1-3: destruct Hc as (Hdw & added & Hadd & Hcount);
      apply (IH s1); [|done|done|];
      [ by rewrite Hdw, Hadd, count_dormant_app, Hcount, Nat.add_0_r
      | intros r (p & Hp & Hr & Hpos)%Hfalling; exists p;
        rewrite Hadd, elem_of_app; tauto ].
    destruct Hc as [Hdw Hpow].
    apply NoDup_cons in Hnd as [Hfresh Hnd].
    apply NoDup_app in Hd as (Hndp & _ & _).
    apply (IH s1); [|done|done|].
    + destruct (Hfalling (Powerup.ref powerup)) as (p & Hp & Hr & Hpos);
        [apply list_elem_of_here|].
      rewrite Hdw, Hpow, (count_dormant_capture _ _ p) by done.
      rewrite Hw, S_INR. lra.
    + intros r Hr.
      destruct (Hfalling r) as (p & Hp & Hpr & Hpos);
        [by apply list_elem_of_further|].
      exists p. split; [|done]. rewrite Hpow.
      apply list_elem_of_fmap. exists p. split; [|done].
      rewrite bool_decide_eq_false_2; [done|]. intros E.
      apply Hfresh. by rewrite <- E, Hpr.
Qed.

Lemma pending_app cs cs' : pending (cs ++ cs') = pending cs ++ pending cs'.
Proof. apply omap_app. Qed.

Lemma pending_none cs :
  (forall c, c ∈ cs -> match c with PowerupPaddle _ => False | _ => True end)
  -> pending cs = [].
Proof.
  induction cs as [|c cs IH]; intros H; [done|].
  unfold pending in *. simpl.
  pose proof (H c (list_elem_of_here _ _)) as Hc.
  destruct c; try done; apply IH; intros c' Hc'; apply H;
    by apply list_elem_of_further.
Qed.

Lemma pending_detectCollisions state oldState :
  pending (detectCollisions state oldState)
  `sublist_of` refs (State.powerups state).
Proof.
  rewrite detectCollisions_unfold, !pending_app.
  rewrite (pending_none (detectBallWallCollision _ _)),
    (pending_none (detectBallBrickCollision _ _)),
    (pending_none (detectBallPaddleCollision _ _)).
  - simpl. unfold detectPowerupPaddleCollision.
    induction (State.powerups state) as [|p l IH]; [done|].
    simpl. rewrite pending_app. unfold detectPowerupPaddle_at at 1.
    destruct (Powerup.pos p); [destruct (_ && _)|]; simpl.
    + by apply sublist_skip.
    + by apply sublist_cons.
    + by apply sublist_cons.
  - by intros c ->%detectBallPaddleCollision_elem.
  - intros c (k & brick & _ & H)%detectBallBrick_loop_elem.
    by apply detectBallBrick_at_elem in H as [side ->].
  - by intros c [wall ->]%detectBallWallCollision_wall.
Qed.

Lemma frame_accounted oldState inputs state' inputs' :
  distinct_objects oldState -> width_accounted oldState ->
  frame oldState inputs = (Ok state', inputs') ->
  width_accounted state'.
Proof.
  intros Hd Hw (state & Hstate & H)%frame_Ok.
  assert (state = (updateState oldState inputs).1) as Es by by rewrite Hstate.
  assert (Hd' : distinct_objects state)
    by (rewrite Es; by apply updateState_distinct).
  eapply handleCollisions_accounted; [| | | |exact H].
  - rewrite Es. apply updateState_accounted; [|done].
    by apply NoDup_app in Hd as (? & _).
  - done.
  - eapply sublist_NoDup; [|apply pending_detectCollisions].
    by apply NoDup_app in Hd' as (? & _).
  - intros r Hr. unfold pending in Hr.
    apply list_elem_of_omap in Hr as (c & Hc & Hr).
    destruct c as [| | |q]; try done. injection Hr as <-.
    apply detectCollisions_powerup in Hc as [Hq Hpos]. by exists q.
Qed.

(** X6.  In every state that the frame loop of [main] reaches from the
    state of [createState], the desired width of the paddle is
    [PADDLE_WIDTH] plus 10 for each caught powerup that is still in the
    powerup array: every capture is undone by exactly one expiry, also when
    the loop of [updatePowerups] skips a powerup or a paused frame resolves
    a capture. *)
Theorem desiredWidth_accounted canvas random collected state :
  main canvas random collected = Ok state ->
  Paddle.desiredWidth (State.paddle state)
  = PADDLE_WIDTH + 10 * INR (count_dormant (State.powerups state)).
Proof.
  unfold main. intros Hmain.
  cut (distinct_objects state /\ width_accounted state); [by intros [_ ?]|].
  eapply (frames_invariant (fun state : State.t =>
    distinct_objects state /\ width_accounted state)); [| |exact Hmain].
  - intros oldState inputs state' inputs' [Hd Hw] H. split.
    + by eapply frame_distinct.
    + by eapply frame_accounted.
  - split; [apply createState_distinct|].
    unfold width_accounted. cbn. change (INR 0) with 0. lra.
Qed.

Lemma desiredWidth_accounted_witness :
  Paddle.desiredWidth (State.paddle opened)
  = PADDLE_WIDTH + 10 * INR (count_dormant (State.powerups opened)).
Proof.
  apply (desiredWidth_accounted canvas all_powerups [{[" "]}] opened).
  apply main_loaded.
Defined.

(** ** The life of a powerup *)

Lemma tick_well_formed powerup :
  well_formed powerup -> kept powerup -> well_formed (tick powerup).
Proof.
  unfold well_formed, kept, tick.
  destruct powerup as [r t a [pos|] timer]; simpl; intros [Ht Ha] Hk.
  - done.
  - destruct Hk as [?|Hk]; [done|]. split; [lra|done].
Qed.

Lemma updatePowerups_from_well_formed fuel i state :
  NoDup (refs (State.powerups state)) ->
  Forall well_formed (State.powerups state) ->
  Forall well_formed (State.powerups (updatePowerups_from fuel i state)).
Proof.
  revert i state. induction fuel as [|fuel IH]; intros i state Hnd Hwf; [done|].
  destruct (State.powerups state !! i) as [x|] eqn:Hi;
    [|by simpl; rewrite Hi].
  destruct (kept_or_expires x) as [Hx | Hx].
  - rewrite (updatePowerups_from_kept _ _ _ x) by done. apply IH; simpl.
    + by erewrite refs_insert by (done || apply tick_ref).
    + apply Forall_insert; [done|]. apply tick_well_formed; [|done].
      by eapply Forall_lookup_1.
  - rewrite (updatePowerups_from_expires _ _ _ x) by done. apply IH; simpl.
    + unfold refs. eapply sublist_NoDup; [exact Hnd|].
      apply fmap_sublist, sublist_delete.
    + by apply Forall_delete.
Qed.

Lemma updateState_well_formed oldState inputs :
  NoDup (refs (State.powerups oldState)) ->
  Forall well_formed (State.powerups oldState) ->
  Forall well_formed (State.powerups (updateState oldState inputs).1).
Proof.
  intros Hnd Hwf.
  pose proof (updatePause_fields oldState inputs)
    as (_ & _ & _ & _ & _ & Hpow).
  destruct (updateState_cases oldState inputs) as [[_ ->] | [_ ->]].
  - by rewrite Hpow.
  - cbn [fst]. rewrite running_steps_powerups.
    apply updatePowerups_from_well_formed; by rewrite Hpow.
Qed.

Lemma handleCollision_well_formed c state oldState state' :
  handleCollision c state oldState = Ok state' ->
  Forall well_formed (State.powerups state) ->
  Forall unreleased (State.bricks state) ->
  Forall well_formed (State.powerups state') /\
  Forall unreleased (State.bricks state').
Proof.
  destruct c as [|wall|index side|powerup]; simpl.
  - by intros [= <-].
  - intros [= <-]. by destruct wall.
  - unfold handleBallBrickCollision.
    set (s := match side with
              | Left | Right =>
                  reflectHorizontally state (State.ball oldState)
              | Top | Bottom => reflectVertically state (State.ball oldState)
              end).
    assert (State.bricks s = State.bricks state /\
            State.powerups s = State.powerups state) as [<- <-]
      by (subst s; by destruct side).
    destruct (State.bricks s !! index) as [brick|] eqn:Hb; [|done].
    intros H Hwf Hbricks.
    pose proof (Forall_lookup_1 _ _ _ _ Hbricks Hb) as Hbrick.
    unfold unreleased in Hbrick.
    destruct (Brick.powerup brick) as [p|]; injection H as <-; simpl.
    + split; [|by apply Forall_delete].
      apply Forall_app. split; [done|]. apply Forall_singleton.
      destruct Hbrick as [Ha Ht]. unfold well_formed. simpl.
      rewrite Ht. split; [lra|done].
    + split; [done|by apply Forall_delete].
  - intros [= <-] Hwf Hbricks. unfold handlePowerupPaddleCollision.
    destruct (Powerup.type powerup). simpl. split; [|done].
    apply Forall_fmap. eapply Forall_impl; [exact Hwf|].
    intros q [Ht Ha]. simpl. case_bool_decide; [|done]. by split.
Qed.

Lemma handleCollisions_well_formed cs state oldState state' :
  handleCollisions cs state oldState = Ok state' ->
  Forall well_formed (State.powerups state) ->
  Forall unreleased (State.bricks state) ->
  Forall well_formed (State.powerups state') /\
  Forall unreleased (State.bricks state').
Proof.
  revert state. induction cs as [|c cs IH]; intros state; simpl.
  - by intros [= <-].
  - unfold bind.
    destruct (handleCollision c state oldState) as [s1|] eqn:H1; [|done].
    intros H Hwf Hbricks.
    destruct (handleCollision_well_formed _ _ _ _ H1 Hwf Hbricks).
    by apply (IH s1).
Qed.

Lemma createState_unreleased canvas random :
  Forall unreleased (State.bricks (createState canvas random)).
Proof.
  rewrite createState_bricks. apply Forall_fmap, Forall_forall.
  intros k _. unfold unreleased, brick_at, randomPowerup. simpl.
  by case_bool_decide.
Qed.

(** X7.  In every state that the frame loop of [main] reaches from the
    state of [createState], each powerup of the powerup array has a timer
    that is positive and at most [30 * 60]; it is active exactly when it has
    been caught (it has no position); and while it falls its timer is still
    [30 * 60].  So the array never holds an expired powerup at the end of a
    frame. *)
Theorem powerup_lifecycle canvas random collected state powerup :
  main canvas random collected = Ok state ->
  powerup ∈ State.powerups state ->
  0 < Powerup.timer powerup <= 30 * 60 /\
  (Powerup.active powerup = true <-> Powerup.pos powerup = None) /\
  (Powerup.pos powerup <> None -> Powerup.timer powerup = 30 * 60).
Proof.
  unfold main. intros Hmain Hin.
  assert (Forall well_formed (State.powerups state)) as Hwf.
  { cut (distinct_objects state /\
         Forall well_formed (State.powerups state) /\
         Forall unreleased (State.bricks state)); [by intros (_ & ? & _)|].
    eapply (frames_invariant (fun state : State.t =>
      distinct_objects state /\
      Forall well_formed (State.powerups state) /\
      Forall unreleased (State.bricks state))); [| |exact Hmain].
    - intros oldState inputs state' inputs' (Hd & Hwf & Hb) H.
      split; [by eapply frame_distinct|].
      apply frame_Ok in H as (s & Hs & H).
      eapply handleCollisions_well_formed; [exact H| |].
      + replace s with (updateState oldState inputs).1 by by rewrite Hs.
        apply updateState_well_formed; [|done].
        by apply NoDup_app in Hd as (? & _).
      + replace s with (updateState oldState inputs).1 by by rewrite Hs.
        by rewrite updateState_bricks.
    - split; [apply createState_distinct|]. split; [apply Forall_nil_2|].
      apply createState_unreleased. }
  pose proof (proj1 (Forall_forall _ _) Hwf powerup Hin) as [Ht Ha].
  split; [done|]. destruct (Powerup.pos powerup) as [pos|].
  - destruct Ha as [Ha Ht']. split; [|done]. rewrite Ha. by split.
  - by split.
Qed.

Lemma powerup_lifecycle_witness :
  Powerup.active
    (Powerup.mk 3 expander false (Some (Brick.pos (brick_at all_powerups 3)))
       (30 * 60)) = true
  <-> Powerup.pos
        (Powerup.mk 3 expander false
           (Some (Brick.pos (brick_at all_powerups 3))) (30 * 60)) = None.
Proof.
  refine (proj1 (proj2
            (powerup_lifecycle canvas all_powerups [{[" "]}] opened _ _ _))).
  - apply main_loaded.
  - apply list_elem_of_here.
Defined.

(** When no powerup expires, the loop of [updatePowerups] is a map over
    the array and leaves the rest of the state alone. *)
Lemma updatePowerups_all_kept state :
  Forall kept (State.powerups state) ->
  updatePowerups state
  = State.with_powerups state (tick <$> State.powerups state).
Proof.
  intros Hkept. unfold updatePowerups.
  pose proof (updatePowerups_from_kept_run (State.powerups state) [] [] state
                0%nat) as H.
  rewrite Nat.add_0_r in H. simpl in H. rewrite app_nil_r in H.
  rewrite H by done. by rewrite app_nil_r.
Qed.

Lemma updatePowerups_from_paddle fuel i state :
  Forall kept (drop i (State.powerups state)) ->
  State.paddle (updatePowerups_from fuel i state) = State.paddle state.
Proof.
  revert i state. induction fuel as [|fuel IH]; intros i state Hkept; [done|].
  destruct (State.powerups state !! i) as [p|] eqn:Hi.
  - rewrite (drop_S _ _ _ Hi) in Hkept.
    apply Forall_cons in Hkept as [Hp Hkept].
    rewrite (updatePowerups_from_kept _ _ _ p) by done.
    rewrite IH; [done|]. simpl. by rewrite drop_insert_lt by lia.
  - simpl. by rewrite Hi.
Qed.

Lemma countdown_falling n p :
  Powerup.pos p <> None -> Powerup.pos (countdown n p) <> None.
Proof.
  intros Hp. induction n as [|n IH]; [done|]. simpl. unfold tick.
  by destruct (Powerup.pos (countdown n p)).
Qed.

Lemma countdown_dormant n p :
  Powerup.pos p = None ->
  Powerup.pos (countdown n p) = None /\
  Powerup.timer (countdown n p) = Powerup.timer p - INR n.
Proof.
  intros Hp. induction n as [|n [IHp IHt]].
  - simpl. split; [done|]. unfold INR. simpl. lra. 
  - change (countdown (S n) p) with (tick (countdown n p)).
    unfold tick. rewrite IHp. simpl. split; [done|].
    rewrite IHt, S_INR. lra.
Qed.

Lemma countdown_ref n p : Powerup.ref (countdown n p) = Powerup.ref p.
Proof.
  induction n as [|n IH]; [done|]. simpl. by rewrite tick_ref.
Qed.

Lemma ticks_before_expiry n k state pre p post :
  State.powerups state = pre ++ p :: post ->
  Forall (fun q => Powerup.pos q <> None) (pre ++ post) ->
  Powerup.pos p = None -> Powerup.timer p = INR n ->
  (k < n)%nat ->
  ticks k state
  = State.with_powerups state
      ((countdown k <$> pre) ++ countdown k p :: (countdown k <$> post)).
Proof.
  intros Hl Hfalling Hp Ht.
  apply Forall_app in Hfalling as [Hpre Hpost].
  induction k as [|k IH]; intros Hk.
  - simpl. rewrite !list_fmap_id. by rewrite <- Hl, with_powerups_id.
  - change (ticks (S k) state) with (updatePowerups (ticks k state)).
    rewrite IH by lia. rewrite updatePowerups_all_kept.
    + unfold State.with_powerups. simpl. f_equal.
      rewrite fmap_app, fmap_cons, <- !list_fmap_compose. done.
    + simpl. apply Forall_app. split; [|apply Forall_cons; split].
      * apply Forall_fmap. eapply Forall_impl; [exact Hpre|].
        intros q Hq. left. by apply countdown_falling.
      * right. destruct (countdown_dormant k p Hp) as [_ ->].
        rewrite Ht. apply lt_INR in Hk. rewrite S_INR in Hk. lra.
      * apply Forall_fmap. eapply Forall_impl; [exact Hpost|].
        intros q Hq. left. by apply countdown_falling.
Qed.

(** X8.  A caught powerup lasts as many frames of a running game as its
    timer says.  In an array of distinct objects whose other powerups fall,
    a caught powerup with timer [n + 1] is still in the array after each of
    the first [n] runs of [updatePowerups], the desired width unchanged;
    the run after that removes it and takes 10 off the desired width. *)
Theorem captured_powerup_lifetime n state pre p post :
  State.powerups state = pre ++ p :: post ->
  NoDup (refs (State.powerups state)) ->
  Forall (fun q => Powerup.pos q <> None) (pre ++ post) ->
  Powerup.pos p = None -> Powerup.timer p = INR (S n) ->
  (forall k, (k <= n)%nat ->
     Powerup.ref p ∈ refs (State.powerups (ticks k state)) /\
     Paddle.desiredWidth (State.paddle (ticks k state))
     = Paddle.desiredWidth (State.paddle state)) /\
  (Powerup.ref p ∉ refs (State.powerups (ticks (S n) state))) /\
  Paddle.desiredWidth (State.paddle (ticks (S n) state))
  = Paddle.desiredWidth (State.paddle state) - 10.
Proof.
  intros Hl Hnd Hfalling Hp Ht.
  assert (Hbefore : forall k, (k <= n)%nat ->
    ticks k state
    = State.with_powerups state
        ((countdown k <$> pre) ++ countdown k p :: (countdown k <$> post))).
  { intros k Hk. eapply ticks_before_expiry; [done..|lia]. }
  split.
  { intros k Hk. rewrite Hbefore by done. simpl. split; [|done].
    unfold refs. rewrite fmap_app, fmap_cons, countdown_ref.
    apply elem_of_app. right. apply elem_of_cons. by left. }
  change (ticks (S n) state) with (updatePowerups (ticks n state)).
  rewrite Hbefore by done.
  set (state' := State.with_powerups state _).
  apply Forall_app in Hfalling as [Hpre Hpost].
  assert (Hl' : State.powerups state'
                = (countdown n <$> pre) ++ countdown n p
                  :: (countdown n <$> post)) by done.
  assert (Hnd' : NoDup (refs (State.powerups state'))).
  { rewrite Hl'. rewrite Hl in Hnd. unfold refs in *.
    rewrite fmap_app, fmap_cons, <- !list_fmap_compose in *.
    rewrite countdown_ref.
    erewrite (list_fmap_ext _ Powerup.ref pre),
      (list_fmap_ext _ Powerup.ref post); [done|..];
      intros; simpl; apply countdown_ref. }
  assert (Hkept : Forall kept (countdown n <$> pre)).
  { apply Forall_fmap. eapply Forall_impl; [exact Hpre|].
    intros q Hq. left. by apply countdown_falling. }
  assert (Hexp : expires (countdown n p)).
  { destruct (countdown_dormant n p Hp) as [Hp' Ht']. split; [done|].
    rewrite Ht', Ht, S_INR. lra. }
  split.
  { rewrite <- (countdown_ref n p). by eapply updatePowerups_removes. }
  rewrite (updatePowerups_expiry state' _ _ _ Hl' Hnd' Hkept Hexp).
  rewrite updatePowerups_from_paddle; [done|].
  simpl. rewrite <- Nat.add_1_r, (drop_app_add' _ _ _ 1)
    by by rewrite !length_fmap.
  apply Forall_drop, Forall_fmap. eapply Forall_impl; [exact Hpost|].
    intros q Hq. left. by apply countdown_falling.
Qed.

Lemma captured_powerup_lifetime_witness :
  Paddle.desiredWidth (State.paddle (ticks 1 expiring_next))
  = Paddle.desiredWidth (State.paddle expiring_next) - 10.
Proof.
  refine (proj2 (proj2
            (captured_powerup_lifetime 0 expiring_next []
               (Powerup.mk 1 expander true None 1) [] _ _ _ _ _))).
  - reflexivity.
  - apply NoDup_singleton.
  - apply Forall_nil_2.
  - reflexivity.
  - reflexivity.
Defined.

Lemma detectPowerupPaddle_at_elem paddle powerup c :
  c ∈ detectPowerupPaddle_at paddle powerup <->
  c = PowerupPaddle powerup /\
  exists pos,
    Powerup.pos powerup = Some pos /\
    Pos.x (Paddle.pos paddle) - Paddle.width paddle / 2 < Pos.x pos
      < Pos.x (Paddle.pos paddle) + Paddle.width paddle / 2 /\
    Pos.y (Paddle.pos paddle) - PADDLE_HEIGHT / 2 < Pos.y pos
      < Pos.y (Paddle.pos paddle) + PADDLE_HEIGHT / 2.
Proof.
  unfold detectPowerupPaddle_at.
  destruct (Powerup.pos powerup) as [pos|].
  - repeat case_bool_decide; simpl;
      rewrite ?list_elem_of_singleton, ?elem_of_nil;
      (split;
       [ first [ intros ->; split; [done|]; exists pos; split; [done|lra]
               | done ]
       | intros (-> & pos' & [= <-] & ? & ?); first [done | lra] ]).
  - rewrite elem_of_nil. split; [done|]. by intros (_ & pos & ? & _).
Qed.

(** X9.  The collision set holds a ["powerup.paddle"] record for a powerup
    exactly when the powerup is an element of the powerup array that has a
    position (it falls) and that position is strictly inside the paddle's
    box: a caught powerup is never reported, and neither is one on the edge
    of the box. *)
Theorem powerup_reported state oldState powerup :
  PowerupPaddle powerup ∈ detectCollisions state oldState <->
  powerup ∈ State.powerups state /\
  exists pos,
    Powerup.pos powerup = Some pos /\
    let paddle := State.paddle state in
    Pos.x (Paddle.pos paddle) - Paddle.width paddle / 2 < Pos.x pos
      < Pos.x (Paddle.pos paddle) + Paddle.width paddle / 2 /\
    Pos.y (Paddle.pos paddle) - PADDLE_HEIGHT / 2 < Pos.y pos
      < Pos.y (Paddle.pos paddle) + PADDLE_HEIGHT / 2.
Proof.
  rewrite detectCollisions_unfold, !elem_of_app. split.
  - intros [H | [H | [H | H]]].
    + by apply detectBallWallCollision_wall in H as [wall ?].
    + apply detectBallBrick_loop_elem in H as (k & brick & _ & H).
      by apply detectBallBrick_at_elem in H as [side ?].
    + by apply detectBallPaddleCollision_elem in H.
    + apply list_elem_of_bind in H as (q & H & Hq).
      apply detectPowerupPaddle_at_elem in H as [[= <-] H]. by split.
  - intros [Hp H]. right; right; right.
    apply list_elem_of_bind. exists powerup. split; [|done].
    by apply detectPowerupPaddle_at_elem.
Qed.

(** X10.  [handlePowerupPaddleCollision] adds 10 to the desired width,
    leaves the width and the objects of the array as they are, and the
    powerup it has handled is not reported by a detection on the state it
    returns: a powerup is captured once. *)
Theorem captured_once powerup state oldState' :
  let state' := handlePowerupPaddleCollision powerup state in
  Paddle.desiredWidth (State.paddle state')
  = Paddle.desiredWidth (State.paddle state) + 10 /\
  Paddle.width (State.paddle state') = Paddle.width (State.paddle state) /\
  refs (State.powerups state') = refs (State.powerups state) /\
  forall q,
    PowerupPaddle q ∈ detectCollisions state' oldState' ->
    Powerup.ref q <> Powerup.ref powerup.
Proof.
  cbv zeta. unfold handlePowerupPaddleCollision.
  destruct (Powerup.type powerup). cbn.
  split; [done|]. split; [done|]. split.
  - unfold refs. rewrite <- list_fmap_compose. apply list_fmap_ext.
    intros i q _. simpl. by case_bool_decide.
  - intros q [Hq Hpos]%detectCollisions_powerup. cbn in Hq.
    apply list_elem_of_fmap in Hq as (q0 & -> & _).
    by case_bool_decide.
Qed.

(** The loop of [updatePowerups] removes no falling powerup. *)
Lemma updatePowerups_from_falling fuel i state r :
  NoDup (refs (State.powerups state)) ->
  (exists p, p ∈ State.powerups state /\ Powerup.ref p = r /\
             Powerup.pos p <> None) ->
  exists p, p ∈ State.powerups (updatePowerups_from fuel i state) /\
            Powerup.ref p = r /\ Powerup.pos p <> None.
Proof.
  revert i state. induction fuel as [|fuel IH]; intros i state Hnd H; [done|].
  destruct (State.powerups state !! i) as [x|] eqn:Hi;
    [|by simpl; rewrite Hi].
  destruct H as (p & Hp & Hr & Hpos).
  apply list_elem_of_lookup_1 in Hp as [j Hj].
  destruct (kept_or_expires x) as [Hx | Hx].
  - rewrite (updatePowerups_from_kept _ _ _ x) by done. apply IH.
    { simpl. by erewrite refs_insert by (done || apply tick_ref). }
    simpl. destruct (decide (j = i)) as [->|Hne].
    + exists (tick x). assert (x = p) as -> by congruence.
      split; [|split].
      * eapply list_elem_of_lookup_2, list_lookup_insert_eq.
        by eapply lookup_lt_Some.
      * by rewrite tick_ref.
      * unfold tick. by destruct (Powerup.pos p).
    + exists p. split; [|done].
      eapply list_elem_of_lookup_2. by rewrite list_lookup_insert_ne.
  - rewrite (updatePowerups_from_expires _ _ _ x) by done. apply IH.
    { simpl. unfold refs. eapply sublist_NoDup; [exact Hnd|].
      apply fmap_sublist, sublist_delete. }
    simpl. exists p. split; [|done].
    assert (j <> i) as Hne.
    { intros ->. destruct Hx as [Hx _]. congruence. }
    destruct (decide (j < i)%nat).
    + eapply list_elem_of_lookup_2. by rewrite list_lookup_delete_lt.
    + apply (list_elem_of_lookup_2 _ (j - 1)).
      rewrite list_lookup_delete_ge by lia.
      by replace (S (j - 1)) with j by lia.
Qed.

Lemma frame_dropping : frame dropping ∅ = (Ok dropping_next, ∅).
Proof.
  unfold frame. rewrite updateState_running_released;
    [|reflexivity|apply has_false; reflexivity].
  unfold running_steps.
  replace (updateServingPaddle dropping dropping ∅) with dropping
    by (unfold updateServingPaddle; keys; done).
  rewrite updatePowerups_all_kept
    by (apply Forall_singleton; by left).
  match goal with
  | |- context [updateBall ?s ?o] =>
      assert (updateBall s o = dropping_next) as ->
  end.
  { unfold updatePaddle, updateBall. evaluate.
    rewrite cos_PI2, sin_PI2.
    unfold dropping_next, flying, State.with_ball, Ball.with_pos.
    unfold Powerup.with_pos, Pos.with_y. simpl. unfold POWERUP_DROP_SPEED.
    repeat f_equal; lra. }
  rewrite detectCollisions_unfold.
  unfold detectBallWallCollision, detectBallBrickCollision,
    detectBallPaddleCollision, detectPowerupPaddleCollision,
    detectPowerupPaddle_at.
  unfold BALL_RADIUS, PADDLE_HEIGHT. evaluate. done.
Qed.

(** X11.  A falling powerup is never discarded.  When the objects of the
    powerup array are distinct, a powerup of the old state that has a
    position is still an object of the array when the frame ends, whether
    the paddle caught it or not: nothing removes a powerup that has fallen
    past the paddle. *)
Theorem falling_powerup_stays oldState inputs state' inputs' p :
  NoDup (refs (State.powerups oldState)) ->
  p ∈ State.powerups oldState -> Powerup.pos p <> None ->
  frame oldState inputs = (Ok state', inputs') ->
  Powerup.ref p ∈ refs (State.powerups state').
Proof.
  intros Hnd Hp Hpos (state & Hstate & H)%frame_Ok.
  apply handleCollisions_powerups in H as ((added & ->) & _).
  assert (Powerup.ref p ∈ refs (State.powerups state)) as Hin.
  { pose proof (updatePause_fields oldState inputs)
      as (_ & _ & _ & _ & _ & Hpow).
    destruct (updateState_cases oldState inputs) as [[_ E] | [_ E]];
      rewrite E in Hstate.
    - destruct (updatePause oldState inputs) as [s i].
      injection Hstate as <- <-. simpl in *. rewrite Hpow.
      by apply list_elem_of_fmap_2.
    - injection Hstate as <- <-. rewrite running_steps_powerups.
      destruct (updatePowerups_from_falling
                  (length (State.powerups (updatePause oldState inputs).1)) 0
                  (updatePause oldState inputs).1 (Powerup.ref p))
        as (q & Hq & <- & _).
      + by rewrite Hpow.
      + exists p. by rewrite Hpow.
      + by apply list_elem_of_fmap_2. }
  unfold refs in *. rewrite fmap_app, <- list_fmap_compose.
  apply elem_of_app. left.
  erewrite list_fmap_ext; [exact Hin|].
  intros i q _. simpl. apply resolve_fields.
Qed.

Lemma falling_powerup_stays_witness :
  0%nat ∈ refs (State.powerups dropping_next).
Proof.
  refine (falling_powerup_stays dropping ∅ dropping_next ∅
            (Powerup.mk 0 expander false (Some (Pos.mk 100 100)) (30 * 60))
            _ _ _ _).
  - apply NoDup_singleton.
  - apply list_elem_of_here.
  - discriminate.
  - apply frame_dropping.
Defined.

(** ** The ball in flight and its reflections *)

Lemma step_length ball :
  (Pos.x (Ball.pos (step ball)) - Pos.x (Ball.pos ball)) ^ 2
  + (Pos.y (Ball.pos (step ball)) - Pos.y (Ball.pos ball)) ^ 2
  = Ball.speed ball ^ 2.
Proof.
  unfold step. cbn [Ball.pos Ball.with_pos Pos.x Pos.y].
  pose proof (sin2_cos2 (Ball.angle ball)) as Hsc. unfold Rsqr in Hsc.
  transitivity
    (Ball.speed ball ^ 2
     * (sin (Ball.angle ball) * sin (Ball.angle ball)
        + cos (Ball.angle ball) * cos (Ball.angle ball))); [ring|].
  rewrite Hsc. ring.
Qed.

(** X12.  In free flight the ball makes one step of its speed.  When the
    state that the transition returns is neither paused nor serving and the
    old ball moves, the new ball is the old one moved by
    [speed * (cos angle, sin angle)], with the old speed and angle, whatever
    keys are held; the distance covered is exactly the speed. *)
Theorem free_flight oldState inputs :
  let state := (updateState oldState inputs).1 in
  let oldBall := State.ball oldState in
  let ball := State.ball state in
  State.isPaused state = false -> State.isServing state = false ->
  Ball.speed oldBall <> 0 ->
  ball = step oldBall /\
  (Pos.x (Ball.pos ball) - Pos.x (Ball.pos oldBall)) ^ 2
  + (Pos.y (Ball.pos ball) - Pos.y (Ball.pos oldBall)) ^ 2
  = Ball.speed oldBall ^ 2.
Proof.
  cbv zeta. intros Hrun Hserving Hspeed.
  assert (State.ball (updateState oldState inputs).1
          = step (State.ball oldState)) as ->;
    [|by split; [|apply step_length]].
  revert Hrun Hserving.
  pose proof (updatePause_fields oldState inputs)
    as (_ & _ & Hball & _ & _ & _).
  destruct (updateState_cases oldState inputs) as [[E ->] | [_ ->]];
    cbn [fst]; [congruence|intros _].
  unfold running_steps. rewrite updateBall_isServing.
  set (s := updatePaddle _ _ _).
  assert (State.ball s = State.ball oldState) as Hs.
  { subst s. rewrite updatePaddle_ball, (sbp_ball _ _ (updatePowerups_same _)).
    by destruct (updateServingPaddle_fields (updatePause oldState inputs).1
                   oldState (updatePause oldState inputs).2)
      as (_ & _ & -> & _). }
  intros Hserving. unfold updateBall. rewrite Hserving.
  rewrite bool_decide_eq_false_2 by done. cbn. by rewrite Hs.
Qed.

Lemma free_flight_witness :
  State.ball (updateState falling ∅).1 = step (State.ball falling).
Proof.
  refine (proj1 (free_flight falling ∅ _ _ _)).
  - by rewrite updateState_falling.
  - by rewrite updateState_falling.
  - simpl. lra.
Defined.

Lemma cos_PI_minus (a : R) : cos (PI - a) = - cos a.
Proof. rewrite cos_minus, cos_PI, sin_PI. ring. Qed.

(** X13.  The bounce off the left, right or top wall puts the ball back
    inside.  When the ball has made one step from the old ball's place, the
    old ball was not beyond the wall and the new one is, the state that
    [handleBallWallCollision] returns shows no collision with that wall. *)
Theorem wall_bounce_back wall state oldState oldState' :
  wall <> Bottom ->
  State.ball state = step (State.ball oldState) ->
  BallWall wall ∈ detectCollisions state oldState ->
  BallWall wall
    ∉ detectCollisions (State.with_ball state (State.ball oldState))
        oldState ->
  BallWall wall
    ∉ detectCollisions (handleBallWallCollision wall state oldState)
        oldState'.
Proof.
  intros Hwall Hstep.
  rewrite !detectCollisions_wall, !detectBallWallCollision_elem.
  destruct wall; [| | |done]; cbn; rewrite Hstep; unfold step; cbn;
    rewrite ?cos_PI_minus, ?sin_neg; lra.
Qed.

Lemma wall_bounce_back_witness :
  BallWall Left
    ∉ detectCollisions (handleBallWallCollision Left leftward_moved leftward)
        leftward.
Proof.
  refine (wall_bounce_back Left leftward_moved leftward leftward _ _ _ _).
  - discriminate.
  - reflexivity.
  - rewrite detectCollisions_wall, detectBallWallCollision_elem.
    unfold BALL_RADIUS. cbn. rewrite cos_PI. lra.
  - rewrite detectCollisions_wall, detectBallWallCollision_elem.
    unfold BALL_RADIUS. cbn. lra.
Defined.

Lemma handleBallBrickCollision_ball index side state oldState state' :
  handleBallBrickCollision index side state oldState = Ok state' ->
  State.ball state' =
  State.ball match side with
             | Left | Right => reflectHorizontally state (State.ball oldState)
             | Top | Bottom => reflectVertically state (State.ball oldState)
             end.
Proof.
  unfold handleBallBrickCollision.
  set (s := match side with
            | Left | Right => reflectHorizontally state (State.ball oldState)
            | Top | Bottom => reflectVertically state (State.ball oldState)
            end).
  destruct (State.bricks s !! index) as [brick|]; [|done].
  by destruct (Brick.powerup brick); intros [= <-].
Qed.

(** X14.  Two brick records in one frame.  When the ball has made one
    step from the old ball's place and two bricks are resolved, both hit on
    a horizontal side (top or bottom), the second reflection undoes the
    first: the ball ends where the transition put it, with the angle it
    had.  When both are hit on a vertical side (left or right), the ball is
    reflected once. *)
Theorem double_brick_hit i j side side' state oldState state' :
  State.ball state = step (State.ball oldState) ->
  handleCollisions [BallBrick i side; BallBrick j side'] state oldState
  = Ok state' ->
  ((side = Top \/ side = Bottom) -> (side' = Top \/ side' = Bottom) ->
   State.ball state' = State.ball state) /\
  ((side = Left \/ side = Right) -> (side' = Left \/ side' = Right) ->
   State.ball state'
   = State.ball (reflectHorizontally state (State.ball oldState))).
Proof.
  intros Hstep. simpl. unfold bind.
  destruct (handleBallBrickCollision i side state oldState) as [s1|] eqn:H1;
    [|done].
  destruct (handleBallBrickCollision j side' s1 oldState) as [s2|] eqn:H2;
    [|done].
  intros [= <-].
  apply handleBallBrickCollision_ball in H1, H2. rewrite H2.
  split.
  - intros Hv Hv'.
    assert (State.ball (reflectVertically s1 (State.ball oldState))
            = State.ball state) as Hback.
    { unfold reflectVertically. cbn.
      assert (State.ball s1
              = State.ball (reflectVertically state (State.ball oldState)))
        as -> by by destruct Hv as [-> | ->].
      cbn. rewrite Hstep. unfold step, Ball.with_angle, Ball.with_pos,
        Pos.with_y. cbn. by rewrite Ropp_involutive. }
    by destruct Hv' as [-> | ->].
  - intros Hh Hh'.
    assert (State.ball (reflectHorizontally s1 (State.ball oldState))
            = State.ball (reflectHorizontally state (State.ball oldState)))
      as Honce.
    { unfold reflectHorizontally at 1. cbn.
      assert (State.ball s1
              = State.ball (reflectHorizontally state (State.ball oldState)))
        as -> by by destruct Hh as [-> | ->].
      done. }
    by destruct Hh' as [-> | ->].
Qed.

Lemma double_brick_hit_witness :
  State.ball between_through = State.ball between_moved.
Proof.
  refine (proj1 (double_brick_hit 0 1 Bottom Bottom between_moved between
                   between_through _ _) _ _).
  - unfold between_moved, between, flying, step. cbn.
    rewrite cos_neg, sin_neg, cos_PI2, sin_PI2.
    unfold Ball.with_pos. cbn. f_equal. f_equal; lra.
  - reflexivity.
  - by right.
  - by right.
Defined.

(** X15.  While the game serves, the ball on the paddle is not a collision
    with the paddle: the collision set of a state that a transition returns
    unpaused and serving holds no ["ball.paddle"] record. *)
Theorem serving_ball_clear_of_paddle oldState inputs :
  let state := (updateState oldState inputs).1 in
  State.isPaused state = false -> State.isServing state = true ->
  BallPaddle ∉ detectCollisions state oldState.
Proof.
  cbv zeta.
  destruct (updateState_cases oldState inputs) as [[E ->] | [_ ->]];
    cbn [fst]; [congruence|intros _].
  unfold running_steps. rewrite updateBall_isServing.
  set (s := updatePaddle _ _ _). intros Hserving.
  rewrite detectCollisions_unfold, !elem_of_app.
  intros [H | [H | [H | H]]].
  - by apply detectBallWallCollision_wall in H as [wall ?].
  - apply detectBallBrick_loop_elem in H as (k & brick & _ & H).
    by apply detectBallBrick_at_elem in H as [side ?].
  - revert H. unfold detectBallPaddleCollision, updateBall.
    rewrite Hserving. cbn.
    rewrite (bool_decide_eq_false_2 (_ - _ > _ - _))
      by (unfold PADDLE_HEIGHT, BALL_RADIUS; lra).
    rewrite andb_false_r. cbn. apply elem_of_nil.
  - by apply detectPowerupPaddleCollision_elem in H as (p & _ & ?).
Qed.

Lemma serving_ball_clear_of_paddle_witness :
  BallPaddle ∉ detectCollisions (updateState initial ∅).1 initial.
Proof.
  refine (serving_ball_clear_of_paddle initial ∅ _ _).
  - by rewrite updateState_initial.
  - by rewrite updateState_initial.
Defined.

(** ** The paddle and the keys *)

(** X16.  The width of the paddle follows the desired width by at most 1
    for each transition of a running game and never overshoots: the new
    width is between the old width and the desired width of the new state,
    at most 1 from the old width, and equal to the desired width when the
    old width was within 1 of it. *)
Theorem paddle_width_animation oldState inputs :
  let state := (updateState oldState inputs).1 in
  let width := Paddle.width (State.paddle oldState) in
  let width' := Paddle.width (State.paddle state) in
  let desiredWidth := Paddle.desiredWidth (State.paddle state) in
  State.isPaused state = false ->
  Rabs (width' - width) <= 1 /\
  (width <= width' <= desiredWidth \/ desiredWidth <= width' <= width) /\
  (Rabs (desiredWidth - width) <= 1 -> width' = desiredWidth).
Proof.
  cbv zeta.
  pose proof (updatePause_fields oldState inputs)
    as (_ & _ & _ & Hp & _ & _).
  destruct (updateState_cases oldState inputs) as [[E ->] | [_ ->]];
    cbn [fst]; [congruence|intros _].
  unfold running_steps.
  rewrite !updateBall_paddle, updatePaddle_desiredWidth, updatePaddle_width.
  cbv zeta.
  set (s := updatePowerups _).
  assert (Paddle.width (State.paddle s) = Paddle.width (State.paddle oldState))
    as ->.
  { subst s. rewrite (sbp_width _ _ (updatePowerups_same _)).
    destruct (updateServingPaddle_fields (updatePause oldState inputs).1
                oldState (updatePause oldState inputs).2)
      as (_ & _ & _ & -> & _). by rewrite Hp. }
  generalize (Paddle.desiredWidth (State.paddle s)) as d.
  generalize (Paddle.width (State.paddle oldState)) as w. intros w d.
  unfold Rabs, Rmin, Rmax.
  repeat case_bool_decide; repeat destruct (Rcase_abs _);
    repeat destruct (Rle_dec _ _); repeat split; intros; lra.
Qed.

Lemma paddle_width_animation_witness :
  Rabs (Paddle.width (State.paddle (updateState widening ∅).1)
        - Paddle.width (State.paddle widening)) <= 1.
Proof.
  refine (proj1 (paddle_width_animation widening ∅ _)).
  rewrite updateState_running_released;
    [|reflexivity|apply has_false; reflexivity].
  cbn [fst]. by rewrite running_steps_isPaused.
Defined.

(** X17.  The arrow keys in a running game, the pause key not held.  With
    the right key held the paddle moves right by [PADDLE_SPEED], up to the
    right bound, whether the left key is held or not; with the left key
    alone it moves left by [PADDLE_SPEED], down to the left bound; with
    neither it stays.  The bounds are those of the old paddle's width. *)
Theorem paddle_keys oldState inputs :
  let state := (updateState oldState inputs).1 in
  let paddle := State.paddle oldState in
  let boundaries := State.boundaries oldState in
  let x' := Pos.x (Paddle.pos (State.paddle state)) in
  State.isPaused oldState = false -> "p" ∉ inputs ->
  ("ArrowRight" ∈ inputs ->
   x' = Rmin (Boundaries.xMax boundaries - Paddle.width paddle / 2)
             (Pos.x (Paddle.pos paddle) + PADDLE_SPEED)) /\
  ("ArrowRight" ∉ inputs -> "ArrowLeft" ∈ inputs ->
   x' = Rmax (Boundaries.xMin boundaries + Paddle.width paddle / 2)
             (Pos.x (Paddle.pos paddle) - PADDLE_SPEED)) /\
  ("ArrowRight" ∉ inputs -> "ArrowLeft" ∉ inputs ->
   x' = Pos.x (Paddle.pos paddle)).
Proof.
  cbv zeta. intros Hrun Hp.
  pose proof (updateState_paddle_x oldState inputs) as Hx. cbv zeta in Hx.
  rewrite updatePause_released in Hx by done. cbn [fst snd] in Hx.
  rewrite Hrun in Hx. rewrite Hx. repeat split.
  - intros H%has_true. by rewrite H.
  - intros H%has_false H'%has_true. by rewrite H, H'.
  - intros H%has_false H'%has_false. by rewrite H, H'.
Qed.

Lemma paddle_keys_witness :
  Pos.x (Paddle.pos
           (State.paddle
              (updateState falling {["ArrowLeft"; "ArrowRight"]}).1))
  = Rmin (500 - 80 / 2) (250 + PADDLE_SPEED).
Proof.
  refine (proj1 (paddle_keys falling {["ArrowLeft"; "ArrowRight"]} _ _) _).
  - reflexivity.
  - apply has_false. reflexivity.
  - apply has_true. reflexivity.
Defined.

Lemma has_union_other inputs key key' :
  key <> key' -> has (inputs ∪ {[key']}) key = has inputs key.
Proof.
  intros Hne. unfold has. apply bool_decide_ext.
  rewrite elem_of_union, elem_of_singleton. tauto.
Qed.

Lemma has_difference_other inputs key key' :
  key <> key' -> has (inputs ∖ {[key']}) key = has inputs key.
Proof.
  intros Hne. unfold has. apply bool_decide_ext.
  rewrite elem_of_difference, elem_of_singleton. tauto.
Qed.

(** The steps after the toggle read the keys through three tests only... *)
Lemma running_steps_keys state oldState inputs inputs' :
  State.isServing oldState && has inputs " "
  = State.isServing oldState && has inputs' " " ->
  has inputs "ArrowLeft" = has inputs' "ArrowLeft" ->
  has inputs "ArrowRight" = has inputs' "ArrowRight" ->
  running_steps state oldState inputs = running_steps state oldState inputs'.
Proof.
  intros Hspace Hleft Hright.
  unfold running_steps, updateServingPaddle, updatePaddle.
  by rewrite Hspace, Hleft, Hright.
Qed.

(** ... and read the old state's serving flag, paddle, boundaries and ball
    only. *)
Lemma running_steps_oldState state oldState oldState' inputs :
  State.isServing oldState = State.isServing oldState' ->
  State.paddle oldState = State.paddle oldState' ->
  State.boundaries oldState = State.boundaries oldState' ->
  State.ball oldState = State.ball oldState' ->
  running_steps state oldState inputs = running_steps state oldState' inputs.
Proof.
  intros Hserving Hpaddle Hboundaries Hball.
  unfold running_steps, updateServingPaddle, updatePaddle, updateBall.
  by rewrite Hserving, Hpaddle, Hboundaries, Hball.
Qed.

(** X18.  The space bar does nothing unless the game serves: when the old
    state is not serving, the transition returns the same state with and
    without the space bar among the keys. *)
Theorem space_in_flight oldState inputs :
  State.isServing oldState = false ->
  (updateState oldState (inputs ∪ {[" "]})).1
  = (updateState oldState inputs).1.
Proof.
  intros Hserving. unfold updateState, updatePause.
  rewrite has_union_other by done.
  destruct (has inputs "p") eqn:Hp; cbn [fst snd negb State.isPaused
    State.with_isPaused].
  - destruct (negb (negb (State.isPaused oldState))); [|done]. cbn [fst].
    apply running_steps_keys.
    + by rewrite Hserving.
    + by rewrite !has_difference_other, has_union_other.
    + by rewrite !has_difference_other, has_union_other.
  - destruct (negb (State.isPaused oldState)); [|done]. cbn [fst].
    apply running_steps_keys.
    + by rewrite Hserving.
    + by rewrite has_union_other.
    + by rewrite has_union_other.
Qed.

Lemma space_in_flight_witness :
  (updateState falling (∅ ∪ {[" "]})).1 = (updateState falling ∅).1.
Proof. apply (space_in_flight falling ∅). reflexivity. Defined.

(** X19.  The pause key, pressed twice.  The transition that pauses a
    running game changes the pause flag only, and a transition that resumes
    from the state it returns is the transition that the game would have
    made from the state before the pause, with the same other keys: the
    two transitions lose no step of the game. *)
Theorem pause_and_resume oldState inputs inputs' :
  State.isPaused oldState = false ->
  "p" ∈ inputs -> "p" ∈ inputs' ->
  let paused := (updateState oldState inputs).1 in
  paused = State.with_isPaused oldState true /\
  updateState paused inputs' = updateState oldState (inputs' ∖ {["p"]}).
Proof.
  intros Hrun Hp Hp'. cbv zeta.
  assert (updateState oldState inputs
          = (State.with_isPaused oldState true, inputs ∖ {["p"]})) as ->.
  { rewrite updateState_paused; rewrite updatePause_pressed by done;
      by rewrite ?Hrun. }
  cbn [fst]. split; [done|].
  rewrite (updateState_running_released oldState)
    by (done || rewrite elem_of_difference, elem_of_singleton; tauto).
  rewrite updateState_running by by rewrite updatePause_pressed.
  rewrite updatePause_pressed by done.
  fold (running_steps
          (State.with_isPaused (State.with_isPaused oldState true)
             (negb (State.isPaused (State.with_isPaused oldState true))))
          (State.with_isPaused oldState true) (inputs' ∖ {["p"]})).
  f_equal.
  replace (State.with_isPaused (State.with_isPaused oldState true)
             (negb (State.isPaused (State.with_isPaused oldState true))))
    with oldState
    by (destruct oldState; simpl in *; by subst).
  by apply running_steps_oldState.
Qed.

Lemma pause_and_resume_witness :
  updateState (updateState falling {["p"]}).1 {["p"]}
  = updateState falling ({["p"]} ∖ {["p"]}).
Proof.
  refine (proj2 (pause_and_resume falling {["p"]} {["p"]} _ _ _)).
  - reflexivity.
  - apply has_true. reflexivity.
  - apply has_true. reflexivity.
Defined.
